(** * leet-tracker: the rating engine, calibration and rating sync

    A shallow embedding of
      - src/domain/eloRating.ts                  (Glicko-2 rating engine),
      - src/domain/historicalRatingEstimation.ts (tie replay of past solves),
      - the rating-sync module                   (updateRatingsFromSolve,
                                                  updateRatingsFromSolves),
      - the calibration module                   (selectCalibrationProblems,
                                                  the calibration session),
      - src/storage/ratings.ts                   (ratings and calibration state),
      - src/storage/solveSession.ts              (the active solve session),
    the properties the specification states about them, and further
    properties read off the code.

    JavaScript numbers are IEEE-754 binary64 values.  The program is written
    once over an interface [Number] of the arithmetic it uses.  It is read
    at [F64_number], Rocq's primitive binary64 floats, on which the program
    runs as it does in the browser (NaN, infinities, rounding): properties
    of numbers are proved there.  Statements that hold for every instance
    hold in particular for the binary64 one; [Ideal_number], the real
    numbers, is a second instance at which such a statement can be read. *)

From Stdlib Require Import Floats ZArith QArith String List Bool Lia.
From Stdlib Require Import Reals Lra Permutation.
From Stdlib Require Import Sorted.
Import ListNotations.
Set Warnings "-inexact-float".
Set Implicit Arguments.
Close Scope Q_scope.
Close Scope R_scope.

(* ================================================================== *)
(** * The arithmetic the program uses *)
(* ================================================================== *)

Declare Scope num_scope.
Delimit Scope num_scope with num.

(** The operations of a JavaScript number that the sources use.  [lit q]
    is the number a decimal literal denotes, [of_nat] an array length read
    as a number, [to_index] a number used as an array subscript. *)
Class Number (num : Type) : Type := {
  lit : Q -> num;
  of_nat : nat -> num;
  to_index : num -> nat;
  add : num -> num -> num;
  sub : num -> num -> num;
  mul : num -> num -> num;
  div : num -> num -> num;
  opp : num -> num;
  ltb : num -> num -> bool;
  leb : num -> num -> bool;
  truthy : num -> bool;
  Math_sqrt : num -> num;
  Math_exp : num -> num;
  Math_log : num -> num;
  Math_abs : num -> num;
  Math_round : num -> num;
  Math_floor : num -> num;
  Math_max : num -> num -> num;
  Math_min : num -> num -> num;
  Math_PI : num
}.

Infix "+" := add : num_scope.
Infix "-" := sub : num_scope.
Infix "*" := mul : num_scope.
Infix "/" := div : num_scope.
Notation "- x" := (opp x) : num_scope.
Infix "<?" := ltb (at level 70) : num_scope.
Infix "<=?" := leb (at level 70) : num_scope.
Notation "x >? y" := (ltb y x) (at level 70) : num_scope.
Notation "x >=? y" := (leb y x) (at level 70) : num_scope.

(* ------------------------------------------------------------------ *)
(** ** Binary64: the numbers of the JavaScript runtime *)
(* ------------------------------------------------------------------ *)

Module F64.
Open Scope float_scope.

(** The integer [z] as a binary64 number (exact below 2^53). *)
Definition of_Z (z : Z) : float := SF2Prim (binary_normalize prec emax z 0 false).

(** The integer part of [x], rounded toward zero. *)
Definition trunc (x : float) : Z :=
  match Prim2SF x with
  | S754_finite s m e =>
      let z := if (0 <=? e)%Z then (Z.pos m * 2 ^ e)%Z else (Z.pos m / 2 ^ (- e))%Z in
      if s then (- z)%Z else z
  | _ => 0%Z
  end.

Definition floorZ (x : float) : Z :=
  match Prim2SF x with
  | S754_finite s m e =>
      let z := if s then Z.neg m else Z.pos m in
      if (0 <=? e)%Z then (z * 2 ^ e)%Z else (z / 2 ^ (- e))%Z
  | _ => 0%Z
  end.

Definition is_integral (x : float) : bool :=
  match Prim2SF x with
  | S754_finite _ m e => (0 <=? e)%Z || (Z.pos m mod 2 ^ (- e) =? 0)%Z
  | _ => true
  end.

Definition signed_zero (neg : bool) (z : Z) : float :=
  if (z =? 0)%Z then (if neg then neg_zero else zero) else of_Z z.

(** [Math.floor]. *)
Definition floor (x : float) : float :=
  if is_integral x then x else signed_zero false (floorZ x).

(** [Math.round]: the integer nearest to [x], ties toward +infinity;
    NaN, infinities and zeros are returned as they are. *)
Definition round (x : float) : float :=
  match Prim2SF x with
  | S754_finite s m e =>
      if (0 <=? e)%Z then x
      else let z := if s then Z.neg m else Z.pos m in
           signed_zero s ((2 * z + 2 ^ (- e)) / 2 ^ (- e + 1))
  | _ => x
  end.

(** [Math.max] and [Math.min]: NaN if an argument is NaN, and +0 above -0. *)
Definition max (a b : float) : float :=
  if is_nan a || is_nan b then nan
  else if a =? b then (if get_sign a then b else a)
  else if a <? b then b else a.

Definition min (a b : float) : float :=
  if is_nan a || is_nan b then nan
  else if a =? b then (if get_sign a then a else b)
  else if a <? b then a else b.

(** A number is falsy when it is NaN or a zero. *)
Definition truthy (x : float) : bool := negb (is_nan x || PrimFloat.is_zero x).

Definition to_index (x : float) : nat := Z.to_nat (trunc x).

Definition PI : float := 0x1.921fb54442d18p+1.

(** [Math.exp] and [Math.log] are implementation-approximated in
    ECMAScript.  The model fixes one implementation, the argument reduction
    and the polynomials of fdlibm (e_exp.c, e_log.c), which V8 ships. *)
Definition o_threshold := 7.09782712893383973096e+02.
Definition u_threshold := -7.45133219101941108420e+02.
Definition ln2HI := 6.93147180369123816490e-01.
Definition ln2LO := 1.90821492927058770002e-10.
Definition invln2 := 1.44269504088896338700e+00.
Definition P1 := 1.66666666666666019037e-01.
Definition P2 := -2.77777777770155933842e-03.
Definition P3 := 6.61375632143793436117e-05.
Definition P4 := -1.65339022054652515390e-06.
Definition P5 := 4.13813679705723846039e-08.

Definition exp_poly (r : float) : float :=
  let t := r * r in
  r - t * (P1 + t * (P2 + t * (P3 + t * (P4 + t * P5)))).

Definition exp (x : float) : float :=
  if is_nan x then x
  else if is_infinity x then (if x <? 0 then 0 else x)
  else if o_threshold <? x then infinity
  else if x <? u_threshold then 0
  else
    let ax := abs x in
    let xsb := x <? 0 in
    if ax <=? 0x1.62e42p-2 then
      if ax <? 0x1p-28 then 1 + x
      else let c := exp_poly x in 1 - ((x * c) / (c - 2) - x)
    else
      let '(hi, lo, k) :=
        if ax <? 0x1.0a2b2p+0 then
          if xsb then (x + ln2HI, - ln2LO, (-1)%Z) else (x - ln2HI, ln2LO, 1%Z)
        else
          let k := trunc (invln2 * x + (if xsb then -0.5 else 0.5)) in
          let t := of_Z k in
          (x - t * ln2HI, t * ln2LO, k) in
      let r := hi - lo in
      let c := exp_poly r in
      Z.ldexp (1 - ((lo - (r * c) / (2 - c)) - hi)) k.

Definition Lg1 := 6.666666666666735130e-01.
Definition Lg2 := 3.999999999940941908e-01.
Definition Lg3 := 2.857142874366239149e-01.
Definition Lg4 := 2.222219843214978396e-01.
Definition Lg5 := 1.818357216161805012e-01.
Definition Lg6 := 1.531383769920937332e-01.
Definition Lg7 := 1.479819860511658591e-01.

Definition log (x : float) : float :=
  if is_nan x then x
  else if PrimFloat.is_zero x then neg_infinity
  else if x <? 0 then nan
  else if is_infinity x then x
  else
    let (m, e) := Z.frexp x in
    let '(y, k) := if m <? 0x1.6a09cp-1 then (2 * m, (e - 1)%Z) else (m, e) in
    let f := y - 1 in
    let dk := of_Z k in
    if abs f <? 0x1p-20 then
      if PrimFloat.is_zero f then dk * ln2HI + dk * ln2LO
      else
        let R := f * f * (0.5 - 0.33333333333333333 * f) in
        dk * ln2HI - ((R - dk * ln2LO) - f)
    else
      let s := f / (2 + f) in
      let z := s * s in
      let w := z * z in
      let t1 := w * (Lg2 + w * (Lg4 + w * Lg6)) in
      let t2 := z * (Lg1 + w * (Lg3 + w * (Lg5 + w * Lg7))) in
      let R := t2 + t1 in
      if (0x1.6147ap+0 <=? y) || (y <? 0x1.6b851p-1) then
        let hfsq := 0.5 * f * f in
        dk * ln2HI - ((hfsq - (s * (hfsq + R) + dk * ln2LO)) - f)
      else
        dk * ln2HI - ((s * (f - R) - dk * ln2LO) - f).

(** A decimal literal n/d denotes the binary64 number nearest to it, which
    is what the correctly rounded quotient of the two integers gives. *)
Definition lit (q : Q) : float := of_Z (Qnum q) / of_Z (Z.pos (Qden q)).

End F64.

#[global] Instance F64_number : Number float := {|
  lit := F64.lit;
  of_nat := fun n => F64.of_Z (Z.of_nat n);
  to_index := F64.to_index;
  add := PrimFloat.add;
  sub := PrimFloat.sub;
  mul := PrimFloat.mul;
  div := PrimFloat.div;
  opp := PrimFloat.opp;
  ltb := PrimFloat.ltb;
  leb := PrimFloat.leb;
  truthy := F64.truthy;
  Math_sqrt := PrimFloat.sqrt;
  Math_exp := F64.exp;
  Math_log := F64.log;
  Math_abs := PrimFloat.abs;
  Math_round := F64.round;
  Math_floor := F64.floor;
  Math_max := F64.max;
  Math_min := F64.min;
  Math_PI := F64.PI
|}.


(* ------------------------------------------------------------------ *)
(** ** Exact arithmetic: the same operations on the real numbers *)
(* ------------------------------------------------------------------ *)

(** The reading is meant where the operations are defined on the reals:
    no division by zero, no square root or logarithm of a negative number
    (there JavaScript yields an infinity or NaN, and the reals of Rocq a
    default value). *)
Module Ideal.
Open Scope R_scope.

Definition ltb (x y : R) : bool := if Rlt_dec x y then true else false.
Definition leb (x y : R) : bool := if Rle_dec x y then true else false.
Definition truthy (x : R) : bool := if Req_dec_T x 0 then false else true.
Definition floor (x : R) : R := IZR (Int_part x).
Definition round (x : R) : R := IZR (Int_part (x + / 2)).

End Ideal.

#[global] Instance Ideal_number : Number R := {|
  lit := Q2R;
  of_nat := INR;
  to_index := fun x => Z.to_nat (Int_part x);
  add := Rplus;
  sub := Rminus;
  mul := Rmult;
  div := Rdiv;
  opp := Ropp;
  ltb := Ideal.ltb;
  leb := Ideal.leb;
  truthy := Ideal.truthy;
  Math_sqrt := sqrt;
  Math_exp := exp;
  Math_log := ln;
  Math_abs := Rabs;
  Math_round := Ideal.round;
  Math_floor := Ideal.floor;
  Math_max := Rmax;
  Math_min := Rmin;
  Math_PI := PI
|}.


(* ================================================================== *)
(** * Data model and effects *)
(* ================================================================== *)

Section Program.

Context {num : Type} {N : Number num}.
Local Open Scope num_scope.

(** [UserRating]: the belief about one skill dimension.  [lastUpdated] may
    be unset. *)
Record UserRating : Type := {
  rating : num;
  rd : num;
  volatility : num;
  lastUpdated : option num;
  solveCount : nat
}.

Record UserRatings : Type := {
  global : UserRating;
  categories : list (string * UserRating)
}.

(** [Problem], with the fields the modelled functions read. *)
Record Problem : Type := {
  p_slug : string;
  p_rating : option num;
  p_tags : list string;
  p_isPaid : bool;
  p_popularity : num
}.

(** [Solve]: a historical attempt. *)
Record Solve : Type := {
  s_slug : string;
  s_status : string;
  s_timestamp : num;
  s_rating : option num;
  s_tags : list string;
  s_timeUsed : option num
}.

(** What the functions read and change besides their arguments: the clock
    behind [Date.now()], the source behind [Math.random()], the key-value
    store of ratings, and the events dispatched on the window.  [clock] and
    [random] give the result of the k-th call; [ticks] and [draws] count
    the calls made.  [fuel] bounds the iterations a [while] loop of the
    source may take in the model: the source has no such bound, and a run
    that needs more is [None]. *)
Record World : Type := {
  fuel : nat;
  clock : nat -> num;
  ticks : nat;
  random : nat -> num;
  draws : nat;
  db : list (string * UserRatings);
  events : list string
}.

Definition M (A : Type) : Type := World -> option (A * World).

Definition ret {A} (a : A) : M A := fun w => Some (a, w).

Definition bind {A B} (c : M A) (k : A -> M B) : M B :=
  fun w => match c w with
           | Some (a, w') => k a w'
           | None => None
           end.

Notation "x <- c ;; k" := (bind c (fun x => k))
  (at level 100, c at next level, right associativity).
Notation "c ;;; k" := (bind c (fun _ => k))
  (at level 100, right associativity).

(** A loop result: [None] when the loop did not finish within the fuel. *)
Definition liftO {A} (o : option A) : M A :=
  fun w => match o with Some a => Some (a, w) | None => None end.

Definition get_fuel : M nat := fun w => Some (fuel w, w).

(** The world after one more call of [Date.now()], of [Math.random()], with
    the store [d], with the dispatched events [e]. *)
Definition tick (w : World) : World :=
  {| fuel := fuel w; clock := clock w; ticks := S (ticks w);
     random := random w; draws := draws w; db := db w; events := events w |}.

Definition drawn (w : World) : World :=
  {| fuel := fuel w; clock := clock w; ticks := ticks w;
     random := random w; draws := S (draws w); db := db w; events := events w |}.

Definition with_db (d : list (string * UserRatings)) (w : World) : World :=
  {| fuel := fuel w; clock := clock w; ticks := ticks w;
     random := random w; draws := draws w; db := d; events := events w |}.

Definition with_events (e : list string) (w : World) : World :=
  {| fuel := fuel w; clock := clock w; ticks := ticks w;
     random := random w; draws := draws w; db := db w; events := e |}.

(** [Date.now()]. *)
Definition Date_now : M num :=
  fun w => Some (clock w (ticks w), tick w).

(** [Math.random()]. *)
Definition Math_random : M num :=
  fun w => Some (random w (draws w), drawn w).

Fixpoint foldM {A B} (f : A -> B -> M A) (l : list B) (a : A) : M A :=
  match l with
  | [] => ret a
  | x :: xs => a' <- f a x ;; foldM f xs a'
  end.

(** Truthiness of an optional number: unset, NaN and zero are falsy. *)
Definition truthy_opt (x : option num) : bool :=
  match x with Some v => truthy v | None => false end.

(* ================================================================== *)
(** * src/domain/eloRating.ts *)
(* ================================================================== *)

Definition GLICKO_SCALE : num := lit (1737178 # 10000).   (* 173.7178 *)
Definition TAU : num := lit (5 # 10).                     (* 0.5 *)
Definition EPSILON : num := lit (1 # 1000000).            (* 0.000001 *)
Definition DEFAULT_RATING : num := lit 1500.
Definition DEFAULT_RD : num := lit 350.
Definition DEFAULT_VOLATILITY : num := lit (6 # 100).     (* 0.06 *)
Definition BASE_TIME_MINUTES : num := lit 20.
Definition RATING_PERIOD_DAYS : num := lit 365.
Definition C_PARAMETER : num := lit 50.

Definition toGlickoScale (rating : num) : num :=
  (rating - DEFAULT_RATING) / GLICKO_SCALE.

Definition fromGlickoScale (glickoRating : num) : num :=
  glickoRating * GLICKO_SCALE + DEFAULT_RATING.

Definition rdToGlickoScale (rd : num) : num := rd / GLICKO_SCALE.

Definition rdFromGlickoScale (glickoRd : num) : num := glickoRd * GLICKO_SCALE.

Definition g (phi : num) : num :=
  lit 1 / Math_sqrt (lit 1 + (lit 3 * phi * phi) / (Math_PI * Math_PI)).

Definition E (mu muJ phiJ : num) : num :=
  lit 1 / (lit 1 + Math_exp (- g phiJ * (mu - muJ))).

Definition applyTimeDecay (userRating : UserRating) (currentTime : num) : UserRating :=
  match lastUpdated userRating with
  | None => userRating
  | Some last =>
      if negb (truthy last) then userRating
      else
        let elapsedMs := currentTime - last in
        let msPerPeriod := RATING_PERIOD_DAYS * lit 24 * lit 60 * lit 60 * lit 1000 in
        let elapsedPeriods := elapsedMs / msPerPeriod in
        let rdSquared := rd userRating * rd userRating in
        let cSquared := C_PARAMETER * C_PARAMETER in
        let newRd := Math_sqrt (rdSquared + cSquared * elapsedPeriods) in
        let cappedRd := Math_min newRd DEFAULT_RD in
        {| rating := rating userRating;
           rd := Math_round cappedRd;
           volatility := volatility userRating;
           lastUpdated := Some currentTime;
           solveCount := solveCount userRating |}
  end.

Definition initializeRating : M UserRating :=
  now <- Date_now ;;
  ret {| rating := DEFAULT_RATING;
         rd := DEFAULT_RD;
         volatility := DEFAULT_VOLATILITY;
         lastUpdated := Some now;
         solveCount := 0 |}.

Definition calculateExpectedScore (userRating problemRating : num) : num :=
  let mu := toGlickoScale userRating in
  let muProblem := toGlickoScale problemRating in
  let problemRd := lit 50 / GLICKO_SCALE in
  E mu muProblem problemRd.

Definition calculatePartialCredit (timeUsed timeLimit : num) (completed : bool) : num :=
  if negb completed then lit 0
  else
    let ratio := timeUsed / timeLimit in
    if ratio <=? lit 1 then lit 1
    else if ratio <=? lit 2 then lit 1 - (ratio - lit 1) * lit (7 # 10)
    else lit 0.

(** [determineTimeLimit(problemRating, baseMinutes = BASE_TIME_MINUTES)]:
    an absent second argument is the default. *)
Definition determineTimeLimit (problemRating : num) (baseMinutes : option num) : num :=
  let baseMinutes := match baseMinutes with Some b => b | None => BASE_TIME_MINUTES end in
  baseMinutes * lit 60.

(** The function [f] whose root the volatility step looks for. *)
Definition volatility_f (a deltaSquared phiSquared v : num) (x : num) : num :=
  let eX := Math_exp x in
  let phiSquaredPlusV := phiSquared + v + eX in
  let term1 :=
    (eX * (deltaSquared - phiSquared - v - eX)) / (lit 2 * phiSquaredPlusV * phiSquaredPlusV) in
  let term2 := (x - a) / (TAU * TAU) in
  term1 - term2.

(** [let k = 1; while (f(a - k * TAU) < 0) k++;] from the value [k]. *)
Fixpoint bracket_loop (n : nat) (f : num -> num) (a k : num) : option num :=
  if f (a - k * TAU) <? lit 0 then
    match n with
    | 0 => None
    | S n' => bracket_loop n' f a (k + lit 1)
    end
  else Some k.

(** [while (Math.abs(B - A) > EPSILON) { ... }]: the value of [A] when the
    loop ends. *)
Fixpoint illinois_loop (n : nat) (f : num -> num) (A B fA fB : num) : option num :=
  if Math_abs (B - A) >? EPSILON then
    match n with
    | 0 => None
    | S n' =>
        let C := A + ((A - B) * fA) / (fB - fA) in
        let fC := f C in
        if fC * fB <? lit 0
        then illinois_loop n' f B C fB fC
        else illinois_loop n' f A C (fA / lit 2) fC
    end
  else Some A.

Definition updateRating (userRating : UserRating) (_problemRating actualOutcome : num)
  : M UserRating :=
  currentTime <- Date_now ;;
  let decayedRating := applyTimeDecay userRating currentTime in
  let mu := toGlickoScale (rating decayedRating) in
  let phi := rdToGlickoScale (rd decayedRating) in
  let sigma := volatility decayedRating in
  let muJ := toGlickoScale _problemRating in
  let phiJ := rdToGlickoScale (lit 50) in
  let gPhiJ := g phiJ in
  let expectedScore := E mu muJ phiJ in
  let v := lit 1 / (gPhiJ * gPhiJ * expectedScore * (lit 1 - expectedScore)) in
  let delta := v * gPhiJ * (actualOutcome - expectedScore) in
  let a := Math_log (sigma * sigma) in
  let deltaSquared := delta * delta in
  let phiSquared := phi * phi in
  let f := volatility_f a deltaSquared phiSquared v in
  n <- get_fuel ;;
  B <- (if deltaSquared >? phiSquared + v
        then ret (Math_log (deltaSquared - phiSquared - v))
        else k <- liftO (bracket_loop n f a (lit 1)) ;; ret (a - k * TAU)) ;;
  A <- liftO (illinois_loop n f a B (f a) (f B)) ;;
  let newSigma := Math_exp (A / lit 2) in
  let phiStar := Math_sqrt (phiSquared + newSigma * newSigma) in
  let newPhi := lit 1 / Math_sqrt (lit 1 / (phiStar * phiStar) + lit 1 / v) in
  let newMu := mu + newPhi * newPhi * gPhiJ * (actualOutcome - expectedScore) in
  let newRating := fromGlickoScale newMu in
  let newRd := rdFromGlickoScale newPhi in
  let newRating := Math_max (lit 800) (Math_min (lit 3500) newRating) in
  let newRd := Math_max (lit 30) (Math_min (lit 350) newRd) in
  now <- Date_now ;;
  ret {| rating := Math_round newRating;
         rd := Math_round newRd;
         volatility := newSigma;
         lastUpdated := Some now;
         solveCount := solveCount decayedRating + 1 |}.

(** ** The volatility step, loop by loop *)

(** Steps 2 to 4 of [updateRating] and the set-up of Step 5 for the decayed
    rating: [a], the function [f], and the value of [B] when the first
    branch assigns it ([None] when the bracketing loop has to find it). *)
Record VolatilityStep : Type := {
  vs_a : num;
  vs_f : num -> num;
  vs_B : option num
}.

Definition volatilityStep (decayedRating : UserRating) (_problemRating actualOutcome : num)
  : VolatilityStep :=
  let mu := toGlickoScale (rating decayedRating) in
  let phi := rdToGlickoScale (rd decayedRating) in
  let sigma := volatility decayedRating in
  let muJ := toGlickoScale _problemRating in
  let phiJ := rdToGlickoScale (lit 50) in
  let gPhiJ := g phiJ in
  let expectedScore := E mu muJ phiJ in
  let v := lit 1 / (gPhiJ * gPhiJ * expectedScore * (lit 1 - expectedScore)) in
  let delta := v * gPhiJ * (actualOutcome - expectedScore) in
  let a := Math_log (sigma * sigma) in
  let deltaSquared := delta * delta in
  let phiSquared := phi * phi in
  {| vs_a := a;
     vs_f := volatility_f a deltaSquared phiSquared v;
     vs_B := if deltaSquared >? phiSquared + v
             then Some (Math_log (deltaSquared - phiSquared - v))
             else None |}.

(** The value of [k] after [j] passes of [k++], from [k = 1]. *)
Definition bracket_k (j : nat) : num := Nat.iter j (fun k => k + lit 1) (lit 1).

(** The variables [A], [B], [fA], [fB] of the Illinois loop, its test and
    one pass through its body. *)
Definition illinois_test (s : num * num * num * num) : bool :=
  let '(A, B, _, _) := s in Math_abs (B - A) >? EPSILON.

Definition illinois_step (f : num -> num) (s : num * num * num * num)
  : num * num * num * num :=
  let '(A, B, fA, fB) := s in
  let C := A + ((A - B) * fA) / (fB - fA) in
  let fC := f C in
  if fC * fB <? lit 0 then (B, C, fB, fC) else (A, C, fA / lit 2, fC).

Definition illinois_A (s : num * num * num * num) : num :=
  let '(A, _, _, _) := s in A.

(* ================================================================== *)
(** * JavaScript containers *)
(* ================================================================== *)

(** A [Map] or an object used as a map keeps its keys in insertion order:
    an association list with one entry per key. *)
Fixpoint Map_get {V} (k : string) (m : list (string * V)) : option V :=
  match m with
  | [] => None
  | (k', v) :: m' => if String.eqb k k' then Some v else Map_get k m'
  end.

Fixpoint Map_set {V} (k : string) (v : V) (m : list (string * V)) : list (string * V) :=
  match m with
  | [] => [(k, v)]
  | (k', v') :: m' =>
      if String.eqb k k' then (k, v) :: m' else (k', v') :: Map_set k v m'
  end.

(** [Set.has]. *)
Definition Set_has (s : list string) (x : string) : bool :=
  existsb (String.eqb x) s.

(** [Array.prototype.sort(compareFn)]: the stable sort that puts [a] before
    [b] when [compareFn(a, b) < 0]. *)
Fixpoint sort_insert {A} (compareFn : A -> A -> num) (x : A) (l : list A) : list A :=
  match l with
  | [] => [x]
  | y :: ys =>
      if compareFn x y >? lit 0 then y :: sort_insert compareFn x ys
      else x :: y :: ys
  end.

Definition Array_sort {A} (compareFn : A -> A -> num) (l : list A) : list A :=
  fold_right (sort_insert compareFn) [] l.

(** [a[i] = x]. *)
Fixpoint Array_set {A} (l : list A) (i : nat) (x : A) : list A :=
  match l, i with
  | [], _ => []
  | _ :: t, O => x :: t
  | h :: t, S i' => h :: Array_set t i' x
  end.

(** [[a[i], a[j]] = [a[j], a[i]]]. *)
Definition Array_swap {A} (l : list A) (i j : nat) : list A :=
  match nth_error l i, nth_error l j with
  | Some x, Some y => Array_set (Array_set l i y) j x
  | _, _ => l
  end.

(* ================================================================== *)
(** * src/storage/ratings.ts *)
(* ================================================================== *)

Definition ratings_key (username : string) : string := (username ++ "|ratings")%string.

Definition getRatings (username : string) : M (option UserRatings) :=
  fun w => Some (Map_get (ratings_key username) (db w), w).

Definition saveRatings (username : string) (ratings : UserRatings) : M unit :=
  fun w => Some (tt, with_db (Map_set (ratings_key username) ratings (db w)) w).

Definition initializeRatings (username : string) : M UserRatings :=
  g0 <- initializeRating ;;
  let ratings := {| global := g0; categories := [] |} in
  saveRatings username ratings ;;;
  ret ratings.

(* ================================================================== *)
(** * src/domain/historicalRatingEstimation.ts *)
(* ================================================================== *)

Definition mean (values : list num) : num :=
  match values with
  | [] => lit 0
  | _ => fold_left (fun sum val => sum + val) values (lit 0) / of_nat (length values)
  end.

(** [Math.pow(x, 2)]. *)
Definition Math_pow2 (x : num) : num := x * x.

Definition standardDeviation (values : list num) : num :=
  if Nat.leb (length values) 1 then lit 0
  else
    let avg := mean values in
    let squaredDiffs := map (fun val => Math_pow2 (val - avg)) values in
    let variance := mean squaredDiffs in
    Math_sqrt variance.

(** [problem && problem.rating && problem.rating > 0] *)
Definition rated (problem : option Problem) : option num :=
  match problem with
  | Some p =>
      match p_rating p with
      | Some r => if truthy r && (r >? lit 0) then Some r else None
      | None => None
      end
  | None => None
  end.

(** The rating of [problem], unless
    [!problem || !problem.rating || problem.rating <= 0]. *)
Definition usable_rating (problem : option Problem) : option num :=
  match problem with
  | Some p =>
      match p_rating p with
      | Some r => if negb (truthy r) || (r <=? lit 0) then None else Some r
      | None => None
      end
  | None => None
  end.

Definition getAcceptedSolveRatings (solves : list Solve) (problems : list (string * Problem))
  : list num :=
  flat_map
    (fun solve =>
       if negb (String.eqb (s_status solve) "Accepted"%string) then []
       else match rated (Map_get (s_slug solve) problems) with
            | Some r => [r]
            | None => []
            end)
    solves.

(** [categoryMap.get(tag).push(solve)], creating the entry when absent. *)
Definition Map_push (tag : string) (solve : Solve) (m : list (string * list Solve))
  : list (string * list Solve) :=
  match Map_get tag m with
  | Some l => Map_set tag (l ++ [solve]) m
  | None => Map_set tag [solve] m
  end.

Definition groupSolvesByCategory (solves : list Solve) (problems : list (string * Problem))
  : list (string * list Solve) :=
  fold_left
    (fun categoryMap solve =>
       if negb (String.eqb (s_status solve) "Accepted"%string) then categoryMap
       else match Map_get (s_slug solve) problems with
            | None => categoryMap
            | Some problem =>
                match usable_rating (Some problem) with
                | None => categoryMap
                | Some _ =>
                    fold_left
                      (fun categoryMap tag =>
                         if String.eqb tag "Random"%string then categoryMap
                         else Map_push tag solve categoryMap)
                      (p_tags problem) categoryMap
                end
            end)
    solves [].

Definition set_rating (r : UserRating) (x : num) : UserRating :=
  {| rating := x; rd := rd r; volatility := volatility r;
     lastUpdated := lastUpdated r; solveCount := solveCount r |}.

Definition processHistoricalSolves (initialRating : num) (solves : list Solve)
  (problems : list (string * Problem)) : M UserRating :=
  rating0 <- initializeRating ;;
  let rating0 := set_rating rating0 initialRating in
  let sortedSolves := Array_sort (fun a b => s_timestamp a - s_timestamp b) solves in
  foldM
    (fun rating solve =>
       if negb (String.eqb (s_status solve) "Accepted"%string) then ret rating
       else match usable_rating (Map_get (s_slug solve) problems) with
            | None => ret rating
            | Some r => updateRating rating r (lit (5 # 10))
            end)
    sortedSolves rating0.

(** The ratings [problem?.rating ?? 0] of a category's solves that are > 0. *)
Definition categoryRatingValues (categorySolves : list Solve)
  (problems : list (string * Problem)) : list num :=
  filter (fun r => r >? lit 0)
    (map (fun solve =>
            match Map_get (s_slug solve) problems with
            | Some problem => match p_rating problem with Some r => r | None => lit 0 end
            | None => lit 0
            end)
         categorySolves).

(** The body of the loop over [categoryGroups.entries()]. *)
Definition categoryStep (initialEstimate : num) (problems : list (string * Problem))
  (categoryRatings : list (string * UserRating)) (entry : string * list Solve)
  : M (list (string * UserRating)) :=
  let '(category, categorySolves) := entry in
  let values := categoryRatingValues categorySolves problems in
  if Nat.leb 3 (length values) then
    let categoryInitialEstimate := mean values - lit (5 # 10) * standardDeviation values in
    r <- processHistoricalSolves categoryInitialEstimate categorySolves problems ;;
    ret (Map_set category r categoryRatings)
  else if Nat.ltb 0 (length values) then
    u <- Math_random ;;
    let jitter := (u - lit (5 # 10)) * lit 100 in
    let categoryInitialEstimate :=
      Math_max (lit 800) (Math_min (lit 3000) (initialEstimate + jitter)) in
    r <- processHistoricalSolves categoryInitialEstimate categorySolves problems ;;
    ret (Map_set category r categoryRatings)
  else ret categoryRatings.

(** The value of [initialEstimate] in [initializeRatingsFromHistory]. *)
Definition initialEstimateOf (solves : list Solve) (problems : list (string * Problem))
  : num :=
  let allRatings := getAcceptedSolveRatings solves problems in
  match allRatings with
  | [] => lit 1500
  | _ => mean allRatings - lit (5 # 10) * standardDeviation allRatings
  end.

Definition initializeRatingsFromHistory (username : string) (solves : list Solve)
  (problems : list (string * Problem)) : M unit :=
  let acceptedSolves := filter (fun s => String.eqb (s_status s) "Accepted"%string) solves in
  let initialEstimate := initialEstimateOf solves problems in
  globalRating <- processHistoricalSolves initialEstimate acceptedSolves problems ;;
  let categoryGroups := groupSolvesByCategory solves problems in
  categoryRatings <- foldM (categoryStep initialEstimate problems) categoryGroups [] ;;
  let ratings := {| global := globalRating; categories := categoryRatings |} in
  saveRatings username ratings.

(** The solves that the loop of [processHistoricalSolves] passes to
    [updateRating]: accepted, with a problem of positive rating. *)
Definition replayed (problems : list (string * Problem)) (solve : Solve) : bool :=
  String.eqb (s_status solve) "Accepted"%string &&
  match usable_rating (Map_get (s_slug solve) problems) with
  | Some _ => true
  | None => false
  end.

(** The world after [t] more calls of [Date.now()] and [d] more calls of
    [Math.random()]. *)
Definition later (t d : nat) (w : World) : World :=
  Nat.iter d drawn (Nat.iter t tick w).

(** The calls of [Date.now()] that a run of [processHistoricalSolves] makes:
    one for the initial rating, two for every replayed solve. *)
Definition replayReadings (problems : list (string * Problem))
  (solves : list (Solve)) : nat :=
  1 + 2 * length (filter (replayed problems) solves).

(** The calls of [Date.now()] and of [Math.random()] that the loop over
    [categoryGroups.entries()] makes for the given groups. *)
Definition groupReadings (problems : list (string * Problem))
  (groups : list (string * list (Solve))) : nat :=
  fold_right
    (fun entry n =>
       (if Nat.ltb 0 (length (categoryRatingValues (snd entry) problems))
        then replayReadings problems (snd entry) else 0) + n)%nat
    0%nat groups.

Definition groupDraws (problems : list (string * Problem))
  (groups : list (string * list (Solve))) : nat :=
  fold_right
    (fun entry n =>
       let values := categoryRatingValues (snd entry) problems in
       (if Nat.leb 3 (length values) then 0
        else if Nat.ltb 0 (length values) then 1 else 0) + n)%nat
    0%nat groups.

(* ================================================================== *)
(** * Rating sync: updateRatingsFromSolve *)
(* ================================================================== *)

Definition RATINGS_UPDATED_EVENT : string := "ratings-updated"%string.

(** [window.dispatchEvent(new CustomEvent(name))]. *)
Definition dispatchEvent (name : string) : M unit :=
  fun w => Some (tt, with_events (events w ++ [name]) w).

(** [!solve.rating || solve.rating <= 0] *)
Definition lacks_rating (solve : Solve) : bool :=
  match s_rating solve with
  | Some r => negb (truthy r) || (r <=? lit 0)
  | None => true
  end.

(** The value of [outcomeScore] after the [if (solve.timeUsed && solve.timeUsed > 0)]
    statement, for a solve with rating [solveRating]. *)
Definition outcomeScore (solve : Solve) (solveRating : num) : num :=
  match s_timeUsed solve with
  | Some timeUsed =>
      if truthy timeUsed && (timeUsed >? lit 0) then
        let timeLimit := determineTimeLimit solveRating None in
        let completed := String.eqb (s_status solve) "Accepted"%string in
        calculatePartialCredit timeUsed timeLimit completed
      else if String.eqb (s_status solve) "Accepted"%string then lit 1 else lit (1 # 10)
  | None => if String.eqb (s_status solve) "Accepted"%string then lit 1 else lit (1 # 10)
  end.

(** The body of [for (const tag of solve.tags)]. *)
Definition tagStep (solveRating score : num) (ratings : UserRatings) (tag : string)
  : M UserRatings :=
  if String.eqb tag "Random"%string then ret ratings
  else
    categoryRating <-
      match Map_get tag (categories ratings) with
      | Some r => ret r
      | None =>
          r <- initializeRating ;;
          ret {| rating := rating (global ratings);
                 rd := Math_max (lit 200) (rd (global ratings));
                 volatility := volatility r;
                 lastUpdated := lastUpdated r;
                 solveCount := solveCount r |}
      end ;;
    r' <- updateRating categoryRating solveRating score ;;
    ret {| global := global ratings;
           categories := Map_set tag r' (categories ratings) |}.

(** [updateRatingsFromSolve], run in the browser ([window] is defined);
    the [console] messages are left out. *)
Definition updateRatingsFromSolve (username : string) (solve : Solve) : M unit :=
  if lacks_rating solve then ret tt
  else
    let solveRating := match s_rating solve with Some r => r | None => lit 0 end in
    stored <- getRatings username ;;
    ratings <- match stored with
               | Some r => ret r
               | None => initializeRatings username
               end ;;
    let score := outcomeScore solve solveRating in
    g' <- updateRating (global ratings) solveRating score ;;
    let ratings := {| global := g'; categories := categories ratings |} in
    ratings <- foldM (tagStep solveRating score) (s_tags solve) ratings ;;
    saveRatings username ratings ;;;
    dispatchEvent RATINGS_UPDATED_EVENT.

(* ================================================================== *)
(** * Calibration: selectCalibrationProblems *)
(* ================================================================== *)

Definition CALIBRATION_TARGET_RATINGS : list num :=
  [lit 1200; lit 1400; lit 1600; lit 1800; lit 2000; lit 2200].

(** The filter of [candidates]: unsolved, not paid, rated within 1100..2300. *)
Definition is_candidate (solvedSlugs : list string) (p : Problem) : bool :=
  negb (Set_has solvedSlugs (p_slug p)) && negb (p_isPaid p) &&
  match p_rating p with
  | Some r => truthy r && (r >=? lit 1100) && (r <=? lit 2300)
  | None => false
  end.

Definition is_nearby (targetRating : num) (p : Problem) : bool :=
  match p_rating p with
  | Some r =>
      if negb (truthy r) then false
      else let diff := Math_abs (r - targetRating) in diff <=? lit 100
  | None => false
  end.

(** [p.tags[0]], when it is a non-empty string. *)
Definition primaryTag (p : Problem) : option string :=
  match p_tags p with
  | t :: _ => if String.eqb t ""%string then None else Some t
  | [] => None
  end.

Definition is_preferred (usedCategories : list string) (p : Problem) : bool :=
  match primaryTag p with
  | Some t => negb (Set_has usedCategories t)
  | None => false
  end.

Definition byPopularity (a b : Problem) : num := p_popularity b - p_popularity a.

(** The body of [for (const targetRating of CALIBRATION_TARGET_RATINGS)],
    on the pair of [selected] and [usedCategories]; after the [break] the
    remaining targets leave the pair as it is. *)
Definition targetStep (candidates : list Problem) (count : nat)
  (st : list Problem * list string) (targetRating : num) : list Problem * list string :=
  let '(selected, usedCategories) := st in
  if Nat.leb count (length selected) then st
  else
    let nearbyProblems := filter (is_nearby targetRating) candidates in
    match nearbyProblems with
    | [] => st
    | _ =>
        let preferredProblems := filter (is_preferred usedCategories) nearbyProblems in
        let pool := match preferredProblems with [] => nearbyProblems | _ => preferredProblems end in
        match Array_sort byPopularity pool with
        | [] => st
        | chosen :: _ =>
            (selected ++ [chosen],
             match primaryTag chosen with
             | Some t => usedCategories ++ [t]
             | None => usedCategories
             end)
        end
    end.

(** [for (const problem of remaining) { if (selected.length >= count) break; ... }] *)
Definition fillStep (count : nat) (selected : list Problem) (problem : Problem) : list Problem :=
  if Nat.leb count (length selected) then selected else selected ++ [problem].

(** Fisher-Yates: the loop [for (let i = shuffled.length - 1; i > 0; i--)]
    from the index [i]. *)
Fixpoint shuffle_loop {A} (i : nat) (shuffled : list A) : M (list A) :=
  match i with
  | O => ret shuffled
  | S i' =>
      u <- Math_random ;;
      let j := to_index (Math_floor (u * of_nat (i + 1))) in
      shuffle_loop i' (Array_swap shuffled i j)
  end.

Definition shuffleArray {A} (array : list A) : M (list A) :=
  shuffle_loop (length array - 1) array.

Definition selectCalibrationProblems (allProblems : list Problem) (count : nat)
  (solvedSlugs : list string) : M (list Problem) :=
  let candidates := filter (is_candidate solvedSlugs) allProblems in
  match candidates with
  | [] => ret []
  | _ =>
      let '(selected, _) :=
        fold_left (targetStep candidates count) CALIBRATION_TARGET_RATINGS ([], []) in
      let selected :=
        if Nat.ltb (length selected) count then
          let selectedSlugs := map p_slug selected in
          let remaining :=
            Array_sort byPopularity
              (filter (fun p => negb (Set_has selectedSlugs (p_slug p))) candidates) in
          fold_left (fillStep count) remaining selected
        else selected in
      shuffleArray selected
  end.

(** [TimedSolveAttempt], without the title. *)
Record TimedSolveAttempt : Type := {
  a_slug : string;
  a_problemRating : num;
  a_category : string;
  a_timeLimit : num;
  a_timeUsed : num;
  a_completed : bool;
  a_timestamp : num
}.

(** [problem.rating || 1500] *)
Definition rating_or_1500 (r : option num) : num :=
  match r with
  | Some x => if truthy x then x else lit 1500
  | None => lit 1500
  end.

Definition createTimedAttempt (problem : Problem) (timeUsed : num) (completed : bool)
  : M TimedSolveAttempt :=
  let primaryCategory := match primaryTag problem with Some t => t | None => "Array"%string end in
  let problemRating := rating_or_1500 (p_rating problem) in
  let timeLimit := determineTimeLimit problemRating None in
  now <- Date_now ;;
  ret {| a_slug := p_slug problem;
         a_problemRating := problemRating;
         a_category := primaryCategory;
         a_timeLimit := timeLimit;
         a_timeUsed := timeUsed;
         a_completed := completed;
         a_timestamp := now |}.

(** What the filter of [candidates] keeps. *)
Definition calibration_candidate (solvedSlugs : list string) (p : Problem) : Prop :=
  Set_has solvedSlugs (p_slug p) = false /\
  p_isPaid p = false /\
  exists r, p_rating p = Some r /\ (r >=? lit 1100) = true /\ (r <=? lit 2300) = true.

(* ================================================================== *)
(** * src/domain/eloRating.ts: display and placeholder ratings *)
(* ================================================================== *)

Definition ESTIMATED_RD : num := lit 200.
Definition HIGH_ESTIMATED_RD : num := lit 250.

Definition getLowerBoundRating (rating rd : num) : num :=
  Math_max (lit 0) (Math_round (rating - lit 2 * rd)).

Definition createPlaceholderRating (estimatedRating : num) (count : nat) : M UserRating :=
  let rd0 := if Nat.ltb count 10 then HIGH_ESTIMATED_RD else ESTIMATED_RD in
  now <- Date_now ;;
  ret {| rating := Math_round estimatedRating;
         rd := rd0;
         volatility := DEFAULT_VOLATILITY;
         lastUpdated := Some now;
         solveCount := count |}.

(* ================================================================== *)
(** * src/domain/historicalRatingEstimation.ts: the legacy estimate *)
(* ================================================================== *)

Definition estimateRatingFromRatings (ratings : list num) (count : nat) : M UserRating :=
  match ratings with
  | [] => initializeRating
  | _ =>
      let avg := mean ratings in
      let stdDev := standardDeviation ratings in
      let estimatedRating := avg - lit (5 # 10) * stdDev in
      createPlaceholderRating estimatedRating count
  end.

(** The body of the loop over [categoryGroups.entries()] in
    [estimateRatingFromHistory]. *)
Definition legacyCategoryStep (problems : list (string * Problem)) (globalRating : UserRating)
  (categoryRatings : list (string * UserRating)) (entry : string * list Solve)
  : M (list (string * UserRating)) :=
  let '(category, categorySolves) := entry in
  let values := categoryRatingValues categorySolves problems in
  if Nat.leb 3 (length values) then
    r <- estimateRatingFromRatings values (length values) ;;
    ret (Map_set category r categoryRatings)
  else if Nat.ltb 0 (length values) then
    u <- Math_random ;;
    let jitter := (u - lit (5 # 10)) * lit 100 in
    let rating0 := Math_max (lit 800) (Math_min (lit 3000) (rating globalRating + jitter)) in
    ret (Map_set category
           {| rating := Math_round rating0;
              rd := lit 250;
              volatility := volatility globalRating;
              lastUpdated := lastUpdated globalRating;
              solveCount := length values |}
           categoryRatings)
  else ret categoryRatings.

Definition estimateRatingFromHistory (solves : list Solve) (problems : list (string * Problem))
  : M UserRatings :=
  let allRatings := getAcceptedSolveRatings solves problems in
  globalRating <- estimateRatingFromRatings allRatings (length allRatings) ;;
  let categoryGroups := groupSolvesByCategory solves problems in
  categoryRatings <- foldM (legacyCategoryStep problems globalRating) categoryGroups [] ;;
  ret {| global := globalRating; categories := categoryRatings |}.

Inductive Confidence : Type := low | moderate | high.

Record EstimationMetadata : Type := {
  totalSolves : nat;
  categoriesWithData : list string;
  confidence : Confidence
}.

Definition getEstimationMetadata (ratings : UserRatings) (solves : list Solve)
  : EstimationMetadata :=
  let acceptedSolves :=
    length (filter (fun s => String.eqb (s_status s) "Accepted"%string) solves) in
  let categoriesWithData := map fst (categories ratings) in
  let confidence :=
    if Nat.ltb acceptedSolves 10 then low
    else if Nat.ltb acceptedSolves 30 then moderate
    else high in
  {| totalSolves := acceptedSolves;
     categoriesWithData := categoriesWithData;
     confidence := confidence |}.

(* ================================================================== *)
(** * src/storage/ratings.ts: hasRatings and the calibration state *)
(* ================================================================== *)

Definition hasRatings (username : string) : M bool :=
  ratings <- getRatings username ;;
  ret (match ratings with Some _ => true | None => false end).

(** [idb.delete(store, key)]. *)
Fixpoint Map_delete {V} (k : string) (m : list (string * V)) : list (string * V) :=
  match m with
  | [] => []
  | (k', v) :: m' => if String.eqb k k' then m' else (k', v) :: Map_delete k m'
  end.

(* ================================================================== *)
(** * Rating sync: updateRatingsFromSolves *)
(* ================================================================== *)

(** What the loop does with a solve that has a rating: the outcome score,
    the update of the global rating and of the rating of every tag. *)
Definition applySolve (ratings : UserRatings) (solve : Solve) : M UserRatings :=
  let solveRating := match s_rating solve with Some r => r | None => lit 0 end in
  let score := outcomeScore solve solveRating in
  g' <- updateRating (global ratings) solveRating score ;;
  let ratings := {| global := g'; categories := categories ratings |} in
  foldM (tagStep solveRating score) (s_tags solve) ratings.

(** The body of [for (const solve of solves)], on [ratings] and
    [updatedCount]. *)
Definition solveStep (st : UserRatings * nat) (solve : Solve) : M (UserRatings * nat) :=
  let '(ratings, updatedCount) := st in
  if lacks_rating solve then ret st
  else
    ratings <- applySolve ratings solve ;;
    ret (ratings, S updatedCount).

(** [updateRatingsFromSolves], run in the browser; the [console] messages
    are left out. *)
Definition updateRatingsFromSolves (username : string) (solves : list Solve) : M unit :=
  match solves with
  | [] => ret tt
  | _ =>
      stored <- getRatings username ;;
      ratings <- match stored with
                 | Some r => ret r
                 | None => initializeRatings username
                 end ;;
      st <- foldM solveStep solves (ratings, 0) ;;
      if Nat.ltb 0 (snd st) then
        saveRatings username (fst st) ;;;
        dispatchEvent RATINGS_UPDATED_EVENT
      else ret tt
  end.

(** One call of [updateRatingsFromSolve] for each solve, in order. *)
Definition eachSolve (username : string) (solves : list Solve) : M unit :=
  foldM (fun _ solve => updateRatingsFromSolve username solve) solves tt.

(* ================================================================== *)
(** * Calibration: the session *)
(* ================================================================== *)

Record CalibrationState : Type := {
  c_username : string;
  c_startedAt : num;
  c_attempts : list TimedSolveAttempt;
  c_currentRating : UserRating;
  c_isComplete : bool
}.

Definition MIN_CATEGORY_ATTEMPTS : nat := 2.

Definition initializeCalibration (username : string) : M CalibrationState :=
  startedAt <- Date_now ;;
  currentRating <- initializeRating ;;
  ret {| c_username := username;
         c_startedAt := startedAt;
         c_attempts := [];
         c_currentRating := currentRating;
         c_isComplete := false |}.

(** [calculatePartialCredit(attempt.timeUsed, attempt.timeLimit, attempt.completed)] *)
Definition attemptScore (attempt : TimedSolveAttempt) : num :=
  calculatePartialCredit (a_timeUsed attempt) (a_timeLimit attempt) (a_completed attempt).

Definition processCalibrationAttempt (state : CalibrationState) (attempt : TimedSolveAttempt)
  : M CalibrationState :=
  let currentRating := c_currentRating state in
  let score := attemptScore attempt in
  newRating <- updateRating currentRating (a_problemRating attempt) score ;;
  ret {| c_username := c_username state;
         c_startedAt := c_startedAt state;
         c_attempts := c_attempts state ++ [attempt];
         c_currentRating := newRating;
         c_isComplete := c_isComplete state |}.

(** [{ ...r, solveCount: n }] *)
Definition set_solveCount (r : UserRating) (n : nat) : UserRating :=
  {| rating := rating r; rd := rd r; volatility := volatility r;
     lastUpdated := lastUpdated r; solveCount := n |}.

(** [categoryAttempts.get(category).push(attempt)], creating the entry
    when absent. *)
Definition Map_append {V} (k : string) (v : V) (m : list (string * list V))
  : list (string * list V) :=
  match Map_get k m with
  | Some l => Map_set k (l ++ [v]) m
  | None => Map_set k [v] m
  end.

(** The map [categoryAttempts] after the loop over [state.attempts]. *)
Definition groupAttempts (attempts : list TimedSolveAttempt)
  : list (string * list TimedSolveAttempt) :=
  fold_left
    (fun categoryAttempts attempt =>
       let category := a_category attempt in
       if String.eqb category "Random"%string then categoryAttempts
       else Map_append category attempt categoryAttempts)
    attempts [].

(** The body of the loop over [categoryAttempts.entries()]. *)
Definition calibrationCategoryStep (globalRating : UserRating)
  (categoryRatings : list (string * UserRating))
  (entry : string * list TimedSolveAttempt) : M (list (string * UserRating)) :=
  let '(category, attempts) := entry in
  if Nat.leb MIN_CATEGORY_ATTEMPTS (length attempts) then
    r0 <- initializeRating ;;
    categoryRating <-
      foldM (fun categoryRating attempt =>
               updateRating categoryRating (a_problemRating attempt) (attemptScore attempt))
            attempts r0 ;;
    ret (Map_set category (set_solveCount categoryRating (length attempts)) categoryRatings)
  else if Nat.ltb 0 (length attempts) then
    u <- Math_random ;;
    let jitter := (u - lit (5 # 10)) * lit 100 in
    let rating0 := Math_max (lit 800) (Math_min (lit 3000) (rating globalRating + jitter)) in
    ret (Map_set category
           {| rating := Math_round rating0;
              rd := Math_max (lit 200) (rd globalRating + lit 50);
              volatility := volatility globalRating;
              lastUpdated := lastUpdated globalRating;
              solveCount := length attempts |}
           categoryRatings)
  else ret categoryRatings.

Definition finalizeCalibration (state : CalibrationState) : M UserRatings :=
  match c_attempts state with
  | [] =>
      g0 <- initializeRating ;;
      ret {| global := g0; categories := [] |}
  | _ =>
      let globalRating :=
        set_solveCount (c_currentRating state) (length (c_attempts state)) in
      let categoryAttempts := groupAttempts (c_attempts state) in
      categoryRatings <- foldM (calibrationCategoryStep globalRating) categoryAttempts [] ;;
      ret {| global := globalRating; categories := categoryRatings |}
  end.

(** The calibration states kept in the object store [calibration-state]. *)
Definition calibration_key (username : string) : string := (username ++ "|calibration")%string.

Definition getCalibrationState (username : string)
  (store : list (string * CalibrationState)) : option CalibrationState :=
  Map_get (calibration_key username) store.

Definition saveCalibrationState (username : string) (state : CalibrationState)
  (store : list (string * CalibrationState)) : list (string * CalibrationState) :=
  Map_set (calibration_key username) state store.

Definition clearCalibrationState (username : string)
  (store : list (string * CalibrationState)) : list (string * CalibrationState) :=
  Map_delete (calibration_key username) store.

(* ================================================================== *)
(** * src/storage/solveSession.ts *)
(* ================================================================== *)

Record SolveSession : Type := {
  ss_problem : Problem;
  ss_timeLimit : num;
  ss_startedAt : num;
  ss_username : string;
  ss_isActive : bool
}.

Definition session_key (username : string) : string := (username ++ "|session")%string.

(** The functions take and return the object store [active-solve-session]. *)
Definition startSolveSession (username : string) (problem : Problem)
  (store : list (string * SolveSession)) : M (SolveSession * list (string * SolveSession)) :=
  let timeLimit := determineTimeLimit (rating_or_1500 (p_rating problem)) None in
  startedAt <- Date_now ;;
  let session := {| ss_problem := problem;
                    ss_timeLimit := timeLimit;
                    ss_startedAt := startedAt;
                    ss_username := username;
                    ss_isActive := true |} in
  ret (session, Map_set (session_key username) session store).

Definition getActiveSolveSession (username : string)
  (store : list (string * SolveSession)) : option SolveSession :=
  Map_get (session_key username) store.

Definition endSolveSession (username : string)
  (store : list (string * SolveSession)) : list (string * SolveSession) :=
  Map_delete (session_key username) store.

Definition markSessionInactive (username : string)
  (store : list (string * SolveSession)) : list (string * SolveSession) :=
  match getActiveSolveSession username store with
  | Some session =>
      let session := {| ss_problem := ss_problem session;
                        ss_timeLimit := ss_timeLimit session;
                        ss_startedAt := ss_startedAt session;
                        ss_username := ss_username session;
                        ss_isActive := false |} in
      Map_set (session_key username) session store
  | None => store
  end.

Definition hasActiveSolveSession (username : string)
  (store : list (string * SolveSession)) : bool :=
  match getActiveSolveSession username store with
  | Some session => ss_isActive session
  | None => false
  end.

(* ================================================================== *)
(** * Reference descriptions *)
(* ================================================================== *)

(** The solves a category group is expected to hold: the replayed solves
    (accepted, of a problem with a positive rating) whose problem carries
    [tag], in the order of the input, once for every occurrence of [tag]
    among the tags of the problem. *)
Definition taggedSolves (problems : list (string * Problem)) (tag : string)
  (solves : list Solve) : list Solve :=
  flat_map
    (fun solve =>
       if replayed problems solve then
         match Map_get (s_slug solve) problems with
         | Some problem => repeat solve (count_occ string_dec (p_tags problem) tag)
         | None => []
         end
       else [])
    solves.

(** The entry of [k] in a map of lists, empty when there is none. *)
Definition group_of {V} (k : string) (m : list (string * list V)) : list V :=
  match Map_get k m with Some l => l | None => [] end.

(** No key of the map holds an empty list. *)
Definition no_empty_group {V} (m : list (string * list V)) : Prop :=
  forall k l, Map_get k m = Some l -> l <> [].

End Program.

Arguments UserRating : clear implicits.
Arguments UserRatings : clear implicits.
Arguments Problem : clear implicits.
Arguments Solve : clear implicits.
Arguments World : clear implicits.
Arguments TimedSolveAttempt : clear implicits.
Arguments EstimationMetadata : clear implicits.
Arguments CalibrationState : clear implicits.
Arguments SolveSession : clear implicits.
Arguments VolatilityStep : clear implicits.


(* ================================================================== *)
(** * Running the program *)
(* ================================================================== *)

(** The value a run returns, without the world it leaves. *)
Definition value {num A} (x : option (A * World num)) : option A :=
  match x with Some (a, _) => Some a | None => None end.

(** The ratings a run leaves in the store for [username]. *)
Definition stored {num A} (username : string) (x : option (A * World num))
  : option (UserRatings num) :=
  match x with
  | Some (_, w) => Map_get (ratings_key username) (db w)
  | None => None
  end.

(** The world [w] with the store [d] and the events [e]. *)
Definition with_store {num} (d : list (string * UserRatings num)) (e : list string)
  (w : World num) : World num := with_events e (with_db d w).

(** A computation that neither reads nor writes the store of ratings and
    the events: it runs the same whatever they hold, and leaves them. *)
Definition store_free {num A} (c : @M num A) : Prop :=
  forall d e w,
    c (with_store d e w) =
    match c w with
    | Some (a, w') => Some (a, with_store d e w')
    | None => None
    end.

(** The world a run leaves, without the events. *)
Definition silent {num A} (x : option (A * World num)) : option (World num) :=
  match x with Some (_, w) => Some (with_events [] w) | None => None end.

Module Run.
Open Scope float_scope.

(** A browser session: the clock stands at 2023-11-14T22:13:20Z, the random
    source returns 0.5, the store is empty, and loops may take [n] steps. *)
Definition world (n : nat) : World float :=
  {| fuel := n; clock := fun _ => 1700000000000; ticks := 0;
     random := fun _ => 0.5; draws := 0; db := []; events := [] |}.

(** A rating last updated at the time of the clock. *)
Definition fresh (rating rd volatility : float) : UserRating float :=
  {| rating := rating; rd := rd; volatility := volatility;
     lastUpdated := Some 1700000000000; solveCount := 0 |}.

(** The volatility step of a first win against an equal problem, from the
    default rating. *)
Definition first_win : VolatilityStep float :=
  volatilityStep (applyTimeDecay (fresh 1500 350 0.06) 1700000000000) 1500 1.

(** A rating whose [lastUpdated] lies 365 days after the clock, as left by
    a device whose clock ran ahead. *)
Definition ahead : UserRating float :=
  {| rating := 1500; rd := 30; volatility := 0.06;
     lastUpdated := Some 1731536000000; solveCount := 5 |}.

(** A rating last updated 365 days before the clock. *)
Definition year_old : UserRating float :=
  {| rating := 1500; rd := 100; volatility := 0.06;
     lastUpdated := Some 1668464000000; solveCount := 5 |}.

Definition only_1300 : Problem float :=
  {| p_slug := "a"; p_rating := Some 1300; p_tags := ["Array"%string];
     p_isPaid := false; p_popularity := 1 |}.

Definition two_sum : Problem float :=
  {| p_slug := "two-sum"; p_rating := Some 1500; p_tags := ["Array"%string];
     p_isPaid := false; p_popularity := 1 |}.

Definition solved_two_sum : Solve float :=
  {| s_slug := "two-sum"; s_status := "Accepted"; s_timestamp := 1600000000000;
     s_rating := Some 1500; s_tags := ["Array"%string]; s_timeUsed := Some 600 |}.

(** A solve the sync skips: it carries no rating. *)
Definition unrated : Solve float :=
  {| s_slug := "two-sum"; s_status := "Accepted"; s_timestamp := 1600000000000;
     s_rating := None; s_tags := ["Array"%string]; s_timeUsed := None |}.

(** A calibration attempt on "two-sum", solved in 600 of 1200 seconds. *)
Definition attempt : TimedSolveAttempt float :=
  {| a_slug := "two-sum"; a_problemRating := 1500; a_category := "Array";
     a_timeLimit := 1200; a_timeUsed := 600; a_completed := true;
     a_timestamp := 1700000000000 |}.

(** A calibration session that holds that one attempt. *)
Definition calibrating : CalibrationState float :=
  {| c_username := "u"; c_startedAt := 1700000000000; c_attempts := [attempt];
     c_currentRating := fresh 1675 248 0.06; c_isComplete := false |}.

End Run.

(** A positive number: present and above zero (so not NaN). *)
Definition is_positive (x : option float) : bool :=
  match x with Some v => (0 <? v)%float | None => false end.

(** ** The value of a binary64 number and of a rounding position *)
Module F64Value.
Open Scope R_scope.

(** 2^e as a real number. *)
Definition bpow (e : Z) : R := powerRZ 2 e.

(** Where a real number [y] lies with respect to the integer [m]: on it,
    below, on or above the middle of [m] and [m + 1]. *)
Definition pos_in (m : Z) (l : location) (y : R) : Prop :=
  match l with
  | loc_Exact => y = IZR m
  | loc_Inexact Lt => IZR m < y < IZR m + / 2
  | loc_Inexact Eq => y = IZR m + / 2
  | loc_Inexact Gt => IZR m + / 2 < y < IZR m + 1
  end.

(** The mantissa [m], the exponent [e] and the location [l] describe the
    real number [x]: [x / 2^e] lies at [l] with respect to [m]. *)
Definition inbetween (m e : Z) (l : location) (x : R) : Prop :=
  pos_in m l (x * bpow (- e)).

(** The real number a finite binary64 number stands for. *)
Definition F2R (x : spec_float) : R :=
  match x with
  | S754_finite s m e => (if s then - IZR (Z.pos m) else IZR (Z.pos m)) * bpow e
  | _ => 0
  end.

(** The order of the locations. *)
Definition loc_rank (l : location) : Z :=
  match l with
  | loc_Exact => 0
  | loc_Inexact Lt => 1
  | loc_Inexact Eq => 2
  | loc_Inexact Gt => 3
  end.

(** The result of rounding to the mantissa [m] (at most 2^53) at the
    exponent [e]. *)
Definition finish (m e : Z) : spec_float :=
  match m with
  | Z0 => S754_zero false
  | Zpos p =>
      if (m =? 2 ^ 53)%Z
      then (if (e + 1 <=? 971)%Z then S754_finite false (2 ^ 52) (e + 1)
            else S754_infinity false)
      else (if (e <=? 971)%Z then S754_finite false p e else S754_infinity false)
  | Zneg _ => S754_nan
  end.

(** Zero or above, infinity included; not NaN. *)
Definition nonneg (x : spec_float) : bool :=
  match x with
  | S754_zero _ => true
  | S754_infinity s => negb s
  | S754_finite s _ _ => negb s
  | S754_nan => false
  end.

(** The integer [Math.round] takes a positive number below 2^52 to. *)
Definition roundZ (x : spec_float) : Z :=
  match x with
  | S754_finite false m e => ((2 * Z.pos m + 2 ^ (- e)) / 2 ^ (- e + 1))%Z
  | _ => 0%Z
  end.

End F64Value.

(* ================================================================== *)
(** * Facts that hold at every instance of the arithmetic *)
(* ================================================================== *)

(** The three ways through the volatility step: the bracket from the
    logarithm, or from the [k] loop, each followed by the Illinois loop. *)
Ltac volatility_cases :=
  match goal with |- context [if ?c then _ else _] => destruct c end;
  [ | match goal with
      | |- context [bracket_loop ?a ?b ?c ?d] => destruct (bracket_loop a b c d)
      end ];
  try match goal with
      | |- context [illinois_loop ?a ?b ?c ?d ?e ?f] =>
          destruct (illinois_loop a b c d e f)
      end.

Section ProgramFacts.

Context {num : Type} {N : Number num}.
Local Open Scope num_scope.

(** ** Runs *)

Lemma bind_Some {A B} (c : M A) (k : A -> M B) (w w' : World num) (b : B) :
  bind c k w = Some (b, w') ->
  exists a w1, c w = Some (a, w1) /\ k a w1 = Some (b, w').
Proof.
  unfold bind. destruct (c w) as [[a w1]|]; [|discriminate].
  intros H. exists a, w1. split; [reflexivity|exact H].
Qed.

Lemma ret_Some {A} (a a' : A) (w w' : World num) :
  ret a w = Some (a', w') -> a' = a /\ w' = w.
Proof. unfold ret. intros H. inversion H. split; reflexivity. Qed.

(** ** Containers *)

Lemma Map_get_set_same {V} (k : string) (v : V) (m : list (string * V)) :
  Map_get k (Map_set k v m) = Some v.
Proof.
  induction m as [|[k' v'] m IH]; cbn.
  - rewrite String.eqb_refl. reflexivity.
  - destruct (String.eqb k k') eqn:Ek; cbn.
    + rewrite String.eqb_refl. reflexivity.
    + rewrite Ek. exact IH.
Qed.

Lemma Map_get_set_other {V} (k k' : string) (v : V) (m : list (string * V)) :
  k <> k' -> Map_get k (Map_set k' v m) = Map_get k m.
Proof.
  intros Hk. induction m as [|[k0 v0] m IH]; cbn.
  - destruct (String.eqb_spec k k'); [contradiction|reflexivity].
  - destruct (String.eqb_spec k' k0) as [->|Hn]; cbn.
    + destruct (String.eqb_spec k k0); [contradiction|reflexivity].
    + destruct (String.eqb_spec k k0); [reflexivity|exact IH].
Qed.

Lemma Map_set_keys {V} (k : string) (v : V) (m : list (string * V)) :
  map fst (Map_set k v m) =
  if existsb (String.eqb k) (map fst m) then map fst m else map fst m ++ [k].
Proof.
  induction m as [|[k' v'] m IH]; cbn; [reflexivity|].
  destruct (String.eqb_spec k k') as [->|Hn]; cbn; [reflexivity|].
  rewrite IH. destruct (existsb (String.eqb k) (map fst m)); reflexivity.
Qed.

Lemma existsb_eqb_In (k : string) (l : list string) :
  existsb (String.eqb k) l = true <-> In k l.
Proof.
  rewrite existsb_exists. split.
  - intros [x [Hx Hk]]. apply String.eqb_eq in Hk. subst. exact Hx.
  - intros H. exists k. split; [exact H|apply String.eqb_refl].
Qed.

Lemma Map_set_NoDup {V} (k : string) (v : V) (m : list (string * V)) :
  NoDup (map fst m) -> NoDup (map fst (Map_set k v m)).
Proof.
  intros H. rewrite Map_set_keys.
  destruct (existsb (String.eqb k) (map fst m)) eqn:E; [exact H|].
  apply NoDup_app; [exact H|repeat constructor; intros []| ].
  intros x Hx [<-|[]].
  apply existsb_eqb_In in Hx. congruence.
Qed.

Lemma sort_insert_perm {A} (c : A -> A -> num) (x : A) (l : list A) :
  Permutation (sort_insert c x l) (x :: l).
Proof.
  induction l as [|y ys IH]; cbn; [reflexivity|].
  destruct (c x y >? lit 0); [|reflexivity].
  rewrite IH. apply perm_swap.
Qed.

Lemma Array_sort_perm {A} (c : A -> A -> num) (l : list A) :
  Permutation (Array_sort c l) l.
Proof.
  induction l as [|x xs IH]; cbn; [reflexivity|].
  rewrite sort_insert_perm. constructor. exact IH.
Qed.

Lemma Array_set_perm {A} (l : list A) (j : nat) (h y : A) :
  nth_error l j = Some y -> Permutation (y :: Array_set l j h) (h :: l).
Proof.
  revert j. induction l as [|a t IH]; intros [|j] H; cbn in *; try discriminate.
  - inversion H. subst. apply perm_swap.
  - rewrite perm_swap. rewrite (IH j H). apply perm_swap.
Qed.

Lemma Array_swap_perm {A} (l : list A) (i j : nat) :
  Permutation (Array_swap l i j) l.
Proof.
  unfold Array_swap.
  destruct (nth_error l i) as [x|] eqn:Hi; [|reflexivity].
  destruct (nth_error l j) as [y|] eqn:Hj; [|reflexivity].
  revert i j Hi Hj. induction l as [|h t IH]; intros [|i] [|j] Hi Hj; cbn in *;
    try discriminate.
  - inversion Hi; inversion Hj; subst. reflexivity.
  - inversion Hi; subst. apply Array_set_perm. exact Hj.
  - inversion Hj; subst. apply Array_set_perm. exact Hi.
  - constructor. apply IH; assumption.
Qed.

Lemma shuffle_loop_perm {A} (i : nat) (l : list A) (w : World num) :
  exists l' w', shuffle_loop i l w = Some (l', w') /\ Permutation l' l.
Proof.
  revert l w. induction i as [|i IH]; intros l w.
  - exists l, w. split; reflexivity.
  - cbn [shuffle_loop]. unfold bind, Math_random.
    match goal with
    | |- context [shuffle_loop i ?l1 ?w1] =>
        destruct (IH l1 w1) as (l' & w' & Hrun & Hperm)
    end.
    exists l', w'. split; [exact Hrun|].
    rewrite Hperm. apply Array_swap_perm.
Qed.

(** ** selectCalibrationProblems *)

Lemma is_candidate_sound (solvedSlugs : list string) (p : Problem num) :
  is_candidate solvedSlugs p = true -> calibration_candidate solvedSlugs p.
Proof.
  unfold is_candidate, calibration_candidate. intros H.
  apply andb_prop in H. destruct H as [H Hr].
  apply andb_prop in H. destruct H as [Hs Hp].
  apply negb_true_iff in Hs. apply negb_true_iff in Hp.
  repeat split; try assumption.
  destruct (p_rating p) as [r|]; [|discriminate].
  apply andb_prop in Hr. destruct Hr as [Hr Hhi].
  apply andb_prop in Hr. destruct Hr as [_ Hlo].
  exists r. repeat split; assumption.
Qed.

Lemma targetStep_inv (candidates : list (Problem num)) (count : nat)
      (st : list (Problem num) * list string) (targetRating : num) :
  incl (fst st) candidates -> length (fst st) <= count ->
  incl (fst (targetStep candidates count st targetRating)) candidates /\
  length (fst (targetStep candidates count st targetRating)) <= count.
Proof.
  destruct st as [selected used]. cbn [fst]. intros Hin Hlen.
  unfold targetStep.
  destruct (Nat.leb_spec count (length selected)); [split; assumption|].
  destruct (filter (is_nearby targetRating) candidates) as [|n ns] eqn:Hnear;
    [split; assumption|].
  set (pool := match filter (is_preferred used) (n :: ns) with
               | [] => n :: ns
               | _ :: _ => filter (is_preferred used) (n :: ns)
               end).
  assert (Hpool : incl pool candidates).
  { assert (Hn : incl (n :: ns) candidates).
    { rewrite <- Hnear. intros x Hx. apply filter_In in Hx. tauto. }
    subst pool. destruct (filter (is_preferred used) (n :: ns)) eqn:Hpref; [exact Hn|].
    rewrite <- Hpref. intros x Hx. apply filter_In in Hx. apply Hn. tauto. }
  destruct (Array_sort byPopularity pool) as [|chosen rest] eqn:Hsort;
    [split; assumption|].
  cbn [fst]. split.
  - apply incl_app; [exact Hin|].
    intros x [<-|[]]. apply Hpool.
    apply (Permutation_in _ (@Array_sort_perm _ byPopularity pool)).
    rewrite Hsort. left. reflexivity.
  - rewrite length_app. cbn. lia.
Qed.

Lemma targets_inv (candidates : list (Problem num)) (count : nat) (targets : list num)
      (st : list (Problem num) * list string) :
  incl (fst st) candidates -> length (fst st) <= count ->
  incl (fst (fold_left (targetStep candidates count) targets st)) candidates /\
  length (fst (fold_left (targetStep candidates count) targets st)) <= count.
Proof.
  revert st. induction targets as [|t ts IH]; intros st Hin Hlen; cbn.
  - split; assumption.
  - destruct (@targetStep_inv candidates count st t Hin Hlen) as [H1 H2].
    apply IH; assumption.
Qed.

Lemma fill_inv (candidates : list (Problem num)) (count : nat)
      (remaining selected : list (Problem num)) :
  incl remaining candidates -> incl selected candidates -> length selected <= count ->
  incl (fold_left (fillStep count) remaining selected) candidates /\
  length (fold_left (fillStep count) remaining selected) <= count.
Proof.
  revert selected. induction remaining as [|p ps IH]; intros selected Hr Hin Hlen; cbn.
  - split; assumption.
  - apply IH.
    + intros x Hx. apply Hr. right. exact Hx.
    + unfold fillStep. destruct (Nat.leb_spec count (length selected)); [exact Hin|].
      apply incl_app; [exact Hin|]. intros x [<-|[]]. apply Hr. left. reflexivity.
    + unfold fillStep. destruct (Nat.leb_spec count (length selected)); [exact Hlen|].
      rewrite length_app. cbn. lia.
Qed.

(** C5: [selectCalibrationProblems] returns, and every problem it returns
    has a slug outside [solvedSlugs], is not paid and has a rating within
    1100..2300; the list is no longer than [count]. *)
Theorem selectCalibrationProblems_candidates :
  forall (allProblems : list (Problem num)) (count : nat) (solvedSlugs : list string)
         (w : World num),
  exists result w',
    selectCalibrationProblems allProblems count solvedSlugs w = Some (result, w') /\
    length result <= count /\
    Forall (calibration_candidate solvedSlugs) result.
Proof.
  intros allProblems count solvedSlugs w. unfold selectCalibrationProblems.
  set (candidates := filter (is_candidate solvedSlugs) allProblems).
  assert (Hcand : Forall (calibration_candidate solvedSlugs) candidates).
  { apply Forall_forall. intros p Hp. apply filter_In in Hp.
    apply is_candidate_sound. tauto. }
  destruct candidates as [|c0 cs] eqn:Hc.
  { exists [], w. repeat split; [cbn; lia|constructor]. }
  rewrite <- Hc in *. clear Hc c0 cs.
  destruct (@targets_inv candidates count CALIBRATION_TARGET_RATINGS ([], []))
    as [Hin Hlen]; [intros x []|cbn; lia|].
  destruct (fold_left (targetStep candidates count) CALIBRATION_TARGET_RATINGS ([], []))
    as [selected used]. cbn [fst] in Hin, Hlen.
  set (final := if Nat.ltb (length selected) count then _ else selected).
  assert (Hfinal : incl final candidates /\ length final <= count).
  { subst final. destruct (Nat.ltb (length selected) count); [|split; assumption].
    apply fill_inv; try assumption.
    intros x Hx. apply (Permutation_in _ (@Array_sort_perm _ _ _)) in Hx.
    apply filter_In in Hx. tauto. }
  destruct Hfinal as [Hfin Hflen].
  unfold shuffleArray.
  destruct (@shuffle_loop_perm _ (length final - 1) final w) as (result & w' & Hrun & Hperm).
  exists result, w'. split; [exact Hrun|]. split.
  - rewrite (Permutation_length Hperm). exact Hflen.
  - apply Forall_forall. intros p Hp.
    apply (Permutation_in _ Hperm) in Hp. apply Hfin in Hp.
    rewrite Forall_forall in Hcand. apply Hcand. exact Hp.
Qed.


(** ** updateRatingsFromSolve *)

Lemma tagStep_inv (solveRating score : num) (ratings ratings' : UserRatings num)
      (tag : string) (w w' : World num) :
  tagStep solveRating score ratings tag w = Some (ratings', w') ->
  (tag = "Random"%string /\ ratings' = ratings) \/
  (tag <> "Random"%string /\
   exists categoryRating wa wb r',
     updateRating categoryRating solveRating score wa = Some (r', wb) /\
     ratings' = {| global := global ratings;
                   categories := Map_set tag r' (categories ratings) |}).
Proof.
  unfold tagStep. destruct (String.eqb_spec tag "Random") as [->|Hn].
  - intros H. apply ret_Some in H. left. tauto.
  - intros H. right. split; [exact Hn|].
    apply bind_Some in H. destruct H as (cr & wa & _ & H).
    apply bind_Some in H. destruct H as (r' & wb & Hup & H).
    apply ret_Some in H. destruct H as [-> _].
    exists cr, wa, wb, r'. split; [exact Hup|reflexivity].
Qed.

Lemma tags_keep (solveRating score : num) (tags : list string)
      (ratings final : UserRatings num) (w w' : World num) :
  foldM (tagStep solveRating score) tags ratings w = Some (final, w') ->
  global final = global ratings /\
  forall tag, ~ In tag tags ->
    Map_get tag (categories final) = Map_get tag (categories ratings).
Proof.
  revert ratings w. induction tags as [|t ts IH]; intros ratings w H; cbn in H.
  - apply ret_Some in H. destruct H as [-> _]. split; reflexivity.
  - apply bind_Some in H. destruct H as (mid & w1 & Hstep & H).
    destruct (IH _ _ H) as [Hg Hc].
    apply tagStep_inv in Hstep.
    destruct Hstep as [[_ ->]|(Hn & cr & wa & wb & r' & _ & ->)].
    + split; [exact Hg|]. intros tag Hin. apply Hc. intros Hx. apply Hin. right. exact Hx.
    + split; [exact Hg|]. intros tag Hin. rewrite Hc.
      * cbn. apply Map_get_set_other. intros ->. apply Hin. left. reflexivity.
      * intros Hx. apply Hin. right. exact Hx.
Qed.

Lemma tags_updated (solveRating score : num) (tags : list string)
      (ratings final : UserRatings num) (w w' : World num) :
  foldM (tagStep solveRating score) tags ratings w = Some (final, w') ->
  forall tag, In tag tags -> tag <> "Random"%string ->
    exists categoryRating wa wb r',
      updateRating categoryRating solveRating score wa = Some (r', wb) /\
      Map_get tag (categories final) = Some r'.
Proof.
  revert ratings w. induction tags as [|t ts IH]; intros ratings w H tag Hin Hn;
    [destruct Hin|]. cbn in H.
  apply bind_Some in H. destruct H as (mid & w1 & Hstep & H).
  destruct (in_dec string_dec tag ts) as [Hts|Hts].
  - apply (IH _ _ H tag Hts Hn).
  - destruct Hin as [->|Hin]; [|contradiction].
    apply tagStep_inv in Hstep.
    destruct Hstep as [[-> _]|(_ & cr & wa & wb & r' & Hup & ->)]; [congruence|].
    exists cr, wa, wb, r'. split; [exact Hup|].
    destruct (@tags_keep _ _ _ _ _ _ _ H) as [_ Hc]. rewrite (Hc tag Hts).
    cbn. apply Map_get_set_same.
Qed.

Lemma updateRatingsFromSolve_skips (username : string) (solve : Solve num) (w : World num) :
  lacks_rating solve = true -> updateRatingsFromSolve username solve w = Some (tt, w).
Proof. unfold updateRatingsFromSolve. intros ->. reflexivity. Qed.

Lemma updateRatingsFromSolve_applies (username : string) (solve : Solve num)
      (r : num) (w w' : World num) :
  s_rating solve = Some r ->
  lacks_rating solve = false ->
  updateRatingsFromSolve username solve w = Some (tt, w') ->
  exists final,
    Map_get (ratings_key username) (db w') = Some final /\
    (exists ratings0 wa wb,
        (match Map_get (ratings_key username) (db w) with
         | Some x => ret x
         | None => initializeRatings username
         end) w = Some (ratings0, wa) /\
        updateRating (global ratings0) r (outcomeScore solve r) wa
        = Some (global final, wb)) /\
    (forall tag, In tag (s_tags solve) -> tag <> "Random"%string ->
      exists categoryRating wa wb r',
        updateRating categoryRating r (outcomeScore solve r) wa = Some (r', wb) /\
        Map_get tag (categories final) = Some r').
Proof.
  intros Hr Hl H. unfold updateRatingsFromSolve in H. rewrite Hl, Hr in H.
  apply bind_Some in H. destruct H as (st & w1 & Hget & H).
  unfold getRatings in Hget. inversion Hget; subst st w1; clear Hget.
  apply bind_Some in H. destruct H as (ratings0 & wa & Hload & H).
  apply bind_Some in H. destruct H as (g' & wb & Hup & H).
  apply bind_Some in H. destruct H as (final & wc & Htags & H).
  apply bind_Some in H. destruct H as ([] & wd & Hsave & Hev).
  unfold saveRatings in Hsave. inversion Hsave; subst wd; clear Hsave.
  unfold dispatchEvent in Hev. inversion Hev; subst w'; clear Hev.
  exists final. cbn. split; [apply Map_get_set_same|].
  destruct (@tags_keep _ _ _ _ _ _ _ Htags) as [Hg _]. cbn in Hg.
  split.
  - exists ratings0, wa, wb. split; [exact Hload|]. rewrite Hg. exact Hup.
  - intros tag Hin Hn. apply (@tags_updated _ _ _ _ _ _ _ Htags tag Hin Hn).
Qed.


(** ** updateRating *)

Lemma applyTimeDecay_solveCount (r : UserRating num) (now : num) :
  solveCount (applyTimeDecay r now) = solveCount r.
Proof.
  unfold applyTimeDecay. destruct (lastUpdated r) as [t|]; [|reflexivity].
  destruct (truthy t); reflexivity.
Qed.

Lemma updateRating_inv (r r' : UserRating num) (p o : num) (w w' : World num) :
  updateRating r p o w = Some (r', w') ->
  w' = tick (tick w) /\
  solveCount r' = (solveCount r + 1)%nat /\
  lastUpdated r' = Some (clock w (S (ticks w))) /\
  (exists A, volatility r' = Math_exp (A / lit 2)) /\
  (exists newRating newRd,
      rating r' = Math_round (Math_max (lit 800) (Math_min (lit 3500) newRating)) /\
      rd r' = Math_round (Math_max (lit 30) (Math_min (lit 350) newRd))).
Proof.
  unfold updateRating, bind, Date_now, get_fuel, liftO, ret.
  cbn [clock ticks fuel tick].
  volatility_cases; try discriminate;
    intros H; inversion H; cbn; rewrite applyTimeDecay_solveCount;
    (repeat split; [eexists; reflexivity|]);
    eexists; eexists; split; reflexivity.
Qed.

(** ** The volatility loop *)

Lemma bracket_loop_from (f : num -> num) (a : num) (j : nat) :
  forall (n : nat) (k : num),
    (forall j', j' < j ->
       (f (a - Nat.iter j' (fun k => k + lit 1) k * TAU) <? lit 0) = true) ->
    (f (a - Nat.iter j (fun k => k + lit 1) k * TAU) <? lit 0) = false ->
    bracket_loop n f a k =
    if Nat.leb j n then Some (Nat.iter j (fun k => k + lit 1) k) else None.
Proof.
  induction j as [|j IH]; intros n k Hlt Hj.
  - cbn in Hj. destruct n; cbn; rewrite Hj; reflexivity.
  - pose proof (Hlt 0 (Nat.lt_0_succ j)) as H0. cbn in H0.
    assert (Hs : forall i, Nat.iter (S i) (fun k => k + lit 1) k =
                           Nat.iter i (fun k => k + lit 1) (k + lit 1)).
    { intros i. exact (Nat.iter_succ_r i _ (fun k0 => k0 + lit 1) k). }
    destruct n as [|n]; cbn [bracket_loop]; rewrite H0; [reflexivity|].
    rewrite (IH n (k + lit 1)).
    + rewrite Hs. reflexivity.
    + intros j' Hj'. rewrite <- Hs. apply Hlt. lia.
    + rewrite <- Hs. exact Hj.
Qed.

Lemma bracket_loop_ends (f : num -> num) (a : num) :
  forall (n : nat) (k k' : num),
    bracket_loop n f a k = Some k' ->
    exists j, j <= n /\
      (forall j', j' < j ->
         (f (a - Nat.iter j' (fun k => k + lit 1) k * TAU) <? lit 0) = true) /\
      (f (a - Nat.iter j (fun k => k + lit 1) k * TAU) <? lit 0) = false /\
      k' = Nat.iter j (fun k => k + lit 1) k.
Proof.
  induction n as [|n IH]; intros k k' H; cbn [bracket_loop] in H.
  - destruct (f (a - k * TAU) <? lit 0) eqn:E0; [discriminate|].
    inversion H; subst k'. exists 0. split; [lia|]. split; [intros j' Hj'; lia|].
    split; [exact E0|reflexivity].
  - destruct (f (a - k * TAU) <? lit 0) eqn:E0.
    + destruct (IH _ _ H) as (j & Hj & Hlt & Hend & Hk).
      exists (S j). rewrite !Nat.iter_succ_r. split; [lia|]. split.
      * intros [|j'] Hj'; [exact E0|]. rewrite Nat.iter_succ_r. apply Hlt. lia.
      * split; assumption.
    + inversion H; subst k'. exists 0. split; [lia|]. split; [intros j' Hj'; lia|].
      split; [exact E0|reflexivity].
Qed.

Lemma illinois_loop_from (f : num -> num) (i : nat) :
  forall (n : nat) (A B fA fB : num),
    (forall i', i' < i ->
       illinois_test (Nat.iter i' (illinois_step f) (A, B, fA, fB)) = true) ->
    illinois_test (Nat.iter i (illinois_step f) (A, B, fA, fB)) = false ->
    illinois_loop n f A B fA fB =
    if Nat.leb i n
    then Some (illinois_A (Nat.iter i (illinois_step f) (A, B, fA, fB)))
    else None.
Proof.
  induction i as [|i IH]; intros n A B fA fB Hlt Hi.
  - cbn in Hi. destruct n; cbn; rewrite Hi; reflexivity.
  - pose proof (Hlt 0 (Nat.lt_0_succ i)) as H0. cbn in H0.
    destruct n as [|n]; cbn [illinois_loop]; rewrite H0; [reflexivity|].
    assert (Hs : forall m, Nat.iter (S m) (illinois_step f) (A, B, fA, fB) =
                           Nat.iter m (illinois_step f) (illinois_step f (A, B, fA, fB))).
    { intros m. exact (Nat.iter_succ_r m _ (illinois_step f) (A, B, fA, fB)). }
    rewrite Hs in Hi. rewrite Hs.
    assert (Hlt' : forall i', i' < i ->
               illinois_test (Nat.iter i' (illinois_step f)
                                (illinois_step f (A, B, fA, fB))) = true).
    { intros i' Hi'. rewrite <- Hs. apply Hlt. lia. }
    change (Nat.leb (S i) (S n)) with (Nat.leb i n).
    unfold illinois_step at 2 in Hi. unfold illinois_step at 2 in Hlt'.
    unfold illinois_step at 2.
    destruct (f (A + (A - B) * fA / (fB - fA)) * fB <? lit 0);
      apply IH; assumption.
Qed.

Lemma illinois_loop_ends (f : num -> num) :
  forall (n : nat) (A B fA fB A' : num),
    illinois_loop n f A B fA fB = Some A' ->
    exists i, i <= n /\
      (forall i', i' < i ->
         illinois_test (Nat.iter i' (illinois_step f) (A, B, fA, fB)) = true) /\
      illinois_test (Nat.iter i (illinois_step f) (A, B, fA, fB)) = false /\
      A' = illinois_A (Nat.iter i (illinois_step f) (A, B, fA, fB)).
Proof.
  assert (Hstop : forall A B fA fB A',
             (Math_abs (B - A) >? EPSILON) = false -> Some A = Some A' ->
             exists i, i <= 0 /\
               (forall i', i' < i ->
                  illinois_test (Nat.iter i' (illinois_step f) (A, B, fA, fB)) = true) /\
               illinois_test (Nat.iter i (illinois_step f) (A, B, fA, fB)) = false /\
               A' = illinois_A (Nat.iter i (illinois_step f) (A, B, fA, fB))).
  { intros A B fA fB A' E0 H. inversion H; subst A'. exists 0. split; [lia|].
    split; [intros i' Hi'; lia|]. split; [exact E0|reflexivity]. }
  induction n as [|n IH]; intros A B fA fB A' H; cbn [illinois_loop] in H.
  - destruct (Math_abs (B - A) >? EPSILON) eqn:E0; [discriminate|].
    apply Hstop; assumption.
  - destruct (Math_abs (B - A) >? EPSILON) eqn:E0.
    + assert (Hnext : exists s, illinois_step f (A, B, fA, fB) = s /\
                 illinois_loop n f (fst (fst (fst s))) (snd (fst (fst s)))
                   (snd (fst s)) (snd s) = Some A').
      { eexists. split; [reflexivity|]. unfold illinois_step.
        destruct (f (A + (A - B) * fA / (fB - fA)) * fB <? lit 0); exact H. }
      destruct Hnext as ([[[A1 B1] fA1] fB1] & Hs & Hrun). cbn in Hrun.
      destruct (IH _ _ _ _ _ Hrun) as (i & Hi & Hlt & Hend & HA).
      exists (S i). rewrite !Nat.iter_succ_r, Hs. split; [lia|]. split.
      * intros [|i'] Hi'; [exact E0|]. rewrite Nat.iter_succ_r, Hs. apply Hlt. lia.
      * split; assumption.
    + destruct (Hstop A B fA fB A' E0 H) as (i & Hi & Hrest).
      exists i. split; [lia|exact Hrest].
Qed.

(** [updateRating] in terms of its two loops. *)
Lemma updateRating_loops (r : UserRating num) (p o : num) (w : World num) :
  let vs := volatilityStep (applyTimeDecay r (clock w (ticks w))) p o in
  forall (k : option num),
    k = match vs_B vs with
        | Some _ => Some (lit 1)
        | None => bracket_loop (fuel w) (vs_f vs) (vs_a vs) (lit 1)
        end ->
    match k with
    | None => updateRating r p o w = None
    | Some k =>
        let B := match vs_B vs with Some B => B | None => vs_a vs - k * TAU end in
        match illinois_loop (fuel w) (vs_f vs) (vs_a vs) B (vs_f vs (vs_a vs)) (vs_f vs B) with
        | None => updateRating r p o w = None
        | Some A =>
            exists r', updateRating r p o w = Some (r', tick (tick w)) /\
                       volatility r' = Math_exp (A / lit 2)
        end
    end.
Proof.
  intros vs k Hk. subst k. subst vs.
  unfold updateRating, volatilityStep, bind, Date_now, get_fuel, liftO, ret.
  cbn [clock ticks fuel tick vs_a vs_f vs_B].
  match goal with |- context [if ?c then Some _ else None] => destruct c end;
    cbn [fuel].
  - match goal with
    | |- context [illinois_loop ?a ?b ?c ?d ?e ?f] => destruct (illinois_loop a b c d e f)
    end; [eexists; split; reflexivity|reflexivity].
  - match goal with
    | |- context [bracket_loop ?a ?b ?c ?d] => destruct (bracket_loop a b c d)
    end; [|reflexivity].
    match goal with
    | |- context [illinois_loop ?a ?b ?c ?d ?e ?f] => destruct (illinois_loop a b c d e f)
    end; [eexists; split; reflexivity|reflexivity].
Qed.


(** ** Tie replay *)

Lemma fold_left_preserves {A B} (P : A -> Prop) (f : A -> B -> A) (l : list B) (a : A) :
  (forall a b, P a -> P (f a b)) -> P a -> P (fold_left f l a).
Proof.
  intros Hf. revert a. induction l as [|b l IH]; intros a Ha; cbn; [exact Ha|].
  apply IH. apply Hf. exact Ha.
Qed.

Lemma groupSolvesByCategory_NoDup (solves : list (Solve num))
      (problems : list (string * Problem num)) :
  NoDup (map fst (groupSolvesByCategory solves problems)).
Proof.
  unfold groupSolvesByCategory.
  apply fold_left_preserves with (P := fun m => NoDup (map fst m)); [|constructor].
  intros m solve Hm.
  destruct (negb (String.eqb (s_status solve) "Accepted")); [exact Hm|].
  destruct (Map_get (s_slug solve) problems) as [problem|]; [|exact Hm].
  destruct (usable_rating (Some problem)); [|exact Hm].
  apply fold_left_preserves with (P := fun m => NoDup (map fst m)); [|exact Hm].
  intros m' tag Hm'. destruct (String.eqb tag "Random"); [exact Hm'|].
  unfold Map_push. destruct (Map_get tag m'); apply Map_set_NoDup; exact Hm'.
Qed.

Lemma initializeRating_run (w : World num) :
  initializeRating w =
  Some ({| rating := DEFAULT_RATING; rd := DEFAULT_RD; volatility := DEFAULT_VOLATILITY;
           lastUpdated := Some (clock w (ticks w)); solveCount := 0 |}, tick w).
Proof. reflexivity. Qed.

Lemma replay_count (problems : list (string * Problem num)) (solves : list (Solve num))
      (r0 r : UserRating num) (w w' : World num) :
  foldM
    (fun rating solve =>
       if negb (String.eqb (s_status solve) "Accepted") then ret rating
       else match usable_rating (Map_get (s_slug solve) problems) with
            | None => ret rating
            | Some x => updateRating rating x (lit (5 # 10))
            end)
    solves r0 w = Some (r, w') ->
  solveCount r = (solveCount r0 + length (filter (replayed problems) solves))%nat.
Proof.
  revert r0 w. induction solves as [|s ss IH]; intros r0 w H; cbn in H.
  - apply ret_Some in H. destruct H as [-> _]. cbn. lia.
  - apply bind_Some in H. destruct H as (r1 & w1 & Hstep & H).
    apply IH in H. rewrite H. cbn [filter]. unfold replayed at 2.
    destruct (String.eqb (s_status s) "Accepted"); cbn in Hstep |- *.
    + destruct (usable_rating (Map_get (s_slug s) problems)).
      * apply updateRating_inv in Hstep. destruct Hstep as (_ & Hc & _). rewrite Hc.
        cbn. lia.
      * apply ret_Some in Hstep. destruct Hstep as [-> _]. lia.
    + apply ret_Some in Hstep. destruct Hstep as [-> _]. lia.
Qed.

(** A run of [processHistoricalSolves] calls [updateRating] once for every
    replayed solve: the result counts them. *)
Lemma processHistoricalSolves_count (initialRating : num) (solves : list (Solve num))
      (problems : list (string * Problem num)) (r : UserRating num) (w w' : World num) :
  processHistoricalSolves initialRating solves problems w = Some (r, w') ->
  solveCount r = length (filter (replayed problems) solves).
Proof.
  unfold processHistoricalSolves. intros H.
  apply bind_Some in H. destruct H as (r0 & w1 & Hinit & H).
  rewrite initializeRating_run in Hinit. inversion Hinit; subst r0 w1; clear Hinit.
  apply replay_count in H. rewrite H. cbn.
  apply Permutation_length.
  clear H. set (srt := Array_sort _ solves).
  assert (Hp : Permutation srt solves) by apply Array_sort_perm.
  clearbody srt. induction Hp; cbn.
  - reflexivity.
  - destruct (replayed problems x); [constructor|]; exact IHHp.
  - destruct (replayed problems x), (replayed problems y);
      try reflexivity. apply perm_swap.
  - etransitivity; eassumption.
Qed.

Lemma categoryStep_inv (initialEstimate : num) (problems : list (string * Problem num))
      (acc acc' : list (string * UserRating num)) (category : string)
      (categorySolves : list (Solve num)) (w w' : World num) :
  categoryStep initialEstimate problems acc (category, categorySolves) w = Some (acc', w') ->
  (forall k, k <> category -> Map_get k acc' = Map_get k acc) /\
  (1 <= length (categoryRatingValues categorySolves problems) <= 2 ->
   exists r,
     processHistoricalSolves
       (Math_max (lit 800)
          (Math_min (lit 3000)
             (initialEstimate + (random w (draws w) - lit (5 # 10)) * lit 100)))
       categorySolves problems (drawn w) = Some (r, w') /\
     Map_get category acc' = Some r).
Proof.
  unfold categoryStep.
  destruct (Nat.leb_spec 3 (length (categoryRatingValues categorySolves problems))) as [H3|H3].
  - intros H. apply bind_Some in H. destruct H as (r & w1 & _ & H).
    apply ret_Some in H. destruct H as [-> _]. split; [|lia].
    intros k Hk. apply Map_get_set_other. exact Hk.
  - destruct (Nat.ltb_spec 0 (length (categoryRatingValues categorySolves problems))) as [H0|H0].
    + intros H. apply bind_Some in H. destruct H as (u & w1 & Hu & H).
      unfold Math_random in Hu. inversion Hu; subst u w1; clear Hu.
      apply bind_Some in H. destruct H as (r & w2 & Hrun & H).
      apply ret_Some in H. destruct H as [-> ->]. split.
      * intros k Hk. apply Map_get_set_other. exact Hk.
      * intros _. exists r. split; [exact Hrun|apply Map_get_set_same].
    + intros H. apply ret_Some in H. destruct H as [-> _]. split; [reflexivity|lia].
Qed.

Lemma categories_keep (initialEstimate : num) (problems : list (string * Problem num))
      (groups : list (string * list (Solve num)))
      (acc final : list (string * UserRating num)) (w w' : World num) :
  foldM (categoryStep initialEstimate problems) groups acc w = Some (final, w') ->
  forall k, ~ In k (map fst groups) -> Map_get k final = Map_get k acc.
Proof.
  revert acc w. induction groups as [|[c cs] gs IH]; intros acc w H k Hk; cbn in H.
  - apply ret_Some in H. destruct H as [-> _]. reflexivity.
  - apply bind_Some in H. destruct H as (mid & w1 & Hstep & H).
    rewrite (IH _ _ H k); [|intros Hx; apply Hk; right; exact Hx].
    apply categoryStep_inv in Hstep. destruct Hstep as [Hkeep _].
    apply Hkeep. intros ->. apply Hk. left. reflexivity.
Qed.

End ProgramFacts.

(* ================================================================== *)
(** * Facts about binary64 comparison *)
(* ================================================================== *)

Module F64Facts.
Open Scope float_scope.

Lemma compare_cont_Eq_antisym (p q : positive) :
  Pos.compare_cont Eq q p = CompOpp (Pos.compare_cont Eq p q).
Proof. rewrite (Pos.compare_cont_antisym p q Eq). reflexivity. Qed.

Lemma SFcompare_antisym (x y : spec_float) :
  SFcompare y x = option_map CompOpp (SFcompare x y).
Proof.
  destruct x as [sx|sx| |sx mx ex], y as [sy|sy| |sy my ey]; cbn;
    try reflexivity; try (destruct sx; reflexivity); try (destruct sy; reflexivity);
    try (destruct sx, sy; reflexivity).
  destruct sx, sy; try reflexivity; rewrite (Z.compare_antisym ex ey);
    destruct (ex ?= ey)%Z; cbn; try reflexivity;
    change PosDef.Pos.compare_cont with Pos.compare_cont;
    rewrite (compare_cont_Eq_antisym mx my); try rewrite CompOpp_involutive; reflexivity.
Qed.

Lemma ltb_leb_false (x y : float) : (x <? y) = true -> (y <=? x) = false.
Proof.
  rewrite FloatAxioms.ltb_spec, FloatAxioms.leb_spec. unfold SFltb, SFleb.
  rewrite (SFcompare_antisym (Prim2SF x) (Prim2SF y)).
  destruct (SFcompare (Prim2SF x) (Prim2SF y)) as [[]|]; cbn; congruence.
Qed.

Lemma SFltb_above (m1 m2 : positive) (e1 e2 : Z) (x : spec_float) :
  (e1 < e2)%Z ->
  SFltb (S754_finite false m2 e2) x = true ->
  SFleb x (S754_finite false m1 e1) = false.
Proof.
  intros He. unfold SFltb, SFleb.
  destruct x as [s|s| |s m e]; cbn; try congruence.
  - destruct s; congruence.
  - destruct s; try congruence.
    destruct (Z.compare_spec e2 e); destruct (Z.compare_spec e e1);
      try congruence; try lia.
Qed.

(** Above 2 is above 1. *)
Lemma above_2_not_below_1 (x : float) : (2 <? x) = true -> (x <=? 1) = false.
Proof.
  rewrite FloatAxioms.ltb_spec, FloatAxioms.leb_spec.
  replace (Prim2SF 2) with (S754_finite false 4503599627370496 (-51)) by reflexivity.
  replace (Prim2SF 1) with (S754_finite false 4503599627370496 (-52)) by reflexivity.
  apply SFltb_above. lia.
Qed.

Lemma positive_truthy (x : float) : (0 <? x) = true -> F64.truthy x = true.
Proof.
  unfold F64.truthy, is_nan, PrimFloat.is_zero.
  rewrite FloatAxioms.ltb_spec, !FloatAxioms.eqb_spec. unfold SFltb, SFeqb.
  replace (Prim2SF 0) with (S754_zero false) by reflexivity.
  destruct (Prim2SF x) as [s|s| |s m e]; cbn; try congruence.
  - destruct s; cbn; congruence.
  - destruct s; try congruence. rewrite Z.compare_refl.
    change PosDef.Pos.compare_cont with Pos.compare_cont.
    rewrite Pos.compare_cont_refl. reflexivity.
Qed.

Lemma not_positive_falsy_or_le (x : float) :
  (0 <? x) = false -> negb (F64.truthy x) || (x <=? 0) = true.
Proof.
  unfold F64.truthy, is_nan, PrimFloat.is_zero.
  rewrite FloatAxioms.ltb_spec, FloatAxioms.leb_spec, !FloatAxioms.eqb_spec. unfold SFltb, SFleb, SFeqb.
  replace (Prim2SF 0) with (S754_zero false) by reflexivity.
  destruct (Prim2SF x) as [s|s| |s m e]; cbn; try congruence; try reflexivity.
  - destruct s; cbn; congruence.
  - destruct s; try congruence. intros _. rewrite Z.compare_refl.
    change PosDef.Pos.compare_cont with Pos.compare_cont.
    rewrite Pos.compare_cont_refl. reflexivity.
Qed.

Lemma positive_not_le (x : float) : (0 <? x) = true -> (x <=? 0) = false.
Proof. apply ltb_leb_false. Qed.


Lemma calculatePartialCredit_float (t L : float) (completed : bool) :
  calculatePartialCredit t L completed =
  if negb completed then 0
  else if t / L <=? 1 then 1
       else if t / L <=? 2 then 1 - (t / L - 1) * 0.7
            else 0.
Proof. reflexivity. Qed.

End F64Facts.


(** ** The clamp and [Math.round] *)

Module F64Range.
Open Scope float_scope.

Lemma digits2_pos_bounds (m : positive) :
  (2 ^ (Z.pos (digits2_pos m) - 1) <= Z.pos m < 2 ^ Z.pos (digits2_pos m))%Z.
Proof.
  induction m as [m IH|m IH|]; cbn [digits2_pos].
  - rewrite Pos2Z.inj_succ. replace (Z.succ (Z.pos (digits2_pos m)) - 1)%Z
      with (Z.succ (Z.pos (digits2_pos m) - 1)) by lia.
    rewrite !Z.pow_succ_r by lia. lia.
  - rewrite Pos2Z.inj_succ. replace (Z.succ (Z.pos (digits2_pos m)) - 1)%Z
      with (Z.succ (Z.pos (digits2_pos m) - 1)) by lia.
    rewrite !Z.pow_succ_r by lia. lia.
  - cbn. lia.
Qed.

(** The mantissa of a valid number with an exponent above the subnormal
    range has 53 bits. *)
Lemma valid_mantissa (s : bool) (m : positive) (e : Z) :
  valid_binary (S754_finite s m e) = true -> (-1074 < e)%Z ->
  (2 ^ 52 <= Z.pos m < 2 ^ 53)%Z.
Proof.
  intros H He. unfold SpecFloat.valid_binary, bounded, canonical_mantissa in H.
  apply andb_prop in H. destruct H as [H _]. apply Z.eqb_eq in H.
  unfold fexp in H.
  change (SpecFloat.emin prec emax) with (-1074)%Z in H.
  change prec with 53%Z in H.
  change IntDef.Z.max with Z.max in H.
  pose proof (digits2_pos_bounds m) as Hd.
  assert (Hdig : Z.pos (digits2_pos m) = 53%Z) by lia.
  rewrite Hdig in Hd. exact Hd.
Qed.

Lemma compare_cont_Eq (p q : positive) :
  PosDef.Pos.compare_cont Eq p q = (Z.pos p ?= Z.pos q)%Z.
Proof. reflexivity. Qed.

Lemma SFleb_finite_pos (m1 m2 : positive) (e1 e2 : Z) :
  SFleb (S754_finite false m1 e1) (S754_finite false m2 e2) = true ->
  (e1 < e2 \/ (e1 = e2 /\ Z.pos m1 <= Z.pos m2))%Z.
Proof.
  unfold SFleb. cbn. rewrite compare_cont_Eq.
  destruct (Z.compare_spec e1 e2); [|intros _; left; assumption|discriminate].
  destruct (Z.compare_spec (Z.pos m1) (Z.pos m2)); try discriminate; intros _; right; lia.
Qed.

(** Rounding a value between the integers [a] and [b] stays between them:
    on mantissas of 53 bits and negative exponents. *)
Lemma round_between (ma mb m : positive) (ea eb e a b : Z) :
  (2 ^ 52 <= Z.pos ma < 2 ^ 53)%Z -> (2 ^ 52 <= Z.pos mb < 2 ^ 53)%Z ->
  (2 ^ 52 <= Z.pos m < 2 ^ 53)%Z ->
  (ea < 0)%Z -> (eb < 0)%Z -> (0 <= a)%Z ->
  Z.pos ma = (a * 2 ^ (- ea))%Z -> Z.pos mb = (b * 2 ^ (- eb))%Z ->
  SFleb (S754_finite false ma ea) (S754_finite false m e) = true ->
  SFleb (S754_finite false m e) (S754_finite false mb eb) = true ->
  (e < 0 /\ a <= (2 * Z.pos m + 2 ^ (- e)) / 2 ^ (- e + 1) <= b)%Z.
Proof.
  intros Hma Hmb Hm Hea Heb Ha Hva Hvb Hlo Hhi.
  apply SFleb_finite_pos in Hlo. apply SFleb_finite_pos in Hhi.
  assert (He : (e < 0)%Z) by lia. split; [exact He|].
  set (P := (2 ^ (- e))%Z).
  assert (HP : (0 < P)%Z) by (apply Z.pow_pos_nonneg; lia).
  replace (2 ^ (- e + 1))%Z with (2 * P)%Z
    by (unfold P; rewrite Z.pow_add_r by lia; lia).
  assert (Hlow : (a * P <= Z.pos m)%Z).
  { destruct Hlo as [Hlt|[Heq Hle]].
    - assert (HQ : (2 ^ (- ea) = P * 2 ^ (e - ea))%Z).
      { unfold P. rewrite <- Z.pow_add_r by lia. f_equal. lia. }
      assert (H2 : (2 <= 2 ^ (e - ea))%Z).
      { change 2%Z with (2 ^ 1)%Z at 1. apply Z.pow_le_mono_r; lia. }
      rewrite HQ in Hva. nia.
    - subst ea. fold P in Hva. lia. }
  assert (Hupp : (Z.pos m <= b * P)%Z).
  { destruct Hhi as [Hlt|[Heq Hle]].
    - assert (HQ : (P = 2 ^ (- eb) * 2 ^ (eb - e))%Z).
      { unfold P. rewrite <- Z.pow_add_r by lia. f_equal. lia. }
      assert (H2 : (2 <= 2 ^ (eb - e))%Z).
      { change 2%Z with (2 ^ 1)%Z at 1. apply Z.pow_le_mono_r; lia. }
      assert (0 < 2 ^ (- eb))%Z by (apply Z.pow_pos_nonneg; lia).
      rewrite HQ. nia.
    - subst eb. fold P in Hvb. lia. }
  split.
  - apply Z.div_le_lower_bound; [lia|]. nia.
  - assert ((2 * Z.pos m + P) / (2 * P) < b + 1)%Z; [|lia].
    apply Z.div_lt_upper_bound; [lia|]. nia.
Qed.


Lemma SFcompare_None (a b : spec_float) :
  SFcompare a b = None -> a = S754_nan \/ b = S754_nan.
Proof.
  destruct a as [sa|sa| |sa ma ea], b as [sb|sb| |sb mb eb]; cbn;
    intros H; try discriminate; auto.
Qed.

Lemma is_nan_spec (x : float) : is_nan x = false -> Prim2SF x <> S754_nan.
Proof.
  unfold is_nan. rewrite FloatAxioms.eqb_spec. intros H Hx. rewrite Hx in H.
  cbn in H. discriminate.
Qed.

(** Two numbers that are not NaN compare one of three ways. *)
Lemma cmp_cases (a x : float) :
  is_nan a = false -> is_nan x = false ->
  ((a <? x) = true /\ (a =? x) = false /\ (a <=? x) = true /\ (x <=? a) = false) \/
  ((a <? x) = false /\ (a =? x) = true /\ (a <=? x) = true /\ (x <=? a) = true) \/
  ((a <? x) = false /\ (a =? x) = false /\ (a <=? x) = false /\ (x <=? a) = true).
Proof.
  intros Ha Hx. apply is_nan_spec in Ha. apply is_nan_spec in Hx.
  rewrite FloatAxioms.ltb_spec, FloatAxioms.eqb_spec, !FloatAxioms.leb_spec.
  unfold SFltb, SFeqb, SFleb.
  rewrite (F64Facts.SFcompare_antisym (Prim2SF a) (Prim2SF x)).
  destruct (SFcompare (Prim2SF a) (Prim2SF x)) as [[]|] eqn:Hc; cbn.
  - right. left. repeat split.
  - left. repeat split.
  - right. right. repeat split.
  - apply SFcompare_None in Hc. tauto.
Qed.

Lemma leb_refl (a : float) : is_nan a = false -> (a <=? a) = true.
Proof.
  intros Ha. destruct (@cmp_cases a a Ha Ha) as [H|[H|H]];
    destruct H as (_ & _ & H1 & H2); congruence.
Qed.

Lemma min_below (hi x : float) :
  is_nan hi = false -> is_nan x = false ->
  is_nan (F64.min hi x) = false /\ (F64.min hi x <=? hi) = true.
Proof.
  intros Hh Hx. unfold F64.min. rewrite Hh, Hx. cbn [orb].
  destruct (@cmp_cases hi x Hh Hx) as [H|[H|H]]; destruct H as (Hlt & Heq & Hle & Hge);
    rewrite Heq, ?Hlt.
  - split; [exact Hh|apply leb_refl; exact Hh].
  - destruct (get_sign hi); split; try assumption. apply leb_refl; exact Hh.
  - split; assumption.
Qed.

Lemma max_between (lo hi x : float) :
  is_nan lo = false -> is_nan x = false ->
  (lo <=? hi) = true -> (x <=? hi) = true ->
  (lo <=? F64.max lo x) = true /\ (F64.max lo x <=? hi) = true.
Proof.
  intros Hl Hx Hlh Hxh. unfold F64.max. rewrite Hl, Hx. cbn [orb].
  destruct (@cmp_cases lo x Hl Hx) as [H|[H|H]]; destruct H as (Hlt & Heq & Hle & Hge);
    rewrite Heq, ?Hlt.
  - split; assumption.
  - destruct (get_sign lo); split; try assumption. apply leb_refl; exact Hl.
  - split; [apply leb_refl; exact Hl|exact Hlh].
Qed.

(** [Math.round] keeps a number between two positive integers between
    them.  The integers are given with their mantissas and exponents. *)
Lemma round_in_range (lo hi x : float) (a b : Z) (ma mb : positive) (ea eb : Z) :
  Prim2SF lo = S754_finite false ma ea -> Prim2SF hi = S754_finite false mb eb ->
  (2 ^ 52 <= Z.pos ma < 2 ^ 53)%Z -> (2 ^ 52 <= Z.pos mb < 2 ^ 53)%Z ->
  (-1074 < ea < 0)%Z -> (eb < 0)%Z -> (0 < a)%Z ->
  Z.pos ma = (a * 2 ^ (- ea))%Z -> Z.pos mb = (b * 2 ^ (- eb))%Z ->
  (forall z, (a <= z <= b)%Z ->
             (lo <=? F64.of_Z z) = true /\ (F64.of_Z z <=? hi) = true) ->
  (lo <=? x) = true -> (x <=? hi) = true ->
  (lo <=? F64.round x) = true /\ (F64.round x <=? hi) = true.
Proof.
  intros Hlo Hhi Hma Hmb Hea Heb Ha Hva Hvb Hof Hlx Hxh.
  pose proof (Prim2SF_valid x) as Hv.
  rewrite FloatAxioms.leb_spec, Hlo in Hlx. rewrite FloatAxioms.leb_spec, Hhi in Hxh.
  unfold F64.round.
  destruct (Prim2SF x) as [s|s| |s m e] eqn:Hx.
  - cbn in Hlx. discriminate.
  - destruct s; cbn in Hlx, Hxh; discriminate.
  - cbn in Hlx. discriminate.
  - destruct s; [cbn in Hlx; discriminate|].
    assert (He : (-1074 < e)%Z).
    { apply SFleb_finite_pos in Hlx. lia. }
    pose proof (@valid_mantissa false m e Hv He) as Hm.
    destruct (@round_between ma mb m ea eb e a b) as (He0 & Hz); try assumption; try lia.
    destruct (Z.leb_spec 0 e); [lia|].
    unfold F64.signed_zero.
    destruct (Z.eqb_spec ((2 * Z.pos m + 2 ^ (- e)) / 2 ^ (- e + 1)) 0); [lia|].
    apply Hof. exact Hz.
Qed.

Lemma in_range_list (a b z : Z) :
  (a <= z <= b)%Z -> (0 <= a)%Z ->
  In z (map Z.of_nat (seq (Z.to_nat a) (Z.to_nat (b - a + 1)))).
Proof.
  intros Hz Ha. apply in_map_iff. exists (Z.to_nat z). split; [lia|].
  apply in_seq. lia.
Qed.

Lemma of_Z_rating_range (z : Z) :
  (800 <= z <= 3500)%Z -> (800 <=? F64.of_Z z) = true /\ (F64.of_Z z <=? 3500) = true.
Proof.
  intros Hz.
  assert (H : forallb (fun z => (800 <=? F64.of_Z z) && (F64.of_Z z <=? 3500))
                (map Z.of_nat (seq (Z.to_nat 800) (Z.to_nat (3500 - 800 + 1)))) = true)
    by (vm_compute; reflexivity).
  rewrite forallb_forall in H. apply andb_prop. apply H.
  apply in_range_list; lia.
Qed.

Lemma of_Z_rd_range (z : Z) :
  (30 <= z <= 350)%Z -> (30 <=? F64.of_Z z) = true /\ (F64.of_Z z <=? 350) = true.
Proof.
  intros Hz.
  assert (H : forallb (fun z => (30 <=? F64.of_Z z) && (F64.of_Z z <=? 350))
                (map Z.of_nat (seq (Z.to_nat 30) (Z.to_nat (350 - 30 + 1)))) = true)
    by (vm_compute; reflexivity).
  rewrite forallb_forall in H. apply andb_prop. apply H.
  apply in_range_list; lia.
Qed.

(** The clamp of the rating: a number that is not NaN ends in [800, 3500]. *)
Lemma clamp_rating (x : float) :
  is_nan x = false ->
  (800 <=? F64.round (F64.max 800 (F64.min 3500 x))) = true /\
  (F64.round (F64.max 800 (F64.min 3500 x)) <=? 3500) = true.
Proof.
  intros Hx.
  destruct (@min_below 3500 x eq_refl Hx) as [Hn Hle].
  destruct (@max_between 800 3500 (F64.min 3500 x) eq_refl Hn eq_refl Hle) as [H1 H2].
  apply (@round_in_range 800 3500 _ 800 3500 7036874417766400 7696581394432000 (-43) (-41));
    try reflexivity; try lia; try assumption.
  apply of_Z_rating_range.
Qed.

(** The clamp of the deviation: a number that is not NaN ends in [30, 350]. *)
Lemma clamp_rd (x : float) :
  is_nan x = false ->
  (30 <=? F64.round (F64.max 30 (F64.min 350 x))) = true /\
  (F64.round (F64.max 30 (F64.min 350 x)) <=? 350) = true.
Proof.
  intros Hx.
  destruct (@min_below 350 x eq_refl Hx) as [Hn Hle].
  destruct (@max_between 30 350 (F64.min 350 x) eq_refl Hn eq_refl Hle) as [H1 H2].
  apply (@round_in_range 30 350 _ 30 350 8444249301319680 6157265115545600 (-48) (-44));
    try reflexivity; try lia; try assumption.
  apply of_Z_rd_range.
Qed.

(** NaN passes through the clamp. *)
Lemma clamp_nan (lo hi x : float) :
  is_nan x = true -> is_nan (F64.round (F64.max lo (F64.min hi x))) = true.
Proof.
  intros Hx. unfold F64.min. rewrite Hx, orb_true_r.
  unfold F64.max. change (is_nan nan) with true. rewrite orb_true_r. reflexivity.
Qed.

End F64Range.

(* ================================================================== *)
(** * Binary64 arithmetic: rounding and order *)
(* ================================================================== *)

(** The operations of binary64 round the exact result to the nearest
    representable number, ties to even ([binary_round_aux] of the standard
    library's specification of the primitive floats).  This part relates
    that rounding to the real numbers and derives that division and
    multiplication by a positive number, addition, the square root,
    [Math.min] and [Math.round] keep the order of numbers that are zero or
    above. *)

(** ** Rounding to nearest even *)

Module F64Round.
Import F64Value.
Open Scope R_scope.

Lemma bpow_pos (e : Z) : 0 < bpow e.
Proof. apply powerRZ_lt. lra. Qed.

Lemma bpow_add (a b : Z) : bpow (a + b) = bpow a * bpow b.
Proof. apply powerRZ_add. lra. Qed.

Lemma bpow_0 : bpow 0 = 1.
Proof. reflexivity. Qed.

Lemma bpow_1 : bpow 1 = 2.
Proof. unfold bpow. rewrite powerRZ_1. reflexivity. Qed.

Lemma bpow_opp (e : Z) : bpow (- e) = / bpow e.
Proof. apply powerRZ_neg'. Qed.

Lemma bpow_IZR (k : Z) : (0 <= k)%Z -> bpow k = IZR (2 ^ k).
Proof.
  intros Hk. unfold bpow. rewrite <- (Z2Nat.id k Hk).
  rewrite <- pow_powerRZ, pow_IZR. reflexivity.
Qed.

Lemma bpow_le (a b : Z) : (a <= b)%Z -> bpow a <= bpow b.
Proof.
  intros H. replace b with (a + (b - a))%Z by lia. rewrite bpow_add.
  rewrite (@bpow_IZR (b - a)%Z) by lia.
  assert (1 <= IZR (2 ^ (b - a))).
  { apply IZR_le. assert (0 < 2 ^ (b - a))%Z by (apply Z.pow_pos_nonneg; lia). lia. }
  pose proof (bpow_pos a). nra.
Qed.

Lemma bpow_lt (a b : Z) : (a < b)%Z -> bpow a < bpow b.
Proof.
  intros H. apply Rlt_le_trans with (bpow (a + 1)).
  - rewrite bpow_add, bpow_1. pose proof (bpow_pos a). lra.
  - apply bpow_le. lia.
Qed.

Lemma bpow_cancel (e : Z) : bpow e * bpow (- e) = 1.
Proof. rewrite <- bpow_add. replace (e + - e)%Z with 0%Z by lia. reflexivity. Qed.

(** ** Shifting a rounding position to the right *)

Lemma shr_1_step (mrs : shr_record) (y : R) :
  (0 <= shr_m mrs)%Z ->
  pos_in (shr_m mrs) (loc_of_shr_record mrs) y ->
  pos_in (shr_m (shr_1 mrs)) (loc_of_shr_record (shr_1 mrs)) (y / 2) /\
  shr_m (shr_1 mrs) = (shr_m mrs / 2)%Z.
Proof.
  destruct mrs as [m r s]. cbn [shr_m]. intros Hm H.
  destruct m as [|p|p]; [| |lia].
  - destruct r, s; cbn [pos_in loc_of_shr_record shr_1 shr_m orb] in H |- *;
      split; try reflexivity; lra.
  - destruct p as [p|p|].
    + assert (Hp : IZR (Z.pos p~1) = 2 * IZR (Z.pos p) + 1).
      { rewrite Pos2Z.inj_xI, plus_IZR, mult_IZR. reflexivity. }
      assert (Hd : (Z.pos p~1 / 2)%Z = Z.pos p)
        by (symmetry; apply Z.div_unique with 1%Z; lia).
      destruct r, s; cbn [pos_in loc_of_shr_record shr_1 shr_m orb] in H |- *;
        rewrite Hp in H; split; try exact (eq_sym Hd); lra.
    + assert (Hp : IZR (Z.pos p~0) = 2 * IZR (Z.pos p)).
      { rewrite Pos2Z.inj_xO, mult_IZR. reflexivity. }
      assert (Hd : (Z.pos p~0 / 2)%Z = Z.pos p)
        by (symmetry; apply Z.div_unique with 0%Z; lia).
      destruct r, s; cbn [pos_in loc_of_shr_record shr_1 shr_m orb] in H |- *;
        rewrite Hp in H; split; try exact (eq_sym Hd); lra.
    + destruct r, s; cbn [pos_in loc_of_shr_record shr_1 shr_m orb] in H |- *;
      split; try reflexivity; lra.
Qed.

Lemma iter_pos_nat {A} (f : A -> A) (p : positive) (x : A) :
  SpecFloat.iter_pos f p x = Nat.iter (Pos.to_nat p) f x.
Proof.
  revert x. induction p as [p IH|p IH|]; intros x; cbn [SpecFloat.iter_pos].
  - rewrite !IH, Pos2Nat.inj_xI.
    replace (S (2 * Pos.to_nat p)) with (Pos.to_nat p + Pos.to_nat p + 1)%nat by lia.
    rewrite !Nat.iter_add. reflexivity.
  - rewrite !IH, Pos2Nat.inj_xO.
    replace (2 * Pos.to_nat p)%nat with (Pos.to_nat p + Pos.to_nat p)%nat by lia.
    rewrite Nat.iter_add. reflexivity.
  - reflexivity.
Qed.

Lemma shr_iter (n : nat) (mrs : shr_record) (y : R) :
  (0 <= shr_m mrs)%Z ->
  pos_in (shr_m mrs) (loc_of_shr_record mrs) y ->
  pos_in (shr_m (Nat.iter n shr_1 mrs)) (loc_of_shr_record (Nat.iter n shr_1 mrs))
    (y * bpow (- Z.of_nat n)) /\
  shr_m (Nat.iter n shr_1 mrs) = (shr_m mrs / 2 ^ Z.of_nat n)%Z.
Proof.
  intros Hm H. induction n as [|n IH].
  - cbn [Nat.iter]. change (bpow (- Z.of_nat 0)) with 1. rewrite Rmult_1_r.
    split; [exact H|]. cbn. rewrite Z.div_1_r. reflexivity.
  - destruct IH as [IH1 IH2]. rewrite Nat.iter_succ.
    assert (H0 : (0 <= shr_m (Nat.iter n shr_1 mrs))%Z).
    { rewrite IH2. apply Z.div_pos; [exact Hm|]. apply Z.pow_pos_nonneg; lia. }
    destruct (@shr_1_step _ _ H0 IH1) as [S1 S2]. split.
    + replace (y * bpow (- Z.of_nat (S n))) with (y * bpow (- Z.of_nat n) / 2); [exact S1|].
      replace (- Z.of_nat (S n))%Z with (- Z.of_nat n + - 1)%Z by lia.
      rewrite bpow_add. change (-1)%Z with (- (1))%Z.
      rewrite (bpow_opp 1), bpow_1. field.
    + rewrite S2, IH2, Z.div_div by (try apply Z.pow_pos_nonneg; lia).
      f_equal. rewrite Nat2Z.inj_succ, Z.pow_succ_r by lia. lia.
Qed.

Lemma shr_record_loc (m : Z) (l : location) :
  shr_m (shr_record_of_loc m l) = m /\
  loc_of_shr_record (shr_record_of_loc m l) = l.
Proof. destruct l as [|[]]; split; reflexivity. Qed.

(** [shr] by [n] places: the mantissa is divided by 2^n and the position
    describes the same number at the exponent [e + n]. *)
Lemma shr_spec (m e n : Z) (l : location) (x : R) :
  (0 <= m)%Z -> inbetween m e l x ->
  let k := Z.max n 0 in
  snd (shr (shr_record_of_loc m l) e n) = (e + k)%Z /\
  shr_m (fst (shr (shr_record_of_loc m l) e n)) = (m / 2 ^ k)%Z /\
  inbetween (shr_m (fst (shr (shr_record_of_loc m l) e n))) (e + k)
    (loc_of_shr_record (fst (shr (shr_record_of_loc m l) e n))) x.
Proof.
  intros Hm H k. destruct (shr_record_loc m l) as [Em El].
  destruct n as [|p|p]; cbn [shr fst snd]; subst k.
  - cbn [Z.max Z.compare]. rewrite Z.add_0_r, Em, El, Z.div_1_r. repeat split. exact H.
  - replace (Z.max (Z.pos p) 0) with (Z.pos p) by lia.
    rewrite iter_pos_nat.
    destruct (@shr_iter (Pos.to_nat p) (shr_record_of_loc m l) (x * bpow (- e)))
      as [S1 S2].
    + rewrite Em. exact Hm.
    + rewrite Em, El. exact H.
    + rewrite positive_nat_Z in S1, S2. rewrite Em in S2. repeat split; [exact S2|].
      unfold inbetween. replace (- (e + Z.pos p))%Z with (- e + - Z.pos p)%Z by lia.
      rewrite bpow_add, <- Rmult_assoc. exact S1.
  - replace (Z.max (Z.neg p) 0) with 0%Z by lia.
    rewrite Z.add_0_r, Em, El, Z.div_1_r. repeat split. exact H.
Qed.

(** ** The normal form of [binary_round_aux] *)

Lemma fexp_eq (D : Z) : fexp prec emax D = Z.max (D - 53) (-1074).
Proof. reflexivity. Qed.

Lemma fexp_mono (a b : Z) : (a <= b)%Z -> (fexp prec emax a <= fexp prec emax b)%Z.
Proof. rewrite !fexp_eq. lia. Qed.

Lemma Zdigits2_bounds (m : Z) :
  (0 < m)%Z -> (2 ^ (Zdigits2 m - 1) <= m < 2 ^ Zdigits2 m)%Z /\ (0 < Zdigits2 m)%Z.
Proof.
  destruct m as [|p|p]; try lia. intros _. cbn [Zdigits2].
  split; [apply F64Range.digits2_pos_bounds|lia].
Qed.

Lemma Zdigits2_le (m k : Z) :
  (0 <= m < 2 ^ k)%Z -> (0 <= k)%Z -> (Zdigits2 m <= k)%Z.
Proof.
  intros [H0 Hk] Hk0. destruct (Z.eq_dec m 0) as [->|Hne]; [exact Hk0|].
  destruct (@Zdigits2_bounds m) as [[Hlo _] Hd]; [lia|].
  destruct (Z.le_gt_cases (Zdigits2 m) k) as [|Hgt]; [assumption|].
  assert (2 ^ k <= 2 ^ (Zdigits2 m - 1))%Z by (apply Z.pow_le_mono_r; lia). lia.
Qed.

Lemma shr_none (mrs : shr_record) (e n : Z) : (n <= 0)%Z -> shr mrs e n = (mrs, e).
Proof. destruct n; try reflexivity. lia. Qed.

Lemma rne_bounds (m : Z) (l : location) :
  (m <= round_nearest_even m l <= m + 1)%Z.
Proof.
  destruct l as [|[]]; cbn [round_nearest_even]; try lia.
  destruct (Z.even m); lia.
Qed.

(** Rounding a mantissa of at most 53 bits that carries no location. *)
Lemma shr_fexp_finish (m E : Z) :
  (0 <= m <= 2 ^ 53)%Z -> (-1074 <= E)%Z ->
  match shr_m (fst (shr_fexp prec emax m E loc_Exact)) with
  | Z0 => S754_zero false
  | Zpos p =>
      if (snd (shr_fexp prec emax m E loc_Exact) <=? emax - prec)%Z
      then S754_finite false p (snd (shr_fexp prec emax m E loc_Exact))
      else S754_infinity false
  | Zneg _ => S754_nan
  end = finish m E.
Proof.
  intros Hm HE. unfold shr_fexp.
  destruct (Z.eq_dec m (2 ^ 53)) as [->|Hne].
  - change (Zdigits2 (2 ^ 53)) with 54%Z. rewrite fexp_eq.
    replace (Z.max (54 + E - 53) (-1074) - E)%Z with 1%Z by lia.
    reflexivity.
  - rewrite shr_none.
    + cbn [fst snd shr_record_of_loc shr_m]. unfold finish.
      destruct m as [|p|p]; [reflexivity| |lia].
      destruct (Z.eqb_spec (Z.pos p) (2 ^ 53)); [contradiction|]. reflexivity.
    + rewrite fexp_eq. assert (Zdigits2 m <= 53)%Z by (apply Zdigits2_le; lia). lia.
Qed.

(** [binary_round_aux] on a position at or below the target exponent:
    the position is shifted to the exponent [E] the format gives a number
    of that size, rounded to nearest even there, and finished. *)
Lemma binary_round_aux_finish (m e : Z) (l : location) (x : R) :
  (0 <= m)%Z -> inbetween m e l x ->
  (e <= fexp prec emax (Zdigits2 m + e))%Z ->
  let E := fexp prec emax (Zdigits2 m + e) in
  exists (m' : Z) (l' : location),
    m' = (m / 2 ^ (E - e))%Z /\ (0 <= m' < 2 ^ 53)%Z /\
    inbetween m' E l' x /\
    binary_round_aux prec emax false m e l = finish (round_nearest_even m' l') E.
Proof.
  intros Hm Hin Hpre E.
  assert (HE : (-1074 <= E)%Z) by (unfold E; rewrite fexp_eq; lia).
  destruct (@shr_spec m e (E - e) l x Hm Hin) as (He' & Hm' & Hin').
  replace (Z.max (E - e) 0) with (E - e)%Z in * by lia.
  replace (e + (E - e))%Z with E in * by lia.
  unfold binary_round_aux. fold E.
  change (shr_fexp prec emax m e l) with (shr (shr_record_of_loc m l) e (E - e)).
  destruct (shr (shr_record_of_loc m l) e (E - e)) as [mrs' e'].
  cbn [fst snd] in He', Hm', Hin'. subst e'.
  assert (Hb : (0 <= shr_m mrs' < 2 ^ 53)%Z).
  { rewrite Hm'. assert (0 < 2 ^ (E - e))%Z by (apply Z.pow_pos_nonneg; lia).
    split; [apply Z.div_pos; lia|].
    apply Z.div_lt_upper_bound; [lia|].
    destruct (Z.eq_dec m 0) as [->|Hne]; [lia|].
    destruct (@Zdigits2_bounds m) as [[_ Hhi] Hd]; [lia|].
    rewrite <- Z.pow_add_r by lia.
    apply Z.lt_le_trans with (1 := Hhi). apply Z.pow_le_mono_r; [lia|].
    unfold E in *. rewrite fexp_eq in *. lia. }
  exists (shr_m mrs'), (loc_of_shr_record mrs').
  split; [exact Hm'|]. split; [exact Hb|]. split; [exact Hin'|].
  pose proof (rne_bounds (shr_m mrs') (loc_of_shr_record mrs')) as Hr.
  set (m2 := round_nearest_even (shr_m mrs') (loc_of_shr_record mrs')) in *.
  pose proof (@shr_fexp_finish m2 E) as Hf.
  destruct (shr_fexp prec emax m2 E loc_Exact) as [mrs2 e2].
  cbn [fst snd] in Hf. apply Hf; lia.
Qed.

(** ** Rounding to nearest even is monotone *)

Lemma pos_in_bounds (m : Z) (l : location) (y : R) :
  pos_in m l y -> IZR m <= y < IZR m + 1.
Proof. destruct l as [|[]]; cbn [pos_in]; lra. Qed.

Lemma pos_order (m1 m2 : Z) (l1 l2 : location) (y1 y2 : R) :
  pos_in m1 l1 y1 -> pos_in m2 l2 y2 -> y1 <= y2 ->
  (m1 < m2)%Z \/ (m1 = m2 /\ (loc_rank l1 <= loc_rank l2)%Z).
Proof.
  intros H1 H2 Hle.
  pose proof (@pos_in_bounds _ _ _ H1) as B1. pose proof (@pos_in_bounds _ _ _ H2) as B2.
  destruct (Z_lt_le_dec m1 m2) as [Hlt|Hge]; [left; exact Hlt|right].
  assert (Hm : (m1 <= m2)%Z).
  { destruct (Z_le_gt_dec m1 m2) as [|Hgt]; [assumption|exfalso].
    assert (IZR m2 + 1 <= IZR m1) by (rewrite <- plus_IZR; apply IZR_le; lia). lra. }
  assert (m1 = m2) by lia. subst m2. split; [reflexivity|].
  destruct l1 as [|[]], l2 as [|[]]; cbn [pos_in loc_rank] in *; try lia; exfalso; lra.
Qed.

Lemma rne_mono (m1 m2 : Z) (l1 l2 : location) :
  (m1 < m2)%Z \/ (m1 = m2 /\ (loc_rank l1 <= loc_rank l2)%Z) ->
  (round_nearest_even m1 l1 <= round_nearest_even m2 l2)%Z.
Proof.
  intros [Hlt|[-> Hr]].
  - pose proof (rne_bounds m1 l1). pose proof (rne_bounds m2 l2). lia.
  - destruct l1 as [|[]], l2 as [|[]]; cbn [round_nearest_even loc_rank] in *;
      try lia; destruct (Z.even m2); lia.
Qed.

Lemma nonneg_finish (m E : Z) : (0 <= m)%Z -> nonneg (finish m E) = true.
Proof.
  intros Hm. unfold finish. destruct m as [|p|p]; [reflexivity| |lia].
  destruct (Z.pos p =? 2 ^ 53)%Z.
  - destruct (E + 1 <=? 971)%Z; reflexivity.
  - destruct (E <=? 971)%Z; reflexivity.
Qed.

Lemma SFleb_zero_nonneg (s : bool) (y : spec_float) :
  nonneg y = true -> SFleb (S754_zero s) y = true.
Proof. destruct y as [t|t| |t m e]; cbn; try discriminate; destruct t; try discriminate; reflexivity. Qed.

Lemma SFleb_finite (a b : positive) (Ea Eb : Z) :
  (Ea < Eb)%Z \/ (Ea = Eb /\ (Z.pos a <= Z.pos b)%Z) ->
  SFleb (S754_finite false a Ea) (S754_finite false b Eb) = true.
Proof.
  intros H. unfold SFleb. cbn [SFcompare]. rewrite F64Range.compare_cont_Eq.
  destruct (Z.compare_spec Ea Eb); [|reflexivity|lia].
  destruct (Z.compare_spec (Z.pos a) (Z.pos b)); try reflexivity. lia.
Qed.

Lemma fin_le (a b : positive) (Ea Eb : Z) :
  (Ea < Eb)%Z \/ (Ea = Eb /\ (Z.pos a <= Z.pos b)%Z) ->
  SFleb (if (Ea <=? 971)%Z then S754_finite false a Ea else S754_infinity false)
        (if (Eb <=? 971)%Z then S754_finite false b Eb else S754_infinity false) = true.
Proof.
  intros H. destruct (Z.leb_spec Ea 971), (Z.leb_spec Eb 971);
    try reflexivity; [apply SFleb_finite; exact H|lia].
Qed.

Lemma finish_mono (m1 m2 E1 E2 : Z) :
  (0 <= m1 <= 2 ^ 53)%Z -> (0 <= m2 <= 2 ^ 53)%Z ->
  (E1 = E2 /\ (m1 <= m2)%Z) \/ ((E1 < E2)%Z /\ (2 ^ 52 <= m2)%Z) ->
  SFleb (finish m1 E1) (finish m2 E2) = true.
Proof.
  intros H1 H2 H.
  destruct m1 as [|p1|p1]; [apply SFleb_zero_nonneg, nonneg_finish; lia| |lia].
  destruct m2 as [|p2|p2]; [lia| |lia].
  unfold finish.
  destruct (Z.eqb_spec (Z.pos p1) (2 ^ 53)) as [Ha|Ha],
           (Z.eqb_spec (Z.pos p2) (2 ^ 53)) as [Hb|Hb];
    apply fin_le; change (Z.pos (2 ^ 52)) with (2 ^ 52)%Z; lia.
Qed.

Lemma inbetween_bounds (m e : Z) (l : location) (x : R) :
  inbetween m e l x -> IZR m * bpow e <= x < (IZR m + 1) * bpow e.
Proof.
  unfold inbetween. intros H. apply pos_in_bounds in H.
  pose proof (bpow_pos e) as Hb. pose proof (bpow_cancel e) as Hc.
  assert (Hx : x = x * bpow (- e) * bpow e).
  { rewrite Rmult_assoc, (Rmult_comm (bpow (- e))), Hc. ring. }
  set (y := x * bpow (- e)) in *. clearbody y. subst x.
  split; [apply Rmult_le_compat_r; lra|apply Rmult_lt_compat_r; lra].
Qed.

(** A number described at [(m, e)] is below 2^(digits m + e), and at or
    above 2^(digits m + e - 1) when [m] is positive. *)
Lemma inbetween_below (m e : Z) (l : location) (x : R) :
  (0 <= m)%Z -> inbetween m e l x -> x < bpow (Zdigits2 m + e).
Proof.
  intros Hm H. apply inbetween_bounds in H. destruct H as [_ H].
  apply Rlt_le_trans with (1 := H).
  assert (Hd : (m + 1 <= 2 ^ Zdigits2 m)%Z /\ (0 <= Zdigits2 m)%Z).
  { destruct (Z.eq_dec m 0) as [->|Hne]; [cbn; lia|].
    destruct (@Zdigits2_bounds m) as [[_ Hhi] Hd]; lia. }
  destruct Hd as [Hd Hd0]. rewrite bpow_add, (@bpow_IZR (Zdigits2 m)) by exact Hd0.
  apply Rmult_le_compat_r; [pose proof (bpow_pos e); lra|].
  rewrite <- plus_IZR. apply IZR_le. exact Hd.
Qed.

Lemma inbetween_above (m e : Z) (l : location) (x : R) :
  (0 < m)%Z -> inbetween m e l x -> bpow (Zdigits2 m + e - 1) <= x.
Proof.
  intros Hm H. apply inbetween_bounds in H. destruct H as [H _].
  apply Rle_trans with (2 := H).
  destruct (@Zdigits2_bounds m Hm) as [[Hlo _] Hd].
  replace (Zdigits2 m + e - 1)%Z with ((Zdigits2 m - 1) + e)%Z by lia.
  rewrite bpow_add, (@bpow_IZR (Zdigits2 m - 1)) by lia.
  apply Rmult_le_compat_r; [pose proof (bpow_pos e); lra|].
  apply IZR_le. exact Hlo.
Qed.

(** Rounding is monotone: of two numbers, each described by a position at
    or below its target exponent, the smaller rounds to the smaller. *)
Lemma binary_round_aux_mono (m1 e1 m2 e2 : Z) (l1 l2 : location) (x1 x2 : R) :
  (0 <= m1)%Z -> (0 <= m2)%Z ->
  inbetween m1 e1 l1 x1 -> inbetween m2 e2 l2 x2 ->
  (e1 <= fexp prec emax (Zdigits2 m1 + e1))%Z ->
  (e2 <= fexp prec emax (Zdigits2 m2 + e2))%Z ->
  x1 <= x2 ->
  SFleb (binary_round_aux prec emax false m1 e1 l1)
        (binary_round_aux prec emax false m2 e2 l2) = true.
Proof.
  intros Hm1 Hm2 H1 H2 P1 P2 Hle.
  destruct (@binary_round_aux_finish m1 e1 l1 x1 Hm1 H1 P1) as (a1 & k1 & Ea1 & Ba1 & Ia1 & ->).
  destruct (@binary_round_aux_finish m2 e2 l2 x2 Hm2 H2 P2) as (a2 & k2 & Ea2 & Ba2 & Ia2 & ->).
  set (E1 := fexp prec emax (Zdigits2 m1 + e1)) in *.
  set (E2 := fexp prec emax (Zdigits2 m2 + e2)) in *.
  pose proof (rne_bounds a1 k1) as R1. pose proof (rne_bounds a2 k2) as R2.
  assert (HE : (E1 <= E2)%Z).
  { destruct (Z_le_gt_dec E1 E2) as [|Hgt]; [assumption|exfalso].
    assert (HD : (Zdigits2 m2 + e2 < Zdigits2 m1 + e1)%Z).
    { destruct (Z_lt_le_dec (Zdigits2 m2 + e2) (Zdigits2 m1 + e1)) as [|Hge]; [assumption|].
      apply fexp_mono in Hge. fold E1 E2 in Hge. lia. }
    assert (Hpos : (0 < m1)%Z).
    { destruct (Z.eq_dec m1 0) as [E0|]; [|lia]. exfalso. subst m1.
      unfold E1, E2 in *. rewrite !fexp_eq in *. cbn [Zdigits2] in *. lia. }
    pose proof (@inbetween_above m1 e1 l1 x1 Hpos H1) as A1.
    pose proof (@inbetween_below m2 e2 l2 x2 Hm2 H2) as B2.
    assert (bpow (Zdigits2 m2 + e2) <= bpow (Zdigits2 m1 + e1 - 1)) by (apply bpow_le; lia).
    lra. }
  apply finish_mono; try lia.
  destruct (Z.eq_dec E1 E2) as [Heq|Hne].
  - left. split; [exact Heq|]. apply rne_mono.
    unfold inbetween in Ia1, Ia2. rewrite Heq in Ia1.
    apply (@pos_order _ _ _ _ _ _ Ia1 Ia2).
    apply Rmult_le_compat_r; [pose proof (bpow_pos (- E2)); lra|exact Hle].
  - right. split; [lia|].
    assert (HE2 : (E2 = Zdigits2 m2 + e2 - 53)%Z).
    { unfold E1, E2 in *. rewrite !fexp_eq in *. lia. }
    assert (Hpos : (0 < m2)%Z).
    { destruct (Z.eq_dec m2 0) as [E0|]; [|lia]. exfalso. subst m2.
      unfold E1, E2 in *. rewrite !fexp_eq in *. cbn [Zdigits2] in *. lia. }
    destruct (@Zdigits2_bounds m2 Hpos) as [[Hlo _] Hd].
    assert (2 ^ 52 <= a2)%Z; [|lia].
    rewrite Ea2. apply Z.div_le_lower_bound; [apply Z.pow_pos_nonneg; lia|].
    rewrite <- Z.pow_add_r by lia.
    replace (E2 - e2 + 52)%Z with (Zdigits2 m2 - 1)%Z by lia. exact Hlo.
Qed.

End F64Round.

(** ** Where the exact results of the operations lie *)

Module F64Ops.
Import F64Value F64Round.
Open Scope R_scope.

(** ** Valid numbers and their values *)

Lemma valid_canonical (s : bool) (m : positive) (e : Z) :
  valid_binary (S754_finite s m e) = true ->
  e = fexp prec emax (Zdigits2 (Z.pos m) + e) /\ (e <= 971)%Z.
Proof.
  unfold valid_binary, SpecFloat.valid_binary, bounded, canonical_mantissa.
  intros H. apply andb_prop in H. destruct H as [H1 H2].
  apply Z.eqb_eq in H1. apply Z.leb_le in H2. split; [symmetry; exact H1|exact H2].
Qed.

Lemma exact_inbetween (m e : Z) : inbetween m e loc_Exact (IZR m * bpow e).
Proof.
  unfold inbetween, pos_in. rewrite Rmult_assoc, bpow_cancel. ring.
Qed.

Lemma F2R_pos (m : positive) (e : Z) : 0 < F2R (S754_finite false m e).
Proof.
  unfold F2R. apply Rmult_lt_0_compat; [apply IZR_lt; lia|apply bpow_pos].
Qed.

Lemma Zdigits2_unique (n a : Z) :
  (2 ^ (a - 1) <= n < 2 ^ a)%Z -> (0 < n)%Z -> (0 < a)%Z -> Zdigits2 n = a.
Proof.
  intros [Hlo Hhi] Hn Ha. destruct (@Zdigits2_bounds n Hn) as [[Dlo Dhi] Hd].
  assert (H1 : (Zdigits2 n - 1 < a)%Z).
  { apply (Z.pow_lt_mono_r_iff 2); lia. }
  assert (H2 : (a - 1 < Zdigits2 n)%Z).
  { apply (Z.pow_lt_mono_r_iff 2); lia. }
  lia.
Qed.

Lemma Zdigits2_shift (n k : Z) :
  (0 < n)%Z -> (0 <= k)%Z -> Zdigits2 (n * 2 ^ k) = (Zdigits2 n + k)%Z.
Proof.
  intros Hn Hk. destruct (@Zdigits2_bounds n Hn) as [[Dlo Dhi] Hd].
  assert (Hp : (0 < 2 ^ k)%Z) by (apply Z.pow_pos_nonneg; lia).
  apply Zdigits2_unique; try nia.
  replace (Zdigits2 n + k - 1)%Z with ((Zdigits2 n - 1) + k)%Z by lia.
  rewrite !Z.pow_add_r by lia. nia.
Qed.

(** The value of a number from its comparison. *)
Lemma SFleb_F2R (m1 m2 : positive) (e1 e2 : Z) :
  valid_binary (S754_finite false m1 e1) = true ->
  valid_binary (S754_finite false m2 e2) = true ->
  SFleb (S754_finite false m1 e1) (S754_finite false m2 e2) = true ->
  F2R (S754_finite false m1 e1) <= F2R (S754_finite false m2 e2).
Proof.
  intros V1 V2 H. apply F64Range.SFleb_finite_pos in H.
  apply valid_canonical in V1, V2. destruct V1 as [C1 _], V2 as [C2 _].
  rewrite fexp_eq in C1, C2. unfold F2R.
  destruct H as [Hlt|[-> Hm]].
  - pose proof (@inbetween_below (Z.pos m1) e1 loc_Exact _ ltac:(lia)
                  (exact_inbetween (Z.pos m1) e1)) as B1.
    pose proof (@inbetween_above (Z.pos m2) e2 loc_Exact _ ltac:(lia)
                  (exact_inbetween (Z.pos m2) e2)) as A2.
    assert (bpow (Zdigits2 (Z.pos m1) + e1) <= bpow (Zdigits2 (Z.pos m2) + e2 - 1))
      by (apply bpow_le; lia).
    lra.
  - apply Rmult_le_compat_r; [pose proof (bpow_pos e2); lra|apply IZR_le; exact Hm].
Qed.

(** ** The product of two positive numbers *)

Lemma mul_position (mx my : positive) (ex ey : Z) :
  valid_binary (S754_finite false mx ex) = true ->
  valid_binary (S754_finite false my ey) = true ->
  inbetween (Z.pos (mx * my)) (ex + ey) loc_Exact
    (F2R (S754_finite false mx ex) * F2R (S754_finite false my ey)) /\
  (ex + ey <= fexp prec emax (Zdigits2 (Z.pos (mx * my)) + (ex + ey)))%Z.
Proof.
  intros Vx Vy. split.
  - replace (F2R (S754_finite false mx ex) * F2R (S754_finite false my ey))
      with (IZR (Z.pos (mx * my)) * bpow (ex + ey)); [apply exact_inbetween|].
    unfold F2R. rewrite Pos2Z.inj_mul, mult_IZR, bpow_add. ring.
  - apply valid_canonical in Vx, Vy. destruct Vx as [Cx _], Vy as [Cy _].
    rewrite fexp_eq in *.
    destruct (@Zdigits2_bounds (Z.pos mx)) as [[Xlo Xhi] Xd]; [lia|].
    destruct (@Zdigits2_bounds (Z.pos my)) as [[Ylo Yhi] Yd]; [lia|].
    destruct (@Zdigits2_bounds (Z.pos (mx * my))) as [[Plo Phi] Pd]; [lia|].
    assert (Hd : (Zdigits2 (Z.pos mx) + Zdigits2 (Z.pos my) - 1
                  <= Zdigits2 (Z.pos (mx * my)))%Z).
    { assert (Hlow : (2 ^ (Zdigits2 (Z.pos mx) - 1 + (Zdigits2 (Z.pos my) - 1))
                      <= Z.pos (mx * my))%Z).
      { rewrite Z.pow_add_r by lia. rewrite Pos2Z.inj_mul. nia. }
      assert (Hlt : (Zdigits2 (Z.pos mx) - 1 + (Zdigits2 (Z.pos my) - 1)
                     < Zdigits2 (Z.pos (mx * my)))%Z).
      { apply (Z.pow_lt_mono_r_iff 2); lia. }
      lia. }
    lia.
Qed.

(** ** The quotient of two positive numbers *)

Lemma new_location_position (m2 r q : Z) :
  (0 < m2)%Z -> (0 <= r < m2)%Z ->
  pos_in q (new_location m2 r) (IZR q + IZR r / IZR m2).
Proof.
  intros Hm Hr. assert (HM : 0 < IZR m2) by (apply IZR_lt; lia).
  assert (Hhalf : forall c : comparison, (2 * r ?= m2)%Z = c ->
            match c with
            | Lt => IZR r / IZR m2 < / 2
            | Eq => IZR r / IZR m2 = / 2
            | Gt => / 2 < IZR r / IZR m2
            end).
  { intros c Hc. destruct c.
    - apply Z.compare_eq in Hc. rewrite <- Hc, mult_IZR. field.
      intros H0. assert (IZR r = 0) by lra. apply eq_IZR in H. lia.
    - apply (proj1 (Z.compare_lt_iff _ _)) in Hc. apply IZR_lt in Hc.
      rewrite mult_IZR in Hc. apply Rmult_lt_reg_r with (IZR m2); [exact HM|].
      unfold Rdiv. rewrite Rmult_assoc, Rinv_l by lra. lra.
    - apply (proj1 (Z.compare_gt_iff _ _)) in Hc. apply IZR_lt in Hc.
      rewrite mult_IZR in Hc. apply Rmult_lt_reg_r with (IZR m2); [exact HM|].
      unfold Rdiv. rewrite Rmult_assoc, Rinv_l by lra. lra. }
  assert (Hpos : (0 < r)%Z -> 0 < IZR r / IZR m2).
  { intros H. apply Rdiv_lt_0_compat; [apply IZR_lt; lia|exact HM]. }
  assert (Hone : IZR r / IZR m2 < 1).
  { apply Rmult_lt_reg_r with (IZR m2); [exact HM|].
    unfold Rdiv. rewrite Rmult_assoc, Rinv_l by lra.
    assert (IZR r < IZR m2) by (apply IZR_lt; lia). lra. }
  assert (Hloc : forall l : location,
            pos_in q (if Z.eqb r 0 then loc_Exact else l) (IZR q + IZR r / IZR m2) <->
            (r = 0%Z \/ (r <> 0%Z /\ pos_in q l (IZR q + IZR r / IZR m2)))).
  { intros l. destruct (Z.eqb_spec r 0) as [->|Hr0].
    - split; [intros _; left; reflexivity|]. intros _. unfold pos_in, Rdiv.
      rewrite Rmult_0_l. ring.
    - split; [intros H; right; split; assumption|]. intros [H|[_ H]]; [lia|exact H]. }
  unfold new_location, new_location_even, new_location_odd.
  destruct (Z.eq_dec r 0) as [Hr0|Hr0].
  - destruct (Z.even m2); apply Hloc; left; exact Hr0.
  - assert (Hrp : (0 < r)%Z) by lia. specialize (Hpos Hrp).
    destruct (Z.even m2) eqn:Hev; apply Hloc; right; (split; [exact Hr0|]).
    + pose proof (Hhalf _ eq_refl) as Hh.
      destruct (2 * r ?= m2)%Z; unfold pos_in; lra.
    + pose proof (Hhalf _ eq_refl) as Hh.
      assert (Hodd : (2 * r <> m2)%Z).
      { intros Heq. rewrite <- Heq, Z.even_mul in Hev. cbn in Hev. discriminate. }
      destruct (Z.compare_spec (2 * r + 1) m2) as [Hc|Hc|Hc];
        destruct (Z.compare_spec (2 * r) m2) as [Hc'|Hc'|Hc']; try lia;
        unfold pos_in; lra.
Qed.

Lemma div_position (m1 m2 : positive) (e1 e2 : Z) :
  let '(q, e', l) := SFdiv_core_binary prec emax (Z.pos m1) e1 (Z.pos m2) e2 in
  (0 <= q)%Z /\
  inbetween q e' l (F2R (S754_finite false m1 e1) / F2R (S754_finite false m2 e2)) /\
  (e' <= fexp prec emax (Zdigits2 q + e'))%Z.
Proof.
  unfold SFdiv_core_binary.
  set (d1 := Zdigits2 (Z.pos m1)). set (d2 := Zdigits2 (Z.pos m2)).
  set (e' := Z.min (fexp prec emax (d1 + e1 - (d2 + e2))) (e1 - e2)).
  set (s := (e1 - e2 - e')%Z).
  assert (Hs : (0 <= s)%Z) by (unfold s, e'; lia).
  assert (Hm' : match s with
                | Z.pos _ => Z.shiftl (Z.pos m1) s
                | 0%Z => Z.pos m1
                | Z.neg _ => 0%Z
                end = (Z.pos m1 * 2 ^ s)%Z).
  { destruct s as [|p|p] eqn:Es; [rewrite Z.mul_1_r; reflexivity| |lia].
    apply Z.shiftl_mul_pow2. lia. }
  rewrite Hm'. set (m' := (Z.pos m1 * 2 ^ s)%Z).
  assert (Hp : (0 < 2 ^ s)%Z) by (apply Z.pow_pos_nonneg; lia).
  pose proof (Z_div_mod m' (Z.pos m2) ltac:(lia)) as Hdiv.
  destruct (Z.div_eucl m' (Z.pos m2)) as [q r]. destruct Hdiv as [Hq Hr].
  assert (Hq0 : (0 <= q)%Z) by nia.
  split; [exact Hq0|]. split.
  - unfold inbetween.
    replace (F2R (S754_finite false m1 e1) / F2R (S754_finite false m2 e2) * bpow (- e'))
      with (IZR q + IZR r / IZR (Z.pos m2));
      [apply new_location_position; lia|].
    unfold F2R.
    assert (HM : 0 < IZR (Z.pos m2)) by (apply IZR_lt; lia).
    assert (Hb2 := bpow_pos e2).
    assert (Hm1 : IZR (Z.pos m1) * bpow s = IZR (Z.pos m2) * IZR q + IZR r).
    { rewrite (@bpow_IZR s Hs), <- mult_IZR, <- mult_IZR, <- plus_IZR.
      f_equal. exact Hq. }
    assert (Hbs : bpow e1 * bpow (- e') = bpow s * bpow e2).
    { rewrite <- !bpow_add. f_equal. unfold s. lia. }
    field_simplify_eq; [|lra].
    replace (IZR (Z.pos m1) * bpow e1 * bpow (- e'))
      with (IZR (Z.pos m1) * bpow s * bpow e2)
      by (rewrite !Rmult_assoc, Hbs; reflexivity).
    rewrite Hm1. ring.
  - rewrite fexp_eq.
    destruct (Z_le_gt_dec e' (-1074)) as [|Hgt]; [lia|].
    assert (He' : (e' <= d1 + e1 - (d2 + e2) - 53)%Z).
    { assert (He0 : (e' <= fexp prec emax (d1 + e1 - (d2 + e2)))%Z) by (unfold e'; lia).
      rewrite fexp_eq in He0. lia. }
    destruct (@Zdigits2_bounds (Z.pos m1)) as [[Xlo Xhi] Xd]; [lia|].
    destruct (@Zdigits2_bounds (Z.pos m2)) as [[Ylo Yhi] Yd]; [lia|].
    fold d1 in Xlo, Xhi, Xd. fold d2 in Ylo, Yhi, Yd.
    assert (Hq52 : (2 ^ 52 <= q)%Z).
    { assert (Hlow : (2 ^ (d2 + 52) <= m')%Z).
      { unfold m'. apply Z.le_trans with (2 ^ (d1 - 1) * 2 ^ s)%Z; [|nia].
        rewrite <- Z.pow_add_r by lia. apply Z.pow_le_mono_r; [lia|]. unfold s. lia. }
      rewrite Z.pow_add_r in Hlow by lia.
      assert (Z.pos m2 * 2 ^ 52 < Z.pos m2 * (q + 1))%Z by nia. nia. }
    assert (Hdq : (53 <= Zdigits2 q)%Z).
    { destruct (@Zdigits2_bounds q) as [[Qlo Qhi] Qd]; [lia|].
      assert (52 < Zdigits2 q)%Z; [|lia].
      apply (Z.pow_lt_mono_r_iff 2); lia. }
    lia.
Qed.

(** ** The square root of a positive number *)

Lemma sqrt_between (M a b : R) :
  0 <= a -> 0 <= b -> a * a < M -> M < b * b -> a < sqrt M < b.
Proof.
  intros Ha Hb H1 H2. split.
  - rewrite <- (sqrt_square a Ha). apply sqrt_lt_1_alt. split; [nra|exact H1].
  - rewrite <- (sqrt_square b Hb). apply sqrt_lt_1_alt. split; [nra|exact H2].
Qed.

Lemma sqrt_position (m : positive) (e : Z) :
  let '(q, e', l) := SFsqrt_core_binary prec emax (Z.pos m) e in
  (0 <= q)%Z /\
  inbetween q e' l (sqrt (F2R (S754_finite false m e))) /\
  (e' <= fexp prec emax (Zdigits2 q + e'))%Z.
Proof.
  unfold SFsqrt_core_binary.
  set (d := Zdigits2 (Z.pos m)).
  set (e' := Z.min (fexp prec emax (Z.div2 (d + e + 1))) (Z.div2 e)).
  set (s := (e - 2 * e')%Z).
  assert (Hs : (0 <= s)%Z).
  { unfold s, e'. rewrite (Z.div2_div e).
    pose proof (Z.mul_div_le e 2 ltac:(lia)). lia. }
  assert (Hm' : match s with
                | Z.pos _ => Z.shiftl (Z.pos m) s
                | 0%Z => Z.pos m
                | Z.neg _ => 0%Z
                end = (Z.pos m * 2 ^ s)%Z).
  { destruct s as [|p|p] eqn:Es; [rewrite Z.mul_1_r; reflexivity| |lia].
    apply Z.shiftl_mul_pow2. lia. }
  rewrite Hm'. set (m' := (Z.pos m * 2 ^ s)%Z).
  assert (Hp : (0 < 2 ^ s)%Z) by (apply Z.pow_pos_nonneg; lia).
  pose proof (Z.sqrtrem_spec m' ltac:(lia)) as Hsq.
  destruct (Z.sqrtrem m') as [q r]. destruct Hsq as [Hq Hr].
  assert (Hq0 : (0 <= q)%Z) by lia.
  split; [exact Hq0|]. split.
  - unfold inbetween.
    assert (HM : sqrt (F2R (S754_finite false m e)) * bpow (- e') = sqrt (IZR m')).
    { unfold F2R.
      assert (Hx : IZR (Z.pos m) * bpow e = IZR m' * (bpow e' * bpow e')).
      { unfold m'. rewrite mult_IZR, <- (@bpow_IZR s Hs), <- bpow_add, Rmult_assoc, <- bpow_add.
        f_equal. f_equal. unfold s. lia. }
      rewrite Hx, sqrt_mult, sqrt_square.
      - rewrite Rmult_assoc, bpow_cancel. ring.
      - pose proof (bpow_pos e'). lra.
      - apply IZR_le. lia.
      - pose proof (bpow_pos e'). nra. }
    rewrite HM.
    assert (HMq : IZR m' = IZR q * IZR q + IZR r).
    { rewrite <- mult_IZR, <- plus_IZR. f_equal. exact Hq. }
    assert (Hq' : 0 <= IZR q) by (apply IZR_le; exact Hq0).
    match goal with |- context [if ?c then loc_Exact else _] => destruct c eqn:E0 end.
    + apply Z.eqb_eq in E0. subst r. unfold pos_in.
      rewrite HMq, Rplus_0_r. apply sqrt_square. exact Hq'.
    + apply Z.eqb_neq in E0. assert (Hr1 : 1 <= IZR r) by (apply IZR_le; lia).
      match goal with |- context [if ?c then Lt else Gt] => destruct c eqn:E1 end.
      * apply Z.leb_le in E1. apply IZR_le in E1. unfold pos_in.
        apply sqrt_between; nra.
      * apply Z.leb_gt in E1. assert (IZR q + 1 <= IZR r)
          by (rewrite <- plus_IZR; apply IZR_le; lia).
        assert (IZR r <= 2 * IZR q) by (rewrite <- mult_IZR; apply IZR_le; lia).
        unfold pos_in. apply sqrt_between; nra.
  - rewrite fexp_eq.
    destruct (Z_le_gt_dec e' (-1074)) as [|Hgt]; [lia|].
    assert (He' : (e' <= Z.div2 (d + e + 1) - 53)%Z).
    { assert (He0 : (e' <= fexp prec emax (Z.div2 (d + e + 1)))%Z) by (unfold e'; lia).
      rewrite fexp_eq in He0. lia. }
    rewrite Z.div2_div in He'.
    pose proof (Z.mul_div_le (d + e + 1) 2 ltac:(lia)) as Hdiv.
    destruct (@Zdigits2_bounds (Z.pos m)) as [[Xlo Xhi] Xd]; [lia|].
    fold d in Xlo, Xhi, Xd.
    assert (Hq52 : (2 ^ 52 <= q)%Z).
    { assert (Hlow : (2 ^ 104 <= m')%Z).
      { unfold m'. apply Z.le_trans with (2 ^ (d - 1) * 2 ^ s)%Z; [|nia].
        rewrite <- Z.pow_add_r by lia. apply Z.pow_le_mono_r; [lia|]. unfold s. lia. }
      change (2 ^ 104)%Z with (2 ^ 52 * 2 ^ 52)%Z in Hlow.
      assert (0 < 2 ^ 52)%Z by lia. nia. }
    assert (Hdq : (53 <= Zdigits2 q)%Z).
    { destruct (@Zdigits2_bounds q) as [[Qlo Qhi] Qd]; [lia|].
      assert (52 < Zdigits2 q)%Z; [|lia].
      apply (Z.pow_lt_mono_r_iff 2); lia. }
    lia.
Qed.

(** ** The sum of two positive numbers *)

Lemma iter_xO (m d : positive) : Z.pos (Pos.iter xO m d) = (Z.pos m * 2 ^ Z.pos d)%Z.
Proof.
  induction d as [|d IH] using Pos.peano_ind.
  - cbn [Pos.iter]. rewrite Pos2Z.inj_xO. lia.
  - rewrite Pos.iter_succ, Pos2Z.inj_xO, IH, Pos2Z.inj_succ, Z.pow_succ_r by lia. lia.
Qed.

(** [shl_align] keeps the value and ends at the lower of the two
    exponents. *)
Lemma shl_align_spec (m : positive) (e e' : Z) :
  snd (shl_align m e e') = Z.min e e' /\
  Z.pos (fst (shl_align m e e')) = (Z.pos m * 2 ^ (e - Z.min e e'))%Z.
Proof.
  unfold shl_align. destruct (e' - e)%Z as [|p|p] eqn:E; cbn [fst snd].
  - replace (Z.min e e') with e by lia. rewrite Z.sub_diag. split; lia.
  - replace (Z.min e e') with e by lia. rewrite Z.sub_diag. split; lia.
  - replace (Z.min e e') with e' by lia. split; [reflexivity|].
    rewrite iter_xO. f_equal. f_equal. lia.
Qed.

Lemma binary_round_position (m : positive) (e : Z) :
  exists (m' : positive) (e' : Z),
    binary_round prec emax false m e = binary_round_aux prec emax false (Z.pos m') e' loc_Exact /\
    inbetween (Z.pos m') e' loc_Exact (IZR (Z.pos m) * bpow e) /\
    (e' <= fexp prec emax (Zdigits2 (Z.pos m') + e'))%Z.
Proof.
  unfold binary_round.
  change (Z.pos (digits2_pos m)) with (Zdigits2 (Z.pos m)).
  set (E := fexp prec emax (Zdigits2 (Z.pos m) + e)).
  destruct (shl_align_spec m e E) as [He Hm].
  destruct (shl_align m e E) as [m' e']. cbn [fst snd] in He, Hm.
  exists m', e'. split; [reflexivity|]. split.
  - replace (IZR (Z.pos m) * bpow e) with (IZR (Z.pos m') * bpow e'); [apply exact_inbetween|].
    rewrite Hm, mult_IZR, <- (@bpow_IZR (e - Z.min e E)) by lia.
    rewrite Rmult_assoc, <- bpow_add. f_equal. f_equal. lia.
  - rewrite Hm, Zdigits2_shift by lia.
    replace (Zdigits2 (Z.pos m) + (e - Z.min e E) + e')%Z with (Zdigits2 (Z.pos m) + e)%Z by lia.
    fold E. lia.
Qed.

End F64Ops.

(** ** The operations are monotone on the numbers that are zero or above *)

Module F64Mono.
Import F64Value F64Round F64Ops.
Open Scope R_scope.

(** ** The order of the numbers that are zero or above *)

Lemma SFleb_inf (y : spec_float) :
  nonneg y = true -> SFleb y (S754_infinity false) = true.
Proof.
  destruct y as [[]|[]| |[] m e]; cbn; try discriminate; reflexivity.
Qed.

Lemma SFleb_refl (x : spec_float) : nonneg x = true -> SFleb x x = true.
Proof.
  destruct x as [[]|[]| |[] m e]; try (cbn; discriminate); try reflexivity.
  intros _. apply SFleb_finite. right. split; [reflexivity|lia].
Qed.

Lemma SFleb_trans (x y z : spec_float) :
  nonneg x = true -> nonneg y = true -> nonneg z = true ->
  SFleb x y = true -> SFleb y z = true -> SFleb x z = true.
Proof.
  intros Hx Hy Hz Hxy Hyz.
  destruct x as [[]|[]| |[] mx ex]; try (cbn in Hx; discriminate Hx);
    destruct y as [[]|[]| |[] my ey]; try (cbn in Hy; discriminate Hy);
    destruct z as [[]|[]| |[] mz ez]; try (cbn in Hz; discriminate Hz);
    try reflexivity; try (cbn in Hxy; discriminate Hxy); try (cbn in Hyz; discriminate Hyz).
  apply F64Range.SFleb_finite_pos in Hxy, Hyz. apply SFleb_finite. lia.
Qed.

Lemma SFleb_nonneg_cases (x y : spec_float) :
  nonneg x = true -> nonneg y = true -> SFleb x y = true \/ SFleb y x = true.
Proof.
  intros Hx Hy.
  destruct x as [[]|[]| |[] mx ex]; try (cbn in Hx; discriminate Hx);
    destruct y as [[]|[]| |[] my ey]; try (cbn in Hy; discriminate Hy);
    try (left; reflexivity); try (right; reflexivity).
  destruct (Z_lt_le_dec ex ey) as [H|H]; [left; apply SFleb_finite; lia|].
  destruct (Z_lt_le_dec ey ex) as [H'|H']; [right; apply SFleb_finite; lia|].
  destruct (Z_le_gt_dec (Z.pos mx) (Z.pos my)); [left|right]; apply SFleb_finite; lia.
Qed.

(** A function on the numbers that are zero or above is monotone when it
    is so at zero, at infinity and between finite numbers. *)
Lemma mono_cases (F : spec_float -> spec_float) :
  (forall s x, valid_binary x = true -> nonneg x = true ->
               SFleb (F (S754_zero s)) (F x) = true) ->
  (forall x, valid_binary x = true -> nonneg x = true ->
             SFleb (F x) (F (S754_infinity false)) = true) ->
  (forall m1 e1 m2 e2,
      valid_binary (S754_finite false m1 e1) = true ->
      valid_binary (S754_finite false m2 e2) = true ->
      SFleb (S754_finite false m1 e1) (S754_finite false m2 e2) = true ->
      SFleb (F (S754_finite false m1 e1)) (F (S754_finite false m2 e2)) = true) ->
  forall x1 x2,
    valid_binary x1 = true -> valid_binary x2 = true ->
    nonneg x1 = true -> nonneg x2 = true ->
    SFleb x1 x2 = true -> SFleb (F x1) (F x2) = true.
Proof.
  intros Hz Hi Hf x1 x2 V1 V2 N1 N2 Hle.
  destruct x1 as [s1|[]| |[] m1 e1]; try (cbn in N1; discriminate N1).
  - apply Hz; assumption.
  - destruct x2 as [[]|[]| |[] m2 e2]; try (cbn in N2; discriminate N2);
      try (cbn in Hle; discriminate Hle).
    apply Hi; [exact V1|reflexivity].
  - destruct x2 as [[]|[]| |[] m2 e2]; try (cbn in N2; discriminate N2);
      try (cbn in Hle; discriminate Hle).
    + apply Hi; assumption.
    + apply Hf; assumption.
Qed.

Lemma nonneg_round (m e : Z) (l : location) (x : R) :
  (0 <= m)%Z -> inbetween m e l x ->
  (e <= fexp prec emax (Zdigits2 m + e))%Z ->
  nonneg (binary_round_aux prec emax false m e l) = true.
Proof.
  intros Hm Hin Hpre.
  destruct (@binary_round_aux_finish m e l x Hm Hin Hpre) as (a & k & _ & Ba & _ & ->).
  apply nonneg_finish. pose proof (rne_bounds a k). lia.
Qed.

(** Rounding a valid number gives the number. *)
Lemma round_exact (m : positive) (e : Z) :
  valid_binary (S754_finite false m e) = true ->
  binary_round_aux prec emax false (Z.pos m) e loc_Exact = S754_finite false m e.
Proof.
  intros V. apply valid_canonical in V. destruct V as [C Hmax].
  unfold binary_round_aux, shr_fexp. rewrite <- C, Z.sub_diag.
  cbn [shr shr_record_of_loc shr_m loc_of_shr_record round_nearest_even].
  change (Zdigits2 (Z.pos m) + e)%Z with (Zdigits2 (Z.pos m) + e)%Z.
  rewrite <- C, Z.sub_diag. cbn [shr shr_m].
  destruct (Z.leb_spec e (emax - prec)) as [|H]; [reflexivity|].
  change (emax - prec)%Z with 971%Z in H. lia.
Qed.

(** ** Division by a positive number *)

Lemma SFdiv_finite (m1 m2 : positive) (e1 e2 : Z) :
  exists q e' l,
    SFdiv prec emax (S754_finite false m1 e1) (S754_finite false m2 e2) =
    binary_round_aux prec emax false q e' l /\
    (0 <= q)%Z /\
    inbetween q e' l (F2R (S754_finite false m1 e1) / F2R (S754_finite false m2 e2)) /\
    (e' <= fexp prec emax (Zdigits2 q + e'))%Z.
Proof.
  pose proof (div_position m1 m2 e1 e2) as H. cbn [SFdiv xorb].
  destruct (SFdiv_core_binary prec emax (Z.pos m1) e1 (Z.pos m2) e2) as [[q e'] l].
  exists q, e', l. split; [reflexivity|exact H].
Qed.

Lemma SFdiv_nonneg (c x : spec_float) (mc : positive) (ec : Z) :
  c = S754_finite false mc ec -> nonneg x = true -> nonneg (SFdiv prec emax x c) = true.
Proof.
  intros -> Hx. destruct x as [s|[]| |[] m e]; try (cbn in Hx; discriminate Hx).
  - reflexivity.
  - reflexivity.
  - destruct (SFdiv_finite m mc e ec) as (q & e' & l & -> & Hq & Hin & Hpre).
    apply (@nonneg_round _ _ _ _ Hq Hin Hpre).
Qed.

Lemma SFdiv_mono (c x1 x2 : spec_float) (mc : positive) (ec : Z) :
  c = S754_finite false mc ec ->
  valid_binary x1 = true -> valid_binary x2 = true ->
  nonneg x1 = true -> nonneg x2 = true -> SFleb x1 x2 = true ->
  SFleb (SFdiv prec emax x1 c) (SFdiv prec emax x2 c) = true.
Proof.
  intros Hc. apply (mono_cases (fun x => SFdiv prec emax x c)).
  - intros s x V Nx. subst c. apply SFleb_zero_nonneg.
    apply (@SFdiv_nonneg _ x mc ec eq_refl Nx).
  - intros x V Nx. subst c. apply SFleb_inf. apply (@SFdiv_nonneg _ x mc ec eq_refl Nx).
  - intros m1 e1 m2 e2 V1 V2 Hle. subst c.
    destruct (SFdiv_finite m1 mc e1 ec) as (q1 & a1 & l1 & -> & Hq1 & Hin1 & Hpre1).
    destruct (SFdiv_finite m2 mc e2 ec) as (q2 & a2 & l2 & -> & Hq2 & Hin2 & Hpre2).
    apply (@binary_round_aux_mono _ _ _ _ _ _ _ _ Hq1 Hq2 Hin1 Hin2 Hpre1 Hpre2).
    pose proof (@SFleb_F2R _ _ _ _ V1 V2 Hle) as Hv. pose proof (F2R_pos mc ec) as Hp.
    apply Rmult_le_compat_r; [|exact Hv].
    apply Rlt_le. apply Rinv_0_lt_compat. exact Hp.
Qed.

(** ** Multiplication by a positive number *)

Lemma SFmul_nonneg (c x : spec_float) (mc : positive) (ec : Z) :
  c = S754_finite false mc ec -> valid_binary c = true ->
  valid_binary x = true -> nonneg x = true -> nonneg (SFmul prec emax c x) = true.
Proof.
  intros -> Vc Vx Hx. destruct x as [s|[]| |[] m e]; try (cbn in Hx; discriminate Hx).
  - reflexivity.
  - reflexivity.
  - cbn [SFmul xorb].
    destruct (@mul_position _ _ _ _ Vc Vx) as [Hin Hpre].
    apply (@nonneg_round _ _ _ _ (Pos2Z.is_nonneg _) Hin Hpre).
Qed.

Lemma SFmul_mono (c x1 x2 : spec_float) (mc : positive) (ec : Z) :
  c = S754_finite false mc ec -> valid_binary c = true ->
  valid_binary x1 = true -> valid_binary x2 = true ->
  nonneg x1 = true -> nonneg x2 = true -> SFleb x1 x2 = true ->
  SFleb (SFmul prec emax c x1) (SFmul prec emax c x2) = true.
Proof.
  intros Hc Vc. apply (mono_cases (fun x => SFmul prec emax c x)).
  - intros s x V Nx. subst c. apply SFleb_zero_nonneg.
    apply (@SFmul_nonneg _ x mc ec eq_refl Vc V Nx).
  - intros x V Nx. subst c. apply SFleb_inf.
    apply (@SFmul_nonneg _ x mc ec eq_refl Vc V Nx).
  - intros m1 e1 m2 e2 V1 V2 Hle. subst c. cbn [SFmul xorb].
    destruct (@mul_position _ _ _ _ Vc V1) as [Hin1 Hpre1].
    destruct (@mul_position _ _ _ _ Vc V2) as [Hin2 Hpre2].
    apply (@binary_round_aux_mono _ _ _ _ _ _ _ _ (Pos2Z.is_nonneg _) (Pos2Z.is_nonneg _)
             Hin1 Hin2 Hpre1 Hpre2).
    pose proof (@SFleb_F2R _ _ _ _ V1 V2 Hle) as Hv. pose proof (F2R_pos mc ec) as Hp.
    apply Rmult_le_compat_l; [lra|exact Hv].
Qed.

(** ** The square root *)

Lemma SFsqrt_finite (m : positive) (e : Z) :
  exists q e' l,
    SFsqrt prec emax (S754_finite false m e) = binary_round_aux prec emax false q e' l /\
    (0 <= q)%Z /\
    inbetween q e' l (sqrt (F2R (S754_finite false m e))) /\
    (e' <= fexp prec emax (Zdigits2 q + e'))%Z.
Proof.
  pose proof (sqrt_position m e) as H. cbn [SFsqrt].
  destruct (SFsqrt_core_binary prec emax (Z.pos m) e) as [[q e'] l].
  exists q, e', l. split; [reflexivity|exact H].
Qed.

Lemma SFsqrt_nonneg (x : spec_float) :
  nonneg x = true -> nonneg (SFsqrt prec emax x) = true.
Proof.
  intros Hx. destruct x as [s|[]| |[] m e]; try (cbn in Hx; discriminate Hx).
  - reflexivity.
  - reflexivity.
  - destruct (SFsqrt_finite m e) as (q & e' & l & -> & Hq & Hin & Hpre).
    apply (@nonneg_round _ _ _ _ Hq Hin Hpre).
Qed.

Lemma SFsqrt_mono (x1 x2 : spec_float) :
  valid_binary x1 = true -> valid_binary x2 = true ->
  nonneg x1 = true -> nonneg x2 = true -> SFleb x1 x2 = true ->
  SFleb (SFsqrt prec emax x1) (SFsqrt prec emax x2) = true.
Proof.
  apply (mono_cases (fun x => SFsqrt prec emax x)).
  - intros s x V Nx. apply SFleb_zero_nonneg. apply SFsqrt_nonneg. exact Nx.
  - intros x V Nx. apply SFleb_inf. apply SFsqrt_nonneg. exact Nx.
  - intros m1 e1 m2 e2 V1 V2 Hle.
    destruct (SFsqrt_finite m1 e1) as (q1 & a1 & l1 & -> & Hq1 & Hin1 & Hpre1).
    destruct (SFsqrt_finite m2 e2) as (q2 & a2 & l2 & -> & Hq2 & Hin2 & Hpre2).
    apply (@binary_round_aux_mono _ _ _ _ _ _ _ _ Hq1 Hq2 Hin1 Hin2 Hpre1 Hpre2).
    apply sqrt_le_1_alt. apply (@SFleb_F2R _ _ _ _ V1 V2 Hle).
Qed.

(** ** Addition to a number that is zero or above *)

Lemma SFadd_finite (ma mx : positive) (ea ex : Z) :
  exists (m' : positive) (e' : Z),
    SFadd prec emax (S754_finite false ma ea) (S754_finite false mx ex) =
    binary_round_aux prec emax false (Z.pos m') e' loc_Exact /\
    inbetween (Z.pos m') e' loc_Exact
      (F2R (S754_finite false ma ea) + F2R (S754_finite false mx ex)) /\
    (e' <= fexp prec emax (Zdigits2 (Z.pos m') + e'))%Z.
Proof.
  cbn [SFadd cond_Zopp]. set (ez := Z.min ea ex).
  destruct (shl_align_spec ma ea ez) as [_ Ha].
  destruct (shl_align_spec mx ex ez) as [_ Hx].
  replace (Z.min ea ez) with ez in Ha by (unfold ez; lia).
  replace (Z.min ex ez) with ez in Hx by (unfold ez; lia).
  set (A := fst (shl_align ma ea ez)) in *. set (X := fst (shl_align mx ex ez)) in *.
  change (Z.pos A + Z.pos X)%Z with (Z.pos (A + X)). cbn [binary_normalize].
  destruct (binary_round_position (A + X) ez) as (m' & e' & Heq & Hin & Hpre).
  exists m', e'. split; [exact Heq|]. split; [|exact Hpre].
  replace (F2R (S754_finite false ma ea) + F2R (S754_finite false mx ex))
    with (IZR (Z.pos (A + X)) * bpow ez); [exact Hin|].
  unfold F2R. rewrite Pos2Z.inj_add, plus_IZR, Ha, Hx, !mult_IZR.
  rewrite <- !(@bpow_IZR _) by (unfold ez; lia).
  rewrite Rmult_plus_distr_r, !Rmult_assoc, <- !bpow_add.
  f_equal; f_equal; f_equal; lia.
Qed.

Lemma SFadd_zeros (sa s : bool) :
  exists t, SFadd prec emax (S754_zero sa) (S754_zero s) = S754_zero t.
Proof. destruct sa, s; eexists; reflexivity. Qed.

Lemma SFleb_refl_eq (x y : spec_float) : x = y -> nonneg y = true -> SFleb x y = true.
Proof. intros ->. apply SFleb_refl. Qed.

Lemma SFadd_nonneg (a x : spec_float) :
  nonneg a = true -> nonneg x = true -> nonneg (SFadd prec emax a x) = true.
Proof.
  intros Ha Hx.
  destruct a as [[]|[]| |[] ma ea]; try (cbn in Ha; discriminate Ha);
    destruct x as [[]|[]| |[] mx ex]; try (cbn in Hx; discriminate Hx);
    try reflexivity.
  destruct (SFadd_finite ma mx ea ex) as (m' & e' & -> & Hin & Hpre).
  apply (@nonneg_round _ _ _ _ (Pos2Z.is_nonneg _) Hin Hpre).
Qed.

Lemma SFadd_mono (a x1 x2 : spec_float) :
  valid_binary a = true -> nonneg a = true ->
  valid_binary x1 = true -> valid_binary x2 = true ->
  nonneg x1 = true -> nonneg x2 = true -> SFleb x1 x2 = true ->
  SFleb (SFadd prec emax a x1) (SFadd prec emax a x2) = true.
Proof.
  intros Va Na. apply (mono_cases (fun x => SFadd prec emax a x)).
  - intros s x V Nx.
    destruct a as [[]|[]| |[] ma ea]; try (cbn in Na; discriminate Na).
    + destruct (SFadd_zeros true s) as [t ->].
      apply SFleb_zero_nonneg. apply SFadd_nonneg; [reflexivity|exact Nx].
    + destruct (SFadd_zeros false s) as [t ->].
      apply SFleb_zero_nonneg. apply SFadd_nonneg; [reflexivity|exact Nx].
    + apply SFleb_refl_eq; [|apply SFadd_nonneg; [reflexivity|exact Nx]].
      destruct s, x as [[]|[]| |[] mx ex]; try (cbn in Nx; discriminate Nx); reflexivity.
    + assert (Hs : SFadd prec emax (S754_finite false ma ea) (S754_zero s) =
                   S754_finite false ma ea) by (destruct s; reflexivity).
      rewrite Hs.
      destruct x as [sx|[]| |[] mx ex]; try (cbn in Nx; discriminate Nx).
      * assert (Hx : SFadd prec emax (S754_finite false ma ea) (S754_zero sx) =
                     S754_finite false ma ea) by (destruct sx; reflexivity).
        rewrite Hx. apply SFleb_refl. reflexivity.
      * reflexivity.
      * destruct (SFadd_finite ma mx ea ex) as (m' & e' & -> & Hin & Hpre).
        rewrite <- (@round_exact _ _ Va).
        apply (@binary_round_aux_mono _ _ _ _ _ _ _ _ (Pos2Z.is_nonneg _) (Pos2Z.is_nonneg _)
                 (exact_inbetween (Z.pos ma) ea) Hin).
        -- apply valid_canonical in Va. destruct Va as [C _]. rewrite <- C. lia.
        -- exact Hpre.
        -- pose proof (F2R_pos mx ex). unfold F2R in *. lra.
  - intros x V Nx.
    assert (Hi : SFadd prec emax a (S754_infinity false) = S754_infinity false).
    { destruct a as [[]|[]| |[] ma ea]; try (cbn in Na; discriminate Na); reflexivity. }
    rewrite Hi. apply SFleb_inf. apply SFadd_nonneg; assumption.
  - intros m1 e1 m2 e2 V1 V2 Hle.
    destruct a as [sa|[]| |[] ma ea]; try (cbn in Na; discriminate Na).
    + assert (H1 : forall m e, SFadd prec emax (S754_zero sa) (S754_finite false m e) =
                               S754_finite false m e) by (intros; destruct sa; reflexivity).
      rewrite !H1. exact Hle.
    + reflexivity.
    + destruct (SFadd_finite ma m1 ea e1) as (p1 & a1 & -> & Hin1 & Hpre1).
      destruct (SFadd_finite ma m2 ea e2) as (p2 & a2 & -> & Hin2 & Hpre2).
      apply (@binary_round_aux_mono _ _ _ _ _ _ _ _ (Pos2Z.is_nonneg _) (Pos2Z.is_nonneg _)
               Hin1 Hin2 Hpre1 Hpre2).
      pose proof (@SFleb_F2R _ _ _ _ V1 V2 Hle). lra.
Qed.

End F64Mono.

(** ** The same on the numbers of the runtime *)

Module F64Decay.
Import F64Value F64Round F64Ops F64Mono.
Open Scope float_scope.

(** ** Numbers that are zero or above *)

Lemma leb_zero_nonneg (x : float) : (0 <=? x) = true <-> nonneg (Prim2SF x) = true.
Proof.
  rewrite FloatAxioms.leb_spec. change (Prim2SF 0) with (S754_zero false).
  destruct (Prim2SF x) as [[]|[]| |[] m e]; cbn; split; congruence.
Qed.

Lemma nonneg_above (x y : spec_float) :
  nonneg x = true -> SFleb x y = true -> nonneg y = true.
Proof.
  destruct x as [[]|[]| |[] mx ex]; try (cbn; discriminate);
    destruct y as [[]|[]| |[] my ey]; cbn; congruence.
Qed.

Lemma leb_trans (x y z : float) :
  (0 <=? x) = true -> (x <=? y) = true -> (y <=? z) = true -> (x <=? z) = true.
Proof.
  rewrite leb_zero_nonneg, !FloatAxioms.leb_spec. intros Hx Hxy Hyz.
  pose proof (@nonneg_above _ _ Hx Hxy) as Hy. pose proof (@nonneg_above _ _ Hy Hyz) as Hz.
  apply (@SFleb_trans _ _ _ Hx Hy Hz Hxy Hyz).
Qed.

Lemma nonneg_not_nan (x : float) : (0 <=? x) = true -> is_nan x = false.
Proof.
  rewrite leb_zero_nonneg. unfold is_nan. rewrite FloatAxioms.eqb_spec.
  destruct (Prim2SF x) as [[]|[]| |[] m e]; cbn; try congruence.
  intros _. unfold SFeqb. cbn. rewrite Z.compare_refl.
  change PosDef.Pos.compare_cont with Pos.compare_cont.
  rewrite Pos.compare_cont_refl. reflexivity.
Qed.

(** ** The operations of the decay formula are monotone *)

Lemma div_mono (c x1 x2 : float) (mc : positive) (ec : Z) :
  Prim2SF c = S754_finite false mc ec ->
  (0 <=? x1) = true -> (x1 <=? x2) = true ->
  (0 <=? x1 / c) = true /\ (x1 / c <=? x2 / c) = true.
Proof.
  rewrite !leb_zero_nonneg, !FloatAxioms.leb_spec, !FloatAxioms.div_spec.
  intros Hc H1 Hle. pose proof (@nonneg_above _ _ H1 Hle) as H2. split.
  - apply (@SFdiv_nonneg _ _ mc ec Hc H1).
  - apply (@SFdiv_mono _ _ _ mc ec Hc (Prim2SF_valid x1) (Prim2SF_valid x2) H1 H2 Hle).
Qed.

Lemma mul_mono (c x1 x2 : float) (mc : positive) (ec : Z) :
  Prim2SF c = S754_finite false mc ec ->
  (0 <=? x1) = true -> (x1 <=? x2) = true ->
  (0 <=? c * x1) = true /\ (c * x1 <=? c * x2) = true.
Proof.
  rewrite !leb_zero_nonneg, !FloatAxioms.leb_spec, !FloatAxioms.mul_spec.
  intros Hc H1 Hle. pose proof (@nonneg_above _ _ H1 Hle) as H2. split.
  - apply (@SFmul_nonneg _ _ mc ec Hc (Prim2SF_valid c) (Prim2SF_valid x1) H1).
  - apply (@SFmul_mono _ _ _ mc ec Hc (Prim2SF_valid c) (Prim2SF_valid x1)
             (Prim2SF_valid x2) H1 H2 Hle).
Qed.

Lemma add_mono (a x1 x2 : float) :
  (0 <=? a) = true -> (0 <=? x1) = true -> (x1 <=? x2) = true ->
  (0 <=? a + x1) = true /\ (a + x1 <=? a + x2) = true.
Proof.
  rewrite !leb_zero_nonneg, !FloatAxioms.leb_spec, !FloatAxioms.add_spec.
  intros Ha H1 Hle. pose proof (@nonneg_above _ _ H1 Hle) as H2. split.
  - apply (@SFadd_nonneg _ _ Ha H1).
  - apply (@SFadd_mono _ _ _ (Prim2SF_valid a) Ha (Prim2SF_valid x1) (Prim2SF_valid x2) H1 H2 Hle).
Qed.

Lemma sqrt_mono (x1 x2 : float) :
  (0 <=? x1) = true -> (x1 <=? x2) = true ->
  (0 <=? PrimFloat.sqrt x1) = true /\
  (PrimFloat.sqrt x1 <=? PrimFloat.sqrt x2) = true.
Proof.
  rewrite !leb_zero_nonneg, !FloatAxioms.leb_spec, !FloatAxioms.sqrt_spec.
  intros H1 Hle. pose proof (@nonneg_above _ _ H1 Hle) as H2. split.
  - apply (@SFsqrt_nonneg _ H1).
  - apply (@SFsqrt_mono _ _ (Prim2SF_valid x1) (Prim2SF_valid x2) H1 H2 Hle).
Qed.

(** The square of a number that is not NaN is zero or above. *)
Lemma square_nonneg (x : float) : is_nan x = false -> (0 <=? x * x) = true.
Proof.
  intros Hx. apply F64Range.is_nan_spec in Hx.
  rewrite leb_zero_nonneg, FloatAxioms.mul_spec.
  pose proof (Prim2SF_valid x) as V.
  destruct (Prim2SF x) as [[]|[]| |s m e]; try reflexivity; [contradiction|].
  unfold SF64mul. cbn [SFmul]. replace (xorb s s) with false by (destruct s; reflexivity).
  assert (V' : valid_binary (S754_finite false m e) = true) by exact V.
  destruct (@mul_position _ _ _ _ V' V') as [Hin Hpre].
  apply (@nonneg_round _ _ _ _ (Pos2Z.is_nonneg _) Hin Hpre).
Qed.

End F64Decay.

(** ** [Math.min] and [Math.round] up to 350 *)

Module F64Clamp.
Import F64Value F64Round F64Ops F64Mono F64Decay.
Open Scope float_scope.

(** ** [Math.min] with a bound *)

Lemma min_mono (hi q1 q2 : float) :
  (0 <=? hi) = true -> (0 <=? q1) = true -> (q1 <=? q2) = true ->
  (0 <=? F64.min q1 hi) = true /\
  (F64.min q1 hi <=? F64.min q2 hi) = true /\
  (F64.min q2 hi <=? hi) = true.
Proof.
  intros Hh H1 Hle.
  assert (H2 : (0 <=? q2) = true) by (apply (@leb_trans 0 q1 q2); [reflexivity|assumption..]).
  pose proof (@nonneg_not_nan _ Hh) as Nh. pose proof (@nonneg_not_nan _ H1) as N1.
  pose proof (@nonneg_not_nan _ H2) as N2.
  assert (Ht : (hi <=? q1) = true -> (hi <=? q2) = true).
  { intros H. apply (@leb_trans hi q1 q2); assumption. }
  pose proof (@F64Range.leb_refl _ Nh) as Rh.
  unfold F64.min. rewrite N1, N2, Nh. cbn [orb].
  destruct (@F64Range.cmp_cases q1 hi N1 Nh) as [A|[A|A]];
    destruct A as (A1 & A2 & A3 & A4); rewrite A2, ?A1;
    destruct (@F64Range.cmp_cases q2 hi N2 Nh) as [B|[B|B]];
    destruct B as (B1 & B2 & B3 & B4); rewrite B2, ?B1;
    try (specialize (Ht A4); congruence);
    try destruct (get_sign q1); try destruct (get_sign q2);
    repeat split; try assumption; auto.
Qed.

(** ** [Math.round] between 0 and 350 *)

Open Scope R_scope.

Lemma roundZ_spec (m : positive) (e : Z) :
  (e < 0)%Z ->
  IZR (roundZ (S754_finite false m e)) <= F2R (S754_finite false m e) + / 2
  < IZR (roundZ (S754_finite false m e)) + 1.
Proof.
  intros He. unfold roundZ, F2R.
  set (k := (- e)%Z). assert (Hk : (0 < k)%Z) by (unfold k; lia).
  set (P := (2 ^ k)%Z). assert (HP : (0 < P)%Z) by (apply Z.pow_pos_nonneg; lia).
  replace (2 ^ (k + 1))%Z with (2 * P)%Z by (unfold P; rewrite Z.pow_add_r by lia; lia).
  set (a := (2 * Z.pos m + P)%Z). set (z := (a / (2 * P))%Z).
  pose proof (Z.mul_div_le a (2 * P) ltac:(lia)) as Hlo.
  pose proof (Z.mul_succ_div_gt a (2 * P) ltac:(lia)) as Hhi.
  fold z in Hlo, Hhi.
  assert (Hb : bpow e = / IZR P).
  { replace e with (- k)%Z by (unfold k; lia). rewrite bpow_opp, (@bpow_IZR k) by lia.
    reflexivity. }
  rewrite Hb.
  assert (HP' : 0 < IZR P) by (apply IZR_lt; exact HP).
  apply IZR_le in Hlo. apply IZR_lt in Hhi.
  unfold a in Hlo, Hhi.
  rewrite !mult_IZR, ?plus_IZR, ?mult_IZR in Hlo.
  rewrite !mult_IZR, ?plus_IZR, ?mult_IZR, ?succ_IZR in Hhi.
  assert (Hv : IZR (Z.pos m) * / IZR P * IZR P = IZR (Z.pos m)) by (field; lra).
  set (v := IZR (Z.pos m) * / IZR P) in *.
  split; nra.
Qed.

Lemma F2R_350 : F2R (Prim2SF 350) = 350.
Proof.
  change (Prim2SF 350) with (S754_finite false 6157265115545600 (-44)).
  unfold F2R. change (Z.pos 6157265115545600) with (350 * 2 ^ 44)%Z.
  rewrite mult_IZR, <- (@bpow_IZR 44) by lia. rewrite Rmult_assoc.
  change (-44)%Z with (- (44))%Z. rewrite bpow_cancel. ring.
Qed.

Open Scope float_scope.

Lemma of_Z_order (z1 z2 : Z) :
  (1 <= z1 <= z2)%Z -> (z2 <= 350)%Z ->
  (F64.of_Z z1 <=? F64.of_Z z2) = true.
Proof.
  intros H1 H2.
  assert (H : forallb (fun z1 =>
                forallb (fun z2 => (z2 <? z1)%Z || (F64.of_Z z1 <=? F64.of_Z z2))
                  (map Z.of_nat (seq 1 350)))
                (map Z.of_nat (seq 1 350)) = true) by (vm_compute; reflexivity).
  rewrite forallb_forall in H.
  assert (In1 : In z1 (map Z.of_nat (seq 1 350))).
  { apply in_map_iff. exists (Z.to_nat z1). split; [lia|]. apply in_seq. lia. }
  assert (In2 : In z2 (map Z.of_nat (seq 1 350))).
  { apply in_map_iff. exists (Z.to_nat z2). split; [lia|]. apply in_seq. lia. }
  specialize (H z1 In1). rewrite forallb_forall in H. specialize (H z2 In2).
  apply orb_prop in H. destruct H as [H|H]; [apply Z.ltb_lt in H; lia|exact H].
Qed.

Lemma of_Z_bounds (z : Z) :
  (1 <= z <= 350)%Z -> (0 <=? F64.of_Z z) = true /\ (F64.of_Z z <=? 350) = true.
Proof.
  intros Hz.
  assert (H : forallb (fun z => (0 <=? F64.of_Z z) && (F64.of_Z z <=? 350))
                (map Z.of_nat (seq 1 350)) = true) by (vm_compute; reflexivity).
  rewrite forallb_forall in H. apply andb_prop. apply H.
  apply in_map_iff. exists (Z.to_nat z). split; [lia|]. apply in_seq. lia.
Qed.

(** What [Math.round] returns between 0 and 350: a zero, or the integer
    nearest to the number, halves upward. *)
Lemma round_cases (c : float) :
  (0 <=? c) = true -> (c <=? 350) = true ->
  exists z : Z,
    (0 <= z <= 350)%Z /\
    (IZR z <= F2R (Prim2SF c) + / 2 < IZR z + 1)%R /\
    ((z = 0%Z /\ exists s, Prim2SF (F64.round c) = S754_zero s) \/
     ((1 <= z)%Z /\ F64.round c = F64.of_Z z)).
Proof.
  rewrite leb_zero_nonneg, FloatAxioms.leb_spec. intros H0 Hle.
  pose proof (Prim2SF_valid c) as V. pose proof F2R_350 as H350.
  pose proof (Prim2SF_valid 350) as V350.
  assert (E350 : exists m350, Prim2SF 350 = S754_finite false m350 (-44))
    by (eexists; reflexivity).
  destruct E350 as [m350 E350]. rewrite E350 in Hle, H350, V350.
  unfold F64.round.
  destruct (Prim2SF c) as [s|[]| |[] m e] eqn:Ec; try (cbn in H0; discriminate H0);
    try (cbn in Hle; discriminate Hle).
  - exists 0%Z. split; [lia|]. split; [cbn [F2R]; lra|].
    left. split; [reflexivity|]. exists s. exact Ec.
  - pose proof (@SFleb_F2R _ _ _ _ V V350 Hle) as Hv. rewrite H350 in Hv.
    apply F64Range.SFleb_finite_pos in Hle.
    assert (He : (e < 0)%Z) by lia.
    destruct (Z.leb_spec 0 e) as [|_]; [lia|].
    pose proof (@roundZ_spec m e He) as Hz. pose proof (F2R_pos m e) as Hp.
    cbn [roundZ] in Hz.
    set (z := ((2 * Z.pos m + 2 ^ (- e)) / 2 ^ (- e + 1))%Z) in *.
    assert (Hz0 : (0 <= z)%Z).
    { apply Z.div_pos; [|apply Z.pow_pos_nonneg; lia].
      assert (0 < 2 ^ (- e))%Z by (apply Z.pow_pos_nonneg; lia). lia. }
    assert (Hz1 : (z <= 350)%Z).
    { assert (IZR z < 351)%R by lra. apply lt_IZR in H. lia. }
    exists z. split; [lia|]. split; [exact Hz|].
    unfold F64.signed_zero. destruct (Z.eqb_spec z 0) as [E0|E0].
    + left. split; [exact E0|]. exists false. reflexivity.
    + right. split; [lia|reflexivity].
Qed.

Lemma SFleb_zero_left (s : bool) (y : spec_float) :
  SFleb (S754_zero s) y = SFleb (S754_zero false) y.
Proof. destruct y as [[]|[]| |[] m e]; reflexivity. Qed.

Lemma round_mono (c1 c2 : float) :
  (0 <=? c1) = true -> (c1 <=? c2) = true -> (c2 <=? 350) = true ->
  (0 <=? F64.round c1) = true /\
  (F64.round c1 <=? F64.round c2) = true /\
  (F64.round c2 <=? 350) = true.
Proof.
  intros H1 Hle H2.
  assert (N2 : (0 <=? c2) = true) by (apply (@leb_trans 0 c1 c2); [reflexivity|assumption..]).
  assert (L1 : (c1 <=? 350) = true) by (apply (@leb_trans c1 c2 350); assumption).
  destruct (@round_cases _ H1 L1) as (z1 & B1 & V1 & C1).
  destruct (@round_cases _ N2 H2) as (z2 & B2 & V2 & C2).
  assert (Hz : (z1 <= z2)%Z).
  { assert (Hv : (F2R (Prim2SF c1) <= F2R (Prim2SF c2))%R).
    { rewrite leb_zero_nonneg in H1, N2. rewrite FloatAxioms.leb_spec in Hle, H2.
      pose proof (Prim2SF_valid c1) as W1. pose proof (Prim2SF_valid c2) as W2.
      assert (E350 : exists m350, Prim2SF 350 = S754_finite false m350 (-44))
        by (eexists; reflexivity).
      destruct E350 as [m350 E350]. rewrite E350 in H2.
      destruct (Prim2SF c1) as [[]|[]| |[] m1 e1]; try (cbn in H1; discriminate H1);
        destruct (Prim2SF c2) as [[]|[]| |[] m2 e2]; try (cbn in N2; discriminate N2);
        try (cbn in Hle; discriminate Hle); try (cbn in H2; discriminate H2);
        cbn [F2R]; try lra;
        try (pose proof (F2R_pos m2 e2) as Hp; cbn [F2R] in Hp; lra).
      apply (@SFleb_F2R _ _ _ _ W1 W2 Hle). }
    assert (IZR z1 < IZR z2 + 1)%R by lra.
    rewrite <- plus_IZR in H. apply lt_IZR in H. lia. }
  rewrite !FloatAxioms.leb_spec.
  destruct C1 as [[E1 [s1 R1]]|[P1 R1]], C2 as [[E2 [s2 R2]]|[P2 R2]];
    rewrite ?R1, ?R2; try lia.
  - split; [destruct s1; reflexivity|]. split; [destruct s1, s2; reflexivity|].
    destruct s2; reflexivity.
  - destruct (@of_Z_bounds z2 ltac:(lia)) as [Ha Hb].
    rewrite !FloatAxioms.leb_spec in Ha, Hb.
    split; [destruct s1; reflexivity|]. split; [|exact Hb].
    rewrite SFleb_zero_left. exact Ha.
  - destruct (@of_Z_bounds z1 ltac:(lia)) as [Ha _].
    destruct (@of_Z_bounds z2 ltac:(lia)) as [_ Hb].
    rewrite !FloatAxioms.leb_spec in Ha, Hb.
    pose proof (@of_Z_order z1 z2 ltac:(lia) ltac:(lia)) as Ho.
    rewrite FloatAxioms.leb_spec in Ho.
    repeat split; assumption.
Qed.

End F64Clamp.

(** ** applyTimeDecay on binary64 *)

Module F64TimeDecay.
Import F64Value F64Round F64Ops F64Mono F64Decay F64Clamp.
Open Scope float_scope.

Lemma applyTimeDecay_float (r : UserRating float) (last now : float) :
  lastUpdated r = Some last -> F64.truthy last = true ->
  rd (applyTimeDecay r now) =
  F64.round
    (F64.min
       (PrimFloat.sqrt
          (rd r * rd r +
           (C_PARAMETER * C_PARAMETER)%num *
           ((now - last) /
            (RATING_PERIOD_DAYS * lit 24 * lit 60 * lit 60 * lit 1000)%num)))
       350).
Proof.
  intros Hl Ht. unfold applyTimeDecay. rewrite Hl.
  change (truthy last) with (F64.truthy last). rewrite Ht. reflexivity.
Qed.

(** The deviation after the decay does not decrease when the elapsed time
    grows, and lies between 0 and 350. *)
Lemma applyTimeDecay_monotone (r : UserRating float) (last now1 now2 : float) :
  lastUpdated r = Some last -> F64.truthy last = true ->
  is_nan (rd r) = false ->
  (0 <=? now1 - last) = true -> (now1 - last <=? now2 - last) = true ->
  (0 <=? rd (applyTimeDecay r now1)) = true /\
  (rd (applyTimeDecay r now1) <=? rd (applyTimeDecay r now2)) = true /\
  (rd (applyTimeDecay r now2) <=? 350) = true.
Proof.
  intros Hl Ht Hn H0 Hle.
  rewrite (@applyTimeDecay_float r last now1 Hl Ht), (@applyTimeDecay_float r last now2 Hl Ht).
  assert (HP : Prim2SF (RATING_PERIOD_DAYS * lit 24 * lit 60 * lit 60 * lit 1000)%num =
               S754_finite false 8266973184000000 (-18)) by (vm_compute; reflexivity).
  assert (HC : Prim2SF (C_PARAMETER * C_PARAMETER)%num =
               S754_finite false 5497558138880000 (-41)) by (vm_compute; reflexivity).
  set (P := (RATING_PERIOD_DAYS * lit 24 * lit 60 * lit 60 * lit 1000)%num) in *.
  set (C := (C_PARAMETER * C_PARAMETER)%num) in *.
  destruct (@div_mono P _ _ _ _ HP H0 Hle) as [T0 Tle].
  destruct (@mul_mono C _ _ _ _ HC T0 Tle) as [U0 Ule].
  destruct (@add_mono (rd r * rd r) _ _ (@square_nonneg _ Hn) U0 Ule) as [S0 Sle].
  destruct (@sqrt_mono _ _ S0 Sle) as [Q0 Qle].
  destruct (@min_mono 350 _ _ eq_refl Q0 Qle) as (M0 & Mle & Mhi).
  apply (@round_mono _ _ M0 Mle Mhi).
Qed.

End F64TimeDecay.

(* ================================================================== *)
(** * Properties *)
(* ================================================================== *)

(** ** The runtime at work *)

(** Decimal literals denote the binary64 numbers nearest to them. *)
Example literals :
  (GLICKO_SCALE : float) = 173.7178%float /\
  (EPSILON : float) = 0.000001%float /\
  (DEFAULT_VOLATILITY : float) = 0.06%float /\
  (lit (7 # 10) : float) = 0.7%float.
Proof. repeat split; reflexivity. Qed.

(** [Math.round] rounds ties toward +infinity and keeps NaN. *)
Example Math_round_values :
  F64.round 2.5 = 3%float /\ F64.round (-2.5) = (-2)%float /\
  F64.round 111.80339887498948 = 112%float /\
  F64.round 0.49999999999999994 = 0%float /\
  is_nan (F64.round nan) = true.
Proof. repeat split; vm_compute; reflexivity. Qed.

(** [Math.exp] and [Math.log] at a few points. *)
Example Math_exp_log_values :
  F64.exp 0 = 1%float /\ F64.log 1 = 0%float /\
  (2.718281828459045 <=? F64.exp 1)%float = true /\
  (F64.exp 1 <=? 2.7182818284590455)%float = true /\
  F64.log 0 = neg_infinity /\ is_nan (F64.log (-1)) = true /\
  F64.exp neg_infinity = 0%float.
Proof. repeat split; vm_compute; reflexivity. Qed.

(** A user without ratings solves a problem rated 1500 in 600 of 1200
    seconds: the score is 1, the stored global rating rises from 1500 to
    1675 and its deviation falls from 350 to 248; one event is dispatched. *)
Example first_solve :
  outcomeScore Run.solved_two_sum 1500%float = 1%float /\
  option_map (fun rs => (rating (global rs), rd (global rs), solveCount (global rs)))
    (stored "u" (updateRatingsFromSolve "u" Run.solved_two_sum (Run.world 100)))
  = Some (1675%float, 248%float, 1) /\
  option_map (fun x => events (snd x))
    (updateRatingsFromSolve "u" Run.solved_two_sum (Run.world 100))
  = Some ["ratings-updated"%string].
Proof. repeat split; vm_compute; reflexivity. Qed.

(** ** determineTimeLimit *)

(** C7: with the default [baseMinutes], [determineTimeLimit] returns exactly
    1200 seconds whatever the problem rating is, also for the rating 2000
    and for an absent rating that the callers default to 1500; the result
    does not depend on [problemRating] at any instance of the arithmetic. *)
Theorem determineTimeLimit_is_1200 :
  (forall r : float, determineTimeLimit r None = 1200%float) /\
  determineTimeLimit 2000%float None = 1200%float /\
  (forall r : option float, determineTimeLimit (rating_or_1500 r) None = 1200%float) /\
  (forall r : R, determineTimeLimit r None = 1200%R) /\
  (forall (num : Type) (N : Number num) (r r' : num) (b : option num),
      determineTimeLimit r b = determineTimeLimit r' b).
Proof.
  repeat split; intros; try reflexivity.
  unfold determineTimeLimit, BASE_TIME_MINUTES; cbn.
  unfold Q2R; cbn. lra.
Qed.

(** ** updateRating on a rating from the future *)

(** C1, at the failing input: a valid rating (1500, rd 30, volatility 0.06)
    whose [lastUpdated] is 365 days ahead of the clock makes the decayed
    deviation the square root of 900 - 2500, which is NaN; the NaN passes
    through the loop, [Math.max], [Math.min] and [Math.round], and the
    returned rating and rd are NaN, outside [800,3500] and [30,350]. *)
Theorem updateRating_clock_behind :
  exists r',
    value (updateRating Run.ahead 1500%float 1%float (Run.world 100)) = Some r' /\
    is_nan (rd (applyTimeDecay Run.ahead 1700000000000%float)) = true /\
    is_nan (rating r') = true /\ is_nan (rd r') = true /\
    (800 <=? rating r')%float = false /\ (rating r' <=? 3500)%float = false /\
    (30 <=? rd r')%float = false /\ (rd r' <=? 350)%float = false.
Proof.
  eexists. split; [vm_compute; reflexivity|].
  vm_compute. repeat split; reflexivity.
Qed.

(** X1: the clamp of [updateRating] works on every number: the rating it
    returns is within [800, 3500] unless it is NaN, and the rd is within
    [30, 350] unless it is NaN. *)
Theorem updateRating_in_range_or_nan :
  forall (r r' : UserRating float) (p o : float) (w w' : World float),
    updateRating r p o w = Some (r', w') ->
    (is_nan (rating r') = true \/
     ((800 <=? rating r')%float = true /\ (rating r' <=? 3500)%float = true)) /\
    (is_nan (rd r') = true \/
     ((30 <=? rd r')%float = true /\ (rd r' <=? 350)%float = true)).
Proof.
  intros r r' p o w w' H. apply updateRating_inv in H.
  destruct H as (_ & _ & _ & _ & X & Y & HX & HY).
  change (rating r' = F64.round (F64.max 800 (F64.min 3500 X))) in HX.
  change (rd r' = F64.round (F64.max 30 (F64.min 350 Y))) in HY.
  rewrite HX, HY. split.
  - destruct (is_nan X) eqn:Hn.
    + left. apply F64Range.clamp_nan. exact Hn.
    + right. apply F64Range.clamp_rating. exact Hn.
  - destruct (is_nan Y) eqn:Hn.
    + left. apply F64Range.clamp_nan. exact Hn.
    + right. apply F64Range.clamp_rd. exact Hn.
Qed.

(** The first win of a new user against an equal problem. *)
Lemma updateRating_in_range_or_nan_witness :
  exists r',
    value (updateRating (Run.fresh 1500 350 0.06) 1500%float 1%float (Run.world 100))
    = Some r' /\
    (is_nan (rating r') = true \/
     ((800 <=? rating r')%float = true /\ (rating r' <=? 3500)%float = true)).
Proof.
  destruct (updateRating (Run.fresh 1500 350 0.06) 1500%float 1%float (Run.world 100))
    as [[r' w']|] eqn:Hrun; [|vm_compute in Hrun; discriminate].
  exists r'. split; [reflexivity|].
  apply (@updateRating_in_range_or_nan _ _ _ _ _ _ Hrun).
Defined.

(** ** selectCalibrationProblems *)

(** C10, at the failing input: with the single candidate "a" rated 1300,
    the target 1200 picks it and the target 1400 picks it again (its
    category is used by then, so the preferred pool is empty and the pool
    falls back to all nearby problems); the result holds the slug twice. *)
Theorem selectCalibrationProblems_repeats :
  option_map (map (@p_slug float))
    (value (selectCalibrationProblems [Run.only_1300] 8 [] (Run.world 0)))
  = Some ["a"%string; "a"%string].
Proof. vm_compute. reflexivity. Qed.

(** ** calculatePartialCredit *)

(** C2, as the code has it: [calculatePartialCredit] is 0 for an attempt
    that was not completed; for a completed one it is 1 up to the time
    limit, [1 - (ratio - 1) * 0.7] in binary64 arithmetic for a ratio in
    (1, 2], and 0 above 2.  At ratio 1.5 that is exactly 0.65; at ratio 2.0
    it is 1 - 0.7 = 0.30000000000000004, the binary64 number next above the
    literal 0.3.  In exact arithmetic the value at ratio 2 is 3/10. *)
Theorem calculatePartialCredit_cases :
  forall (t L : float) (completed : bool),
    let ratio := (t / L)%float in
    (completed = false -> calculatePartialCredit t L completed = 0%float) /\
    (completed = true -> (ratio <=? 1)%float = true ->
     calculatePartialCredit t L completed = 1%float) /\
    (completed = true -> (1 <? ratio)%float = true -> (ratio <=? 2)%float = true ->
     calculatePartialCredit t L completed = (1 - (ratio - 1) * 0.7)%float) /\
    (completed = true -> (2 <? ratio)%float = true ->
     calculatePartialCredit t L completed = 0%float) /\
    (completed = true -> ratio = 1.5%float ->
     calculatePartialCredit t L completed = 0.65%float) /\
    (completed = true -> ratio = 2%float ->
     calculatePartialCredit t L completed = 0.30000000000000004%float) /\
    calculatePartialCredit 2400%R 1200%R true = (3 / 10)%R.
Proof.
  intros t L completed ratio. subst ratio.
  rewrite F64Facts.calculatePartialCredit_float.
  repeat split.
  - intros ->. reflexivity.
  - intros -> ->. reflexivity.
  - intros -> H1 H2. rewrite (@F64Facts.ltb_leb_false _ _ H1), H2. reflexivity.
  - intros -> H2. rewrite (@F64Facts.above_2_not_below_1 _ H2).
    rewrite (@F64Facts.ltb_leb_false _ _ H2). reflexivity.
  - intros -> ->. reflexivity.
  - intros -> ->. reflexivity.
  - unfold calculatePartialCredit. cbn. unfold Ideal.leb, Q2R. cbn.
    destruct (Rle_dec _ _) as [H|H]; [exfalso; lra|].
    destruct (Rle_dec _ _) as [H'|H']; [lra|exfalso; lra].
Qed.

(** The boundary ratio 1.5: 1800 seconds against a limit of 1200. *)
Lemma calculatePartialCredit_cases_witness :
  calculatePartialCredit 1800%float 1200%float true = 0.65%float.
Proof.
  apply (calculatePartialCredit_cases 1800%float 1200%float true); reflexivity.
Defined.

(** C2, as stated, fails at the boundary ratio 2.0: 2400 seconds against a
    limit of 1200 give the ratio 2, and [1.0 - (2 - 1.0) * 0.7] is the
    binary64 difference [1 - 0.7] = 0.30000000000000004 (what a JavaScript
    console prints for it), which is above the number 0.3 and not equal to
    it. *)
Lemma calculatePartialCredit_ratio_2 :
  (2400 / 1200)%float = 2%float /\
  calculatePartialCredit 2400%float 1200%float true = 0.30000000000000004%float /\
  (calculatePartialCredit 2400%float 1200%float true =? 0.3)%float = false /\
  (0.3 <? calculatePartialCredit 2400%float 1200%float true)%float = true.
Proof. repeat split; vm_compute; reflexivity. Qed.

(** ** updateRatingsFromSolve on binary64 *)

Lemma lacks_rating_is_positive (solve : Solve float) :
  lacks_rating solve = negb (is_positive (s_rating solve)).
Proof.
  unfold lacks_rating, is_positive. destruct (s_rating solve) as [r|]; [|reflexivity].
  change (@truthy float _ r) with (F64.truthy r).
  change (@leb float _ r (lit 0)) with (r <=? 0)%float.
  destruct (0 <? r)%float eqn:Hp; cbn.
  - rewrite (@F64Facts.positive_truthy _ Hp), (@F64Facts.positive_not_le _ Hp). reflexivity.
  - apply F64Facts.not_positive_falsy_or_le. exact Hp.
Qed.

Lemma outcomeScore_float (solve : Solve float) (r : float) :
  outcomeScore solve r =
  if is_positive (s_timeUsed solve) then
    match s_timeUsed solve with
    | Some t => calculatePartialCredit t (determineTimeLimit r None)
                  (String.eqb (s_status solve) "Accepted")
    | None => 0%float
    end
  else if String.eqb (s_status solve) "Accepted" then 1%float else 0.1%float.
Proof.
  unfold outcomeScore, is_positive. destruct (s_timeUsed solve) as [t|]; [|reflexivity].
  change (@truthy float _ t) with (F64.truthy t).
  change (@ltb float _ (lit 0) t) with (0 <? t)%float.
  destruct (0 <? t)%float eqn:Hp.
  - rewrite (@F64Facts.positive_truthy _ Hp). reflexivity.
  - rewrite andb_false_r. reflexivity.
Qed.

(** C8: a solve without a positive rating leaves the world as it is (no
    load, no save, no event).  Otherwise the outcome score is
    [calculatePartialCredit(timeUsed, determineTimeLimit(rating), status = Accepted)]
    when [timeUsed] is positive and 1.0 or 0.1 by the status when it is
    absent or not positive, and the stored global rating and the stored
    rating of every tag other than "Random" are results of [updateRating]
    with the solve's rating and that score. *)
Theorem updateRatingsFromSolve_outcome :
  (forall (username : string) (solve : Solve float) (w : World float),
      is_positive (s_rating solve) = false ->
      updateRatingsFromSolve username solve w = Some (tt, w)) /\
  (forall (solve : Solve float) (r : float),
      outcomeScore solve r =
      if is_positive (s_timeUsed solve) then
        match s_timeUsed solve with
        | Some t => calculatePartialCredit t (determineTimeLimit r None)
                      (String.eqb (s_status solve) "Accepted")
        | None => 0%float
        end
      else if String.eqb (s_status solve) "Accepted" then 1%float else 0.1%float) /\
  (forall (username : string) (solve : Solve float) (r : float) (w w' : World float),
      s_rating solve = Some r ->
      (0 <? r)%float = true ->
      updateRatingsFromSolve username solve w = Some (tt, w') ->
      exists final,
        Map_get (ratings_key username) (db w') = Some final /\
        (exists ratings0 wa wb,
            (match Map_get (ratings_key username) (db w) with
             | Some x => ret x
             | None => initializeRatings username
             end) w = Some (ratings0, wa) /\
            updateRating (global ratings0) r (outcomeScore solve r) wa
            = Some (global final, wb)) /\
        (forall tag, In tag (s_tags solve) -> tag <> "Random"%string ->
          exists categoryRating wa wb r',
            updateRating categoryRating r (outcomeScore solve r) wa = Some (r', wb) /\
            Map_get tag (categories final) = Some r')).
Proof.
  split; [|split].
  - intros username solve w Hp. apply updateRatingsFromSolve_skips.
    rewrite lacks_rating_is_positive, Hp. reflexivity.
  - apply outcomeScore_float.
  - intros username solve r w w' Hr Hp Hrun.
    apply (@updateRatingsFromSolve_applies _ _ username solve r w w' Hr); [|exact Hrun].
    rewrite lacks_rating_is_positive, Hr. cbn. rewrite Hp. reflexivity.
Qed.

(** An accepted solve of a problem rated 1500, in 600 seconds, by a user
    without stored ratings: the stored global rating is an [updateRating]
    result with the score of that solve. *)
Lemma updateRatingsFromSolve_outcome_witness :
  exists final ratings0 wa wb,
    stored "u" (updateRatingsFromSolve "u" Run.solved_two_sum (Run.world 100)) = Some final /\
    updateRating (global ratings0) 1500%float
      (outcomeScore Run.solved_two_sum 1500%float) wa = Some (global final, wb).
Proof.
  destruct updateRatingsFromSolve_outcome as (_ & _ & H).
  destruct (updateRatingsFromSolve "u" Run.solved_two_sum (Run.world 100))
    as [[[] w']|] eqn:Hrun; [|vm_compute in Hrun; discriminate].
  destruct (H "u"%string Run.solved_two_sum 1500%float (Run.world 100) w'
              eq_refl eq_refl Hrun)
    as (final & Hget & (ratings0 & wa & wb & _ & Hup) & _).
  exists final, ratings0, wa, wb. split; [exact Hget|exact Hup].
Defined.

(** ** updateRating: determinism *)

(** C9: two runs of [updateRating] on the same rating, problem rating and
    outcome, under a clock frozen at the same value and the same loop
    allowance, return the same result (the same rating, rd, volatility,
    lastUpdated and solveCount, or neither returns), whatever else differs
    between the two worlds.  The embedding has no exception: the source has
    no [throw] and its arithmetic is total. *)
Theorem updateRating_deterministic :
  forall (num : Type) (N : Number num) (r : UserRating num) (p o c : num)
         (w1 w2 : World num),
    fuel w1 = fuel w2 ->
    (forall k, clock w1 k = c) ->
    (forall k, clock w2 k = c) ->
    value (updateRating r p o w1) = value (updateRating r p o w2).
Proof.
  intros num N r p o c w1 w2 Hf H1 H2.
  unfold updateRating, bind, Date_now, get_fuel, liftO, ret, value.
  cbn [clock ticks fuel tick].
  rewrite !H1, !H2, Hf.
  volatility_cases; cbn [clock ticks fuel tick]; rewrite ?H1, ?H2; reflexivity.
Qed.

(** Two calls in succession: the second starts where the first ended. *)
Lemma updateRating_deterministic_witness :
  value (updateRating (Run.fresh 1500 350 0.06) 1500%float 1%float (Run.world 100)) =
  value (updateRating (Run.fresh 1500 350 0.06) 1500%float 1%float
           (tick (tick (Run.world 100)))).
Proof.
  apply (@updateRating_deterministic float _ _ _ _ 1700000000000%float);
    intros; reflexivity.
Defined.

(** ** updateRating: the volatility loop *)

(** C4, as the code has it: the volatility step has no iteration bound
    and no failure result.  [B] is the value of the first branch, or
    [a - k * TAU] for the first [k = 1, 2, ...] at which [f(a - k * TAU) < 0]
    is false, found after [j] passes of the bracketing loop.  If the test
    [|B - A| > EPSILON] of the Illinois loop holds before each of the first
    [i] passes through its body and fails after them, then [updateRating]
    returns, with the volatility [exp(A / 2)] for the [A] of that moment:
    for every [i] and [j], provided the world allows the loops that many
    passes; with fewer passes allowed the model has no result, and the code
    keeps looping.  A call that returns has ended its loops in this
    way. *)
Theorem volatility_loop_unbounded :
  forall (num : Type) (N : Number num) (r : UserRating num) (p o : num) (w : World num),
    let vs := volatilityStep (applyTimeDecay r (clock w (ticks w))) p o in
    let a := vs_a vs in
    let f := vs_f vs in
    let state (B : num) (i : nat) := Nat.iter i (illinois_step f) (a, B, f a, f B) in
    let brackets (j : nat) (B : num) :=
      match vs_B vs with
      | Some B0 => j = 0 /\ B = B0
      | None =>
          (forall j', j' < j -> (f (a - bracket_k j' * TAU) <? lit 0)%num = true) /\
          (f (a - bracket_k j * TAU) <? lit 0)%num = false /\
          B = (a - bracket_k j * TAU)%num
      end in
    let ends (B : num) (i : nat) :=
      (forall i', i' < i -> illinois_test (state B i') = true) /\
      illinois_test (state B i) = false in
    (forall (j : nat) (B : num) (i : nat), brackets j B -> ends B i ->
       if Nat.leb j (fuel w) && Nat.leb i (fuel w)
       then exists r', updateRating r p o w = Some (r', tick (tick w)) /\
                       volatility r' = Math_exp (illinois_A (state B i) / lit 2)%num
       else updateRating r p o w = None) /\
    (forall (r' : UserRating num) (w' : World num),
       updateRating r p o w = Some (r', w') ->
       exists j B i, brackets j B /\ ends B i /\ j <= fuel w /\ i <= fuel w /\
         w' = tick (tick w) /\
         volatility r' = Math_exp (illinois_A (state B i) / lit 2)%num).
Proof.
  intros num N r p o w vs a f state brackets ends.
  pose proof (@updateRating_loops _ _ r p o w _ eq_refl) as Hrun.
  cbv zeta in Hrun. change (volatilityStep _ p o) with vs in Hrun.
  change (vs_a vs) with a in Hrun. change (vs_f vs) with f in Hrun.
  split.
  - intros j B i Hb [Hlt Hend]. unfold brackets in Hb.
    destruct (vs_B vs) as [B0|] eqn:EB; rewrite ?EB in Hrun.
    + destruct Hb as [-> ->]. cbn [Nat.leb andb].
      rewrite (@illinois_loop_from _ _ f i (fuel w) a B0 (f a) (f B0) Hlt Hend) in Hrun.
      destruct (Nat.leb i (fuel w)); exact Hrun.
    + destruct Hb as (Hj & Hjend & ->).
      rewrite (@bracket_loop_from _ _ f a j (fuel w) (lit 1) Hj Hjend) in Hrun.
      destruct (Nat.leb j (fuel w)); cbn [andb]; [|exact Hrun].
      fold (bracket_k j) in Hrun.
      rewrite (@illinois_loop_from _ _ f i (fuel w) a _ (f a) _ Hlt Hend) in Hrun.
      destruct (Nat.leb i (fuel w)); exact Hrun.
  - intros r' w' H. unfold brackets. 
    destruct (vs_B vs) as [B0|] eqn:EB; rewrite ?EB in Hrun.
    + destruct (illinois_loop (fuel w) f a B0 (f a) (f B0)) as [A|] eqn:EA;
        [|congruence].
      destruct Hrun as (r1 & Hr1 & Hv). rewrite H in Hr1. inversion Hr1; subst r1 w'.
      destruct (@illinois_loop_ends _ _ f _ _ _ _ _ _ EA) as (i & Hi & Hlt & Hend & ->).
      exists 0, B0, i. repeat split; try assumption; lia.
    + destruct (bracket_loop (fuel w) f a (lit 1)) as [k|] eqn:Ek; [|congruence].
      destruct (@bracket_loop_ends _ _ f a _ _ _ Ek) as (j & Hj & Hjlt & Hjend & ->).
      fold (bracket_k j) in Hrun.
      destruct (illinois_loop (fuel w) f a (a - bracket_k j * TAU)%num (f a)
                  (f (a - bracket_k j * TAU)%num)) as [A|] eqn:EA; [|congruence].
      destruct Hrun as (r1 & Hr1 & Hv). rewrite H in Hr1. inversion Hr1; subst r1 w'.
      destruct (@illinois_loop_ends _ _ f _ _ _ _ _ _ EA) as (i & Hi & Hlt & Hend & ->).
      exists j, (a - bracket_k j * TAU)%num, i.
      repeat split; try assumption.
Qed.

Lemma forallb_below (p : nat -> bool) (n : nat) :
  forallb p (seq 0 n) = true -> forall i, i < n -> p i = true.
Proof.
  intros H i Hi. rewrite forallb_forall in H. apply H. apply in_seq. lia.
Qed.

(** A first win against an equal problem, from the default rating: the
    bracketing loop takes no pass and the Illinois loop two; with one pass
    allowed there is no result. *)
Lemma volatility_loop_unbounded_witness :
  (exists r',
     updateRating (Run.fresh 1500 350 0.06) 1500%float 1%float (Run.world 100) =
     Some (r', tick (tick (Run.world 100))) /\
     volatility r' =
     F64.exp
       (illinois_A
          (Nat.iter 2 (illinois_step (vs_f Run.first_win))
             (vs_a Run.first_win, (vs_a Run.first_win - bracket_k 0 * TAU)%num,
              vs_f Run.first_win (vs_a Run.first_win), vs_f Run.first_win (vs_a Run.first_win - bracket_k 0 * TAU)%num)) / 2)%float) /\
  updateRating (Run.fresh 1500 350 0.06) 1500%float 1%float (Run.world 1) = None.
Proof.
  assert (Hb : match vs_B Run.first_win with
               | Some B0 => 0 = 0 /\ (vs_a Run.first_win - bracket_k 0 * TAU)%num = B0
               | None =>
                   (forall j', j' < 0 ->
                      (vs_f Run.first_win (vs_a Run.first_win - bracket_k j' * TAU) <? lit 0)%num = true) /\
                   (vs_f Run.first_win (vs_a Run.first_win - bracket_k 0 * TAU) <? lit 0)%num = false /\
                   (vs_a Run.first_win - bracket_k 0 * TAU)%num = (vs_a Run.first_win - bracket_k 0 * TAU)%num
               end).
  { assert (E : vs_B Run.first_win = None) by (vm_compute; reflexivity). rewrite E.
    split; [intros j' Hj'; lia|]. split; [vm_compute; reflexivity|reflexivity]. }
  assert (He : (forall i', i' < 2 ->
                  illinois_test
                    (Nat.iter i' (illinois_step (vs_f Run.first_win))
                       (vs_a Run.first_win, (vs_a Run.first_win - bracket_k 0 * TAU)%num,
                        vs_f Run.first_win (vs_a Run.first_win),
                        vs_f Run.first_win (vs_a Run.first_win - bracket_k 0 * TAU)%num)) = true) /\
               illinois_test
                 (Nat.iter 2 (illinois_step (vs_f Run.first_win))
                    (vs_a Run.first_win, (vs_a Run.first_win - bracket_k 0 * TAU)%num,
                     vs_f Run.first_win (vs_a Run.first_win),
                     vs_f Run.first_win (vs_a Run.first_win - bracket_k 0 * TAU)%num)) = false).
  { split; [|vm_compute; reflexivity].
    apply (forallb_below
             (fun i' => illinois_test
                          (Nat.iter i' (illinois_step (vs_f Run.first_win))
                             (vs_a Run.first_win, (vs_a Run.first_win - bracket_k 0 * TAU)%num,
                              vs_f Run.first_win (vs_a Run.first_win),
                              vs_f Run.first_win (vs_a Run.first_win - bracket_k 0 * TAU)%num)))).
    vm_compute. reflexivity. }
  split.
  - exact (proj1 (volatility_loop_unbounded F64_number (Run.fresh 1500 350 0.06)
                    1500%float 1%float (Run.world 100)) 0 _ 2 Hb He).
  - exact (proj1 (volatility_loop_unbounded F64_number (Run.fresh 1500 350 0.06)
                    1500%float 1%float (Run.world 1)) 0 _ 2 Hb He).
Defined.

(** C4, as stated, fails: for the valid rating (1500, rd 350, volatility
    1e-50) and a win against a problem rated 1500, one hundred iterations
    do not end the loop, and with more iterations [updateRating] returns an
    ordinary result (rating 1675, rd 248): nothing bounds the iterations
    and no fault is raised. *)
Lemma volatility_loop_exceeds_100 :
  updateRating (Run.fresh 1500 350 1e-50) 1500%float 1%float (Run.world 100) = None /\
  option_map (fun r => (rating r, rd r, solveCount r))
    (value (updateRating (Run.fresh 1500 350 1e-50) 1500%float 1%float (Run.world 400)))
  = Some (1675%float, 248%float, 1).
Proof. split; vm_compute; reflexivity. Qed.

(** ** applyTimeDecay *)

(** C6, as the code has it: [applyTimeDecay] returns its input when
    [lastUpdated] is unset or falsy (zero, NaN); otherwise it sets
    [lastUpdated] to now and [rd] to the capped deviation rounded to an
    integer, [Math.round(min(sqrt(rd^2 + 50^2 * elapsedPeriods), 350))],
    with one period of 365 days.  On binary64, as the code runs: for a
    deviation that is not NaN and an elapsed time [now - lastUpdated] that
    is zero or above, that rd does not decrease when the elapsed time
    grows, and it lies between 0 and 350. *)
Theorem applyTimeDecay_spec :
  (forall (num : Type) (N : Number num) (r : UserRating num) (now : num),
      truthy_opt (lastUpdated r) = false -> applyTimeDecay r now = r) /\
  (forall (num : Type) (N : Number num) (r : UserRating num) (last now : num),
      lastUpdated r = Some last -> truthy last = true ->
      applyTimeDecay r now =
      {| rating := rating r;
         rd := Math_round
                 (Math_min
                    (Math_sqrt
                       (rd r * rd r +
                        lit 50 * lit 50 *
                        ((now - last) / (lit 365 * lit 24 * lit 60 * lit 60 * lit 1000))))
                    (lit 350))%num;
         volatility := volatility r;
         lastUpdated := Some now;
         solveCount := solveCount r |}) /\
  (forall (r : UserRating float) (last now1 now2 : float),
      lastUpdated r = Some last -> F64.truthy last = true ->
      is_nan (rd r) = false ->
      (0 <=? now1 - last)%float = true ->
      (now1 - last <=? now2 - last)%float = true ->
      (0 <=? rd (applyTimeDecay r now1))%float = true /\
      (rd (applyTimeDecay r now1) <=? rd (applyTimeDecay r now2))%float = true /\
      (rd (applyTimeDecay r now2) <=? 350)%float = true).
Proof.
  split; [|split].
  - intros num N r now H. unfold applyTimeDecay.
    destruct (lastUpdated r) as [t|]; [|reflexivity].
    cbn in H. rewrite H. reflexivity.
  - intros num N r last now Hl Ht. unfold applyTimeDecay. rewrite Hl, Ht. reflexivity.
  - intros r last now1 now2 Hl Ht Hn H0 Hle.
    apply (@F64TimeDecay.applyTimeDecay_monotone r last now1 now2 Hl Ht Hn H0 Hle).
Qed.

(** A rating of deviation 100 last updated 365 days before the clock, at
    the time of the clock and 365 days later. *)
Lemma applyTimeDecay_spec_witness :
  (0 <=? rd (applyTimeDecay Run.year_old 1700000000000))%float = true /\
  (rd (applyTimeDecay Run.year_old 1700000000000) <=?
   rd (applyTimeDecay Run.year_old 1731536000000))%float = true /\
  (rd (applyTimeDecay Run.year_old 1731536000000) <=? 350)%float = true.
Proof.
  destruct applyTimeDecay_spec as (_ & _ & H).
  exact (H Run.year_old 1668464000000%float 1700000000000%float 1731536000000%float
           eq_refl eq_refl eq_refl eq_refl eq_refl).
Defined.

(** C6, as stated, fails: a deviation of 100 last updated 365 days ago
    decays to the integer 112, not to sqrt(100^2 + 50^2 * 1) =
    111.80339887498948 capped at 350. *)
Lemma applyTimeDecay_rounds :
  rd (applyTimeDecay Run.year_old 1700000000000%float) = 112%float /\
  ((1700000000000 - 1668464000000) / (365 * 24 * 60 * 60 * 1000))%float = 1%float /\
  F64.min (PrimFloat.sqrt (100 * 100 + 50 * 50 * 1)) 350 = 111.80339887498948%float /\
  (rd (applyTimeDecay Run.year_old 1700000000000%float) =? 111.80339887498948)%float = false.
Proof. repeat split; vm_compute; reflexivity. Qed.

(* ================================================================== *)
(** * Further properties of the rating sync *)
(* ================================================================== *)

Section SyncFacts.
Context {num : Type} {N : Number num}.
Local Open Scope num_scope.

Lemma with_store_self (w : World num) : with_store (db w) (events w) w = w.
Proof. destruct w. reflexivity. Qed.

Lemma store_free_ret {A} (a : A) : store_free (@ret num A a).
Proof. intros d e w. reflexivity. Qed.

Lemma store_free_bind {A B} (c : @M num A) (k : A -> @M num B) :
  store_free c -> (forall a, store_free (k a)) -> store_free (bind c k).
Proof.
  intros Hc Hk d e w. unfold bind. rewrite Hc.
  destruct (c w) as [[a w1]|]; [apply Hk|reflexivity].
Qed.

Lemma store_free_Date_now : store_free (@Date_now num).
Proof. intros d e w. reflexivity. Qed.

Lemma store_free_Math_random : store_free (@Math_random num).
Proof. intros d e w. reflexivity. Qed.

Lemma store_free_get_fuel : store_free (@get_fuel num).
Proof. intros d e w. reflexivity. Qed.

Lemma store_free_liftO {A} (o : option A) : store_free (@liftO num A o).
Proof. intros d e w. destruct o; reflexivity. Qed.

Lemma store_free_foldM {A B} (f : A -> B -> @M num A) (l : list B) (a : A) :
  (forall a b, store_free (f a b)) -> store_free (foldM f l a).
Proof.
  intros Hf. revert a. induction l as [|b l IH]; intros a; cbn [foldM].
  - apply store_free_ret.
  - apply store_free_bind; [apply Hf|]. intros a'. apply IH.
Qed.

Lemma store_free_initializeRating : store_free (@initializeRating num N).
Proof. intros d e w. reflexivity. Qed.

Lemma store_free_updateRating (r : UserRating num) (p o : num) :
  store_free (updateRating r p o).
Proof.
  unfold updateRating.
  apply store_free_bind; [apply store_free_Date_now|]. intros currentTime.
  apply store_free_bind; [apply store_free_get_fuel|]. intros n.
  apply store_free_bind.
  { match goal with |- context [if ?c then _ else _] => destruct c end.
    - apply store_free_ret.
    - apply store_free_bind; [apply store_free_liftO|]. intros k. apply store_free_ret. }
  intros B.
  apply store_free_bind; [apply store_free_liftO|]. intros A.
  apply store_free_bind; [apply store_free_Date_now|]. intros now.
  apply store_free_ret.
Qed.


Lemma store_free_tagStep (solveRating score : num) (ratings : UserRatings num) (tag : string) :
  store_free (tagStep solveRating score ratings tag).
Proof.
  unfold tagStep. destruct (String.eqb tag "Random"); [apply store_free_ret|].
  apply store_free_bind.
  - destruct (Map_get tag (categories ratings)); [apply store_free_ret|].
    apply store_free_bind; [apply store_free_initializeRating|]. intros r.
    apply store_free_ret.
  - intros cr. apply store_free_bind; [apply store_free_updateRating|].
    intros r'. apply store_free_ret.
Qed.

Lemma store_free_applySolve (ratings : UserRatings num) (solve : Solve num) :
  store_free (applySolve ratings solve).
Proof.
  unfold applySolve.
  apply store_free_bind; [apply store_free_updateRating|]. intros g'.
  apply store_free_foldM; intros; apply store_free_tagStep.
Qed.

Lemma store_free_solveStep (st : UserRatings num * nat) (solve : Solve num) :
  store_free (solveStep st solve).
Proof.
  destruct st as [ratings n]. unfold solveStep.
  destruct (lacks_rating solve); [apply store_free_ret|].
  apply store_free_bind; [apply store_free_applySolve|].
  intros r. apply store_free_ret.
Qed.

(** A computation that leaves the store and the events alone returns a
    world with the store and the events it started from. *)
Lemma store_free_keeps {A} (c : @M num A) (a : A) (w w' : World num) :
  store_free c -> c w = Some (a, w') -> db w' = db w /\ events w' = events w.
Proof.
  intros Hc H. pose proof (Hc (db w) (events w) w) as Hf.
  rewrite with_store_self, H in Hf. inversion Hf as [Hw].
  rewrite Hw at 1 2. split; reflexivity.
Qed.

Lemma Map_set_set {V} (k : string) (v1 v2 : V) (m : list (string * V)) :
  Map_set k v2 (Map_set k v1 m) = Map_set k v2 m.
Proof.
  induction m as [|[k' v'] m IH]; cbn.
  - rewrite String.eqb_refl. reflexivity.
  - destruct (String.eqb k k') eqn:Ek; cbn.
    + rewrite String.eqb_refl. reflexivity.
    + rewrite Ek, IH. reflexivity.
Qed.


(** ** The batch sync and the single sync *)

Lemma updateRatingsFromSolve_rated (username : string) (solve : Solve num) (w : World num) :
  lacks_rating solve = false ->
  updateRatingsFromSolve username solve w =
  bind (getRatings username)
    (fun stored =>
       bind (match stored with Some r => ret r | None => initializeRatings username end)
         (fun ratings =>
            bind (applySolve ratings solve)
              (fun ratings =>
                 bind (saveRatings username ratings)
                   (fun _ => dispatchEvent RATINGS_UPDATED_EVENT)))) w.
Proof.
  intros Hl. unfold updateRatingsFromSolve, applySolve. rewrite Hl.
  unfold bind.
  destruct (getRatings username w) as [[st w0]|]; [|reflexivity].
  destruct (match st with Some r => ret r | None => initializeRatings username end w0)
    as [[r0 w1]|]; [|reflexivity].
  destruct (updateRating _ _ _ w1) as [[g' w2]|]; reflexivity.
Qed.


Lemma bind_assoc {A B C} (c : @M num A) (k : A -> @M num B) (k' : B -> @M num C)
      (w : World num) :
  bind (bind c k) k' w = bind c (fun a => bind (k a) k') w.
Proof. unfold bind. destruct (c w) as [[a w1]|]; reflexivity. Qed.

Lemma solveStep_unrated (r : UserRatings num) (n : nat) (solve : Solve num) :
  lacks_rating solve = true -> solveStep (r, n) solve = ret (r, n).
Proof. intros Hl. unfold solveStep. rewrite Hl. reflexivity. Qed.

Lemma solveStep_rated (r : UserRatings num) (n : nat) (solve : Solve num) :
  lacks_rating solve = false ->
  solveStep (r, n) solve = bind (applySolve r solve) (fun r1 => ret (r1, S n)).
Proof. intros Hl. unfold solveStep. rewrite Hl. reflexivity. Qed.

Lemma eachSolve_unrated (username : string) (s : Solve num) (ss : list (Solve num))
      (w : World num) :
  lacks_rating s = true -> eachSolve username (s :: ss) w = eachSolve username ss w.
Proof.
  intros Hl. unfold eachSolve. cbn [foldM]. unfold bind.
  rewrite (updateRatingsFromSolve_skips username s _ Hl). reflexivity.
Qed.

Lemma eachSolve_rated (username : string) (s : Solve num) (ss : list (Solve num))
      (r : UserRatings num) (w : World num) :
  lacks_rating s = false ->
  Map_get (ratings_key username) (db w) = Some r ->
  eachSolve username (s :: ss) w =
  match applySolve r s w with
  | Some (r1, w1) =>
      eachSolve username ss
        (with_store (Map_set (ratings_key username) r1 (db w1))
           (events w1 ++ [RATINGS_UPDATED_EVENT]) w1)
  | None => None
  end.
Proof.
  intros Hl Hr. unfold eachSolve. cbn [foldM]. unfold bind at 1.
  rewrite (@updateRatingsFromSolve_rated username s _ Hl).
  unfold bind, getRatings. rewrite Hr. cbn [ret].
  destruct (applySolve r s w) as [[r1 w1]|]; reflexivity.
Qed.

Local Abbreviation finish username :=
  (fun st : UserRatings num * nat =>
     if Nat.ltb 0 (snd st)
     then bind (saveRatings username (fst st))
            (fun _ => dispatchEvent RATINGS_UPDATED_EVENT)
     else ret tt).

Lemma batch_unrated (username : string) (s : Solve num) (ss : list (Solve num))
      (r : UserRatings num) (n : nat) (w : World num) :
  lacks_rating s = true ->
  bind (foldM solveStep (s :: ss) (r, n)) (finish username) w =
  bind (foldM solveStep ss (r, n)) (finish username) w.
Proof.
  intros Hl. cbn [foldM]. rewrite (@solveStep_unrated r n s Hl). reflexivity.
Qed.

Lemma batch_rated (username : string) (s : Solve num) (ss : list (Solve num))
      (r : UserRatings num) (n : nat) (w : World num) :
  lacks_rating s = false ->
  bind (foldM solveStep (s :: ss) (r, n)) (finish username) w =
  match applySolve r s w with
  | Some (r1, w1) => bind (foldM solveStep ss (r1, S n)) (finish username) w1
  | None => None
  end.
Proof.
  intros Hl. cbn [foldM]. rewrite (@solveStep_rated r n s Hl).
  unfold bind. destruct (applySolve r s w) as [[r1 w1]|]; reflexivity.
Qed.

(** Once a solve has been counted, the rest of the batch leaves the store
    as the single calls do that start from the saved ratings. *)
Lemma batch_tail (username : string) (solves : list (Solve num)) :
  forall (r : UserRatings num) (n : nat) (w : World num) (es : list string),
    0 < n ->
    silent (bind (foldM solveStep solves (r, n)) (finish username) w)
    = silent (eachSolve username solves
                (with_store (Map_set (ratings_key username) r (db w)) es w)).
Proof.
  induction solves as [|s ss IH]; intros r n w es Hn.
  - destruct n as [|n]; [lia|]. reflexivity.
  - destruct (lacks_rating s) eqn:Hl.
    + rewrite (@batch_unrated username s ss r n w Hl), (@eachSolve_unrated username s ss _ Hl).
      apply IH. exact Hn.
    + rewrite (@batch_rated username s ss r n w Hl).
      rewrite (@eachSolve_rated username s ss r _ Hl)
        by (cbn; apply Map_get_set_same).
      rewrite (store_free_applySolve r s).
      destruct (applySolve r s w) as [[r1 w1]|] eqn:Hap; [|reflexivity].
      destruct (@store_free_keeps _ _ _ _ _ (store_free_applySolve r s) Hap) as [Hdb _].
      cbn [db with_store with_events with_db events].
      rewrite Map_set_set.
      rewrite (IH r1 (S n) w1 (es ++ [RATINGS_UPDATED_EVENT])) by lia.
      rewrite Hdb. reflexivity.
Qed.


Local Abbreviation load username :=
  (bind (getRatings username)
     (fun stored =>
        match stored with
        | Some r => ret r
        | None => initializeRatings username
        end)).

Lemma load_inv (username : string) (w w0 : World num) (r0 : UserRatings num) :
  load username w = Some (r0, w0) ->
  events w0 = events w /\ draws w0 = draws w /\
  Map_get (ratings_key username) (db w0) = Some r0 /\
  ((Map_get (ratings_key username) (db w) = Some r0 /\ w0 = w) \/
   (Map_get (ratings_key username) (db w) = None /\
    r0 = {| global := {| rating := DEFAULT_RATING; rd := DEFAULT_RD;
                         volatility := DEFAULT_VOLATILITY;
                         lastUpdated := Some (clock w (ticks w));
                         solveCount := 0 |};
            categories := [] |} /\
    w0 = with_db (Map_set (ratings_key username) r0 (db w)) (tick w))).
Proof.
  unfold bind, getRatings.
  destruct (Map_get (ratings_key username) (db w)) as [r|] eqn:Hg.
  - intros H. inversion H; subst. repeat split; try assumption. left. split; reflexivity.
  - unfold initializeRatings, bind, saveRatings. rewrite initializeRating_run. cbn [ret].
    intros H. inversion H; subst. cbn. repeat split.
    + apply Map_get_set_same.
    + right. repeat split.
Qed.

Lemma updateRatingsFromSolves_cons (username : string) (s : Solve num)
      (ss : list (Solve num)) (w : World num) :
  updateRatingsFromSolves username (s :: ss) w =
  match load username w with
  | Some (r0, w0) => bind (foldM solveStep (s :: ss) (r0, 0)) (finish username) w0
  | None => None
  end.
Proof.
  unfold updateRatingsFromSolves. rewrite <- bind_assoc. unfold bind at 1.
  destruct (load username w) as [[r0 w0]|]; reflexivity.
Qed.

Lemma eachSolve_first (username : string) (s : Solve num) (ss : list (Solve num))
      (w : World num) :
  lacks_rating s = false ->
  eachSolve username (s :: ss) w =
  match load username w with
  | Some (r0, w0) =>
      match applySolve r0 s w0 with
      | Some (r1, w1) =>
          eachSolve username ss
            (with_store (Map_set (ratings_key username) r1 (db w1))
               (events w1 ++ [RATINGS_UPDATED_EVENT]) w1)
      | None => None
      end
  | None => None
  end.
Proof.
  intros Hl. unfold eachSolve. cbn [foldM]. unfold bind at 1.
  rewrite (@updateRatingsFromSolve_rated username s _ Hl).
  rewrite <- bind_assoc. unfold bind at 1.
  destruct (load username w) as [[r0 w0]|]; [|reflexivity].
  unfold bind. destruct (applySolve r0 s w0) as [[r1 w1]|]; reflexivity.
Qed.

Lemma batch_eachSolve (username : string) (solves : list (Solve num)) (w : World num) :
  existsb (fun s => negb (lacks_rating s)) solves = true ->
  silent (updateRatingsFromSolves username solves w) = silent (eachSolve username solves w).
Proof.
  intros Hex. destruct solves as [|s0 ss0]; [discriminate|].
  rewrite updateRatingsFromSolves_cons.
  revert Hex. generalize (s0 :: ss0) as solves. clear s0 ss0.
  induction solves as [|s ss IH]; intros Hex; [discriminate|].
  cbn [existsb] in Hex.
  destruct (lacks_rating s) eqn:Hl; cbn [negb orb] in Hex.
  - rewrite (@eachSolve_unrated username s ss _ Hl). rewrite <- (IH Hex).
    destruct (load username w) as [[r0 w0]|]; [|reflexivity].
    rewrite (@batch_unrated username s ss r0 0 w0 Hl). reflexivity.
  - rewrite (@eachSolve_first username s ss _ Hl).
    destruct (load username w) as [[r0 w0]|]; [|reflexivity].
    rewrite (@batch_rated username s ss r0 0 w0 Hl).
    destruct (applySolve r0 s w0) as [[r1 w1]|]; [|reflexivity].
    apply batch_tail. lia.
Qed.


(** ** What a run changes in the world *)

Lemma iter_tick (k : nat) (w : World num) :
  fuel (Nat.iter k tick w) = fuel w /\ clock (Nat.iter k tick w) = clock w /\
  ticks (Nat.iter k tick w) = (ticks w + k)%nat /\
  random (Nat.iter k tick w) = random w /\ draws (Nat.iter k tick w) = draws w /\
  db (Nat.iter k tick w) = db w /\ events (Nat.iter k tick w) = events w.
Proof.
  induction k as [|k IH].
  - cbn. repeat split; lia.
  - destruct IH as (H1 & H2 & H3 & H4 & H5 & H6 & H7).
    rewrite Nat.iter_succ.
    unfold tick at 1 3 5 7 9 11 13. cbn [fuel clock ticks random draws db events].
    repeat split; try assumption. rewrite H3. lia.
Qed.

Lemma iter_tick_add (j k : nat) (w : World num) :
  Nat.iter j tick (Nat.iter k tick w) = Nat.iter (k + j) tick w.
Proof. rewrite Nat.add_comm. symmetry. apply Nat.iter_add. Qed.

Lemma tagStep_ticks (solveRating score : num) (ratings ratings' : UserRatings num)
      (tag : string) (w w' : World num) :
  tagStep solveRating score ratings tag w = Some (ratings', w') ->
  exists k, w' = Nat.iter k tick w.
Proof.
  unfold tagStep. destruct (String.eqb tag "Random").
  - intros H. apply ret_Some in H. destruct H as [_ ->]. exists 0. reflexivity.
  - intros H. apply bind_Some in H. destruct H as (cr & wa & Hc & H).
    apply bind_Some in H. destruct H as (r' & wb & Hup & H).
    apply ret_Some in H. destruct H as [_ ->].
    apply updateRating_inv in Hup. destruct Hup as [-> _].
    destruct (Map_get tag (categories ratings)).
    + apply ret_Some in Hc. destruct Hc as [_ ->]. exists 2. reflexivity.
    + apply bind_Some in Hc. destruct Hc as (r0 & w0 & Hi & Hc).
      rewrite initializeRating_run in Hi. inversion Hi; subst.
      apply ret_Some in Hc. destruct Hc as [_ ->]. exists 3. reflexivity.
Qed.

Lemma foldM_ticks {A B} (f : A -> B -> @M num A) (l : list B) :
  (forall a b a' w w', f a b w = Some (a', w') -> exists k, w' = Nat.iter k tick w) ->
  forall a a' w w', foldM f l a w = Some (a', w') -> exists k, w' = Nat.iter k tick w.
Proof.
  intros Hf. induction l as [|b l IH]; intros a a' w w' H; cbn [foldM] in H.
  - apply ret_Some in H. destruct H as [_ ->]. exists 0. reflexivity.
  - apply bind_Some in H. destruct H as (a1 & w1 & H1 & H2).
    apply Hf in H1. destruct H1 as [k1 ->].
    apply IH in H2. destruct H2 as [k2 ->].
    exists (k1 + k2)%nat. apply iter_tick_add.
Qed.

Lemma applySolve_inv (ratings final : UserRatings num) (solve : Solve num)
      (w w' : World num) :
  applySolve ratings solve w = Some (final, w') ->
  (exists k, w' = Nat.iter (2 + k) tick w) /\
  solveCount (global final) = S (solveCount (global ratings)) /\
  forall tag, ~ In tag (s_tags solve) ->
    Map_get tag (categories final) = Map_get tag (categories ratings).
Proof.
  unfold applySolve. intros H.
  apply bind_Some in H. destruct H as (g' & w1 & Hup & H).
  pose proof (@tags_keep _ _ _ _ _ _ _ _ _ H) as [Hg Hc]. cbn in Hg, Hc.
  apply updateRating_inv in Hup. destruct Hup as (-> & Hcount & _).
  split; [|split].
  - apply foldM_ticks in H; [|intros; eapply tagStep_ticks; eassumption].
    destruct H as [k ->]. exists k.
    change (tick (tick w)) with (Nat.iter 2 tick w). apply iter_tick_add.
  - rewrite Hg, Hcount. lia.
  - exact Hc.
Qed.


Lemma tags_keep_Random (solveRating score : num) (tags : list string)
      (ratings final : UserRatings num) (w w' : World num) :
  foldM (tagStep solveRating score) tags ratings w = Some (final, w') ->
  Map_get "Random" (categories final) = Map_get "Random" (categories ratings).
Proof.
  revert ratings w. induction tags as [|t ts IH]; intros ratings w H; cbn in H.
  - apply ret_Some in H. destruct H as [-> _]. reflexivity.
  - apply bind_Some in H. destruct H as (mid & w1 & Hstep & H).
    rewrite (IH _ _ H). apply tagStep_inv in Hstep.
    destruct Hstep as [[_ ->]|(Hn & cr & wa & wb & r' & _ & ->)]; [reflexivity|].
    cbn. apply Map_get_set_other. congruence.
Qed.

Lemma append_length (a b : string) :
  String.length (a ++ b) = (String.length a + String.length b)%nat.
Proof. induction a as [|c a IH]; cbn; [reflexivity|]. rewrite IH. reflexivity. Qed.

Lemma append_inj_l (s a b : string) : (a ++ s)%string = (b ++ s)%string -> a = b.
Proof.
  revert b. induction a as [|c a IH]; intros [|d b] H; cbn in H.
  - reflexivity.
  - apply (f_equal String.length) in H. cbn in H. rewrite append_length in H. lia.
  - apply (f_equal String.length) in H. cbn in H. rewrite append_length in H. lia.
  - inversion H. f_equal. apply IH. assumption.
Qed.

Lemma ratings_key_inj (u u' : string) : ratings_key u = ratings_key u' -> u = u'.
Proof. apply append_inj_l. Qed.

Lemma foldM_solveStep_count (solves : list (Solve num)) :
  forall (r r' : UserRatings num) (n n' : nat) (w w' : World num),
    foldM solveStep solves (r, n) w = Some ((r', n'), w') ->
    n' = (n + length (filter (fun s => negb (lacks_rating s)) solves))%nat.
Proof.
  induction solves as [|s ss IH]; intros r r' n n' w w' H; cbn [foldM] in H.
  - apply ret_Some in H. destruct H as [H _]. inversion H. cbn. lia.
  - apply bind_Some in H. destruct H as ([r1 n1] & w1 & Hs & H).
    apply IH in H. cbn [filter]. destruct (lacks_rating s) eqn:Hl; cbn [negb].
    + rewrite (@solveStep_unrated r n s Hl) in Hs. apply ret_Some in Hs.
      destruct Hs as [Hs _]. inversion Hs. lia.
    + rewrite (@solveStep_rated r n s Hl) in Hs.
      apply bind_Some in Hs. destruct Hs as (r2 & w2 & _ & Hs).
      apply ret_Some in Hs. destruct Hs as [Hs _]. inversion Hs. cbn [length]. lia.
Qed.

Lemma updateRatingsFromSolves_events (username : string) (solves : list (Solve num))
      (w w' : World num) :
  updateRatingsFromSolves username solves w = Some (tt, w') ->
  events w' = events w ++
    (if existsb (fun s => negb (lacks_rating s)) solves then [RATINGS_UPDATED_EVENT] else []).
Proof.
  destruct solves as [|s ss].
  - intros H. apply ret_Some in H. destruct H as [_ ->]. cbn. rewrite app_nil_r. reflexivity.
  - rewrite updateRatingsFromSolves_cons.
    destruct (load username w) as [[r0 w0]|] eqn:Hload; [|discriminate].
    apply load_inv in Hload. destruct Hload as (He & _).
    intros H. apply bind_Some in H. destruct H as ([r1 n1] & w1 & Hf & H).
    pose proof (@foldM_solveStep_count _ _ _ _ _ _ _ Hf) as Hn.
    apply (@store_free_keeps _ _ _ _ _
             (store_free_foldM solveStep (s :: ss) (r0, 0) store_free_solveStep)) in Hf.
    destruct Hf as [_ He1]. cbn [snd fst] in H.
    assert (Hex : existsb (fun s => negb (lacks_rating s)) (s :: ss) = Nat.ltb 0 n1).
    { rewrite Hn. cbn [Nat.add].
      generalize (s :: ss). intros l. induction l as [|x l IHl]; [reflexivity|].
      cbn [existsb filter]. destruct (negb (lacks_rating x)); [reflexivity|exact IHl]. }
    rewrite Hex. destruct (Nat.ltb 0 n1).
    + unfold bind, saveRatings, dispatchEvent in H. inversion H; subst. cbn.
      rewrite He1, He. reflexivity.
    + apply ret_Some in H. destruct H as [_ ->]. rewrite He1, He, app_nil_r. reflexivity.
Qed.

Lemma eachSolve_events (username : string) (solves : list (Solve num)) :
  forall (w w' : World num),
    eachSolve username solves w = Some (tt, w') ->
    events w' = events w ++
      repeat RATINGS_UPDATED_EVENT
        (length (filter (fun s => negb (lacks_rating s)) solves)).
Proof.
  induction solves as [|s ss IH]; intros w w' H.
  - apply ret_Some in H. destruct H as [_ ->]. cbn. rewrite app_nil_r. reflexivity.
  - cbn [filter]. destruct (lacks_rating s) eqn:Hl; cbn [negb].
    + rewrite (@eachSolve_unrated username s ss _ Hl) in H. apply IH. exact H.
    + rewrite (@eachSolve_first username s ss _ Hl) in H.
      destruct (load username w) as [[r0 w0]|] eqn:Hload; [|discriminate].
      apply load_inv in Hload. destruct Hload as (He & _).
      destruct (applySolve r0 s w0) as [[r1 w1]|] eqn:Hap; [|discriminate].
      destruct (@store_free_keeps _ _ _ _ _ (store_free_applySolve r0 s) Hap) as [_ He1].
      apply IH in H. rewrite H. cbn [events with_store with_events length repeat].
      rewrite He1, He, <- app_assoc. reflexivity.
Qed.


(** X2: every call of [updateRating] that returns counts one more solve,
    stamps the result with the second of the two clock readings it takes,
    and changes nothing else in the world: no random number is drawn, and
    the store and the events are neither read nor written. *)
Theorem updateRating_effects :
  forall (r r' : UserRating num) (p o : num) (w w' : World num),
    updateRating r p o w = Some (r', w') ->
    solveCount r' = S (solveCount r) /\
    lastUpdated r' = Some (clock w (S (ticks w))) /\
    w' = tick (tick w) /\
    forall d e, updateRating r p o (with_store d e w) = Some (r', with_store d e w').
Proof.
  intros r r' p o w w' H.
  pose proof (updateRating_inv _ _ _ _ H) as (Hw & Hc & Hl & _).
  repeat split; try assumption; try lia.
  intros d e. rewrite (store_free_updateRating r p o d e w), H. reflexivity.
Qed.

(** X3: a call of [updateRatingsFromSolve] for a solve with a rating
    dispatches exactly one event, draws no random number, leaves the
    ratings of every other user as they are, counts one more solve in the
    user's global rating (starting from 0 when the user had no ratings) and
    leaves every category that is not a tag of the solve, and the category
    "Random", as it was. *)
Theorem updateRatingsFromSolve_effects :
  forall (username : string) (solve : Solve num) (w w' : World num),
    lacks_rating solve = false ->
    updateRatingsFromSolve username solve w = Some (tt, w') ->
    events w' = events w ++ [RATINGS_UPDATED_EVENT] /\
    draws w' = draws w /\
    (forall other, other <> username ->
       Map_get (ratings_key other) (db w') = Map_get (ratings_key other) (db w)) /\
    exists final,
      Map_get (ratings_key username) (db w') = Some final /\
      solveCount (global final) =
        S (match Map_get (ratings_key username) (db w) with
           | Some before => solveCount (global before)
           | None => 0
           end) /\
      forall tag, ~ In tag (s_tags solve) \/ tag = "Random"%string ->
        Map_get tag (categories final) =
        match Map_get (ratings_key username) (db w) with
        | Some before => Map_get tag (categories before)
        | None => None
        end.
Proof.
  intros username solve w w' Hl H.
  pose proof (@eachSolve_first username solve [] w Hl) as Hs.
  unfold eachSolve at 1 in Hs. cbn [foldM] in Hs. unfold bind at 1 in Hs.
  rewrite H in Hs. cbn [ret] in Hs.
  destruct (load username w) as [[r0 w0]|] eqn:Hload; [|discriminate].
  destruct (applySolve r0 solve w0) as [[r1 w1]|] eqn:Hap; [|discriminate].
  unfold eachSolve in Hs. cbn [foldM ret] in Hs. inversion Hs as [Hw']. clear Hs.
  apply load_inv in Hload. destruct Hload as (He0 & Hd0 & Hg0 & Hcase).
  destruct (@store_free_keeps _ _ _ _ _ (store_free_applySolve r0 solve) Hap) as [Hdb1 He1].
  pose proof Hap as Hap'. unfold applySolve in Hap'.
  apply bind_Some in Hap'. destruct Hap' as (g' & wm & _ & Htags).
  apply tags_keep_Random in Htags. cbn [categories] in Htags.
  apply applySolve_inv in Hap. destruct Hap as ([k Hk] & Hcount & Hkeep).
  cbn [events db draws with_store with_events with_db].
  split; [rewrite He1, He0; reflexivity|].
  split.
  { rewrite Hk. destruct (iter_tick (2 + k) w0) as (_ & _ & _ & _ & Hd & _).
    rewrite Hd. exact Hd0. }
  split.
  { intros other Hne. rewrite Map_get_set_other
      by (intros Hk'; apply Hne; apply ratings_key_inj; exact Hk').
    rewrite Hdb1.
    destruct Hcase as [[_ ->]|(_ & _ & ->)]; [reflexivity|].
    cbn [db with_db]. apply Map_get_set_other.
    intros Hk'. apply Hne. apply ratings_key_inj. exact Hk'. }
  exists r1. split; [apply Map_get_set_same|].
  destruct Hcase as [[Hb _]|(Hb & Hr0 & _)]; rewrite Hb.
  - split; [exact Hcount|].
    intros tag [Hin| ->]; [apply Hkeep; exact Hin|exact Htags].
  - split; [rewrite Hcount, Hr0; reflexivity|].
    intros tag Ht.
    assert (Hn : Map_get tag (categories r0) = None) by (rewrite Hr0; reflexivity).
    rewrite <- Hn. destruct Ht as [Hin| ->]; [apply Hkeep; exact Hin|exact Htags].
Qed.

(** X4: when at least one solve of the batch has a rating,
    [updateRatingsFromSolves] leaves the world (store, clock readings,
    random draws) as one call of [updateRatingsFromSolve] per solve does, in
    the same order, except for the events: the batch dispatches one event,
    the single calls one for every solve with a rating. *)
Theorem updateRatingsFromSolves_as_single_calls :
  forall (username : string) (solves : list (Solve num)) (w : World num),
    existsb (fun s => negb (lacks_rating s)) solves = true ->
    silent (updateRatingsFromSolves username solves w) =
    silent (eachSolve username solves w) /\
    (forall w', updateRatingsFromSolves username solves w = Some (tt, w') ->
                events w' = events w ++ [RATINGS_UPDATED_EVENT]) /\
    (forall w', eachSolve username solves w = Some (tt, w') ->
                events w' = events w ++
                  repeat RATINGS_UPDATED_EVENT
                    (length (filter (fun s => negb (lacks_rating s)) solves))).
Proof.
  intros username solves w Hex. split; [|split].
  - apply batch_eachSolve. exact Hex.
  - intros w' H. apply updateRatingsFromSolves_events in H. rewrite Hex in H. exact H.
  - intros w' H. apply (@eachSolve_events username solves w w' H).
Qed.

(** X5: a batch without any rated solve dispatches no event.  It changes
    nothing when it is empty or the user has ratings; for a user without
    ratings a non-empty batch still stores the default ratings (1500, 350,
    0.06, no solves, no categories), which the single calls do not do. *)
Theorem updateRatingsFromSolves_unrated :
  forall (username : string) (solves : list (Solve num)) (w : World num),
    forallb lacks_rating solves = true ->
    eachSolve username solves w = Some (tt, w) /\
    (solves = [] \/ Map_get (ratings_key username) (db w) <> None ->
     updateRatingsFromSolves username solves w = Some (tt, w)) /\
    (solves <> [] -> Map_get (ratings_key username) (db w) = None ->
     exists w',
       updateRatingsFromSolves username solves w = Some (tt, w') /\
       events w' = events w /\ ticks w' = S (ticks w) /\
       Map_get (ratings_key username) (db w') =
       Some {| global := {| rating := DEFAULT_RATING; rd := DEFAULT_RD;
                            volatility := DEFAULT_VOLATILITY;
                            lastUpdated := Some (clock w (ticks w));
                            solveCount := 0 |};
               categories := [] |}).
Proof.
  intros username solves w Hall.
  assert (Hfold : forall st w0, foldM solveStep solves st w0 = Some (st, w0)).
  { induction solves as [|s ss IH]; intros [r n] w0; [reflexivity|].
    cbn [forallb] in Hall. apply andb_prop in Hall. destruct Hall as [Hs Hss].
    cbn [foldM]. rewrite (@solveStep_unrated r n s Hs). unfold bind. cbn [ret].
    apply IH. exact Hss. }
  split; [|split].
  - clear Hfold. induction solves as [|s ss IH]; [reflexivity|].
    cbn [forallb] in Hall. apply andb_prop in Hall. destruct Hall as [Hs Hss].
    rewrite (@eachSolve_unrated username s ss w Hs). apply IH. exact Hss.
  - intros [->|Hsome]; [reflexivity|].
    destruct solves as [|s ss]; [reflexivity|].
    rewrite updateRatingsFromSolves_cons.
    destruct (Map_get (ratings_key username) (db w)) as [r|] eqn:Hr; [|congruence].
    assert (Hload : load username w = Some (r, w))
      by (unfold bind, getRatings; rewrite Hr; reflexivity).
    rewrite Hload. unfold bind. rewrite Hfold. reflexivity.
  - intros Hne Hnone. destruct solves as [|s ss]; [congruence|].
    rewrite updateRatingsFromSolves_cons.
    destruct (load username w) as [[r0 w0]|] eqn:Hload.
    + apply load_inv in Hload. destruct Hload as (He & _ & Hg & [[Hc _]|(_ & Hr0 & Hw0)]);
        [congruence|].
      unfold bind. rewrite Hfold. cbn [snd Nat.ltb Nat.leb ret].
      eexists. split; [reflexivity|]. split; [exact He|]. split.
      * rewrite Hw0. reflexivity.
      * rewrite Hg, Hr0. reflexivity.
    + unfold bind, getRatings in Hload. rewrite Hnone in Hload. discriminate.
Qed.

End SyncFacts.

(* ================================================================== *)
(** * Further properties of the historical estimation *)
(* ================================================================== *)

Section HistoryFacts.
Context {num : Type} {N : Number num}.
Local Open Scope num_scope.

(** ** Maps of lists *)

Lemma group_of_push (t tag : string) (s : Solve num) (m : list (string * list (Solve num))) :
  group_of t (Map_push tag s m) =
  if String.eqb t tag then group_of t m ++ [s] else group_of t m.
Proof.
  unfold group_of, Map_push.
  destruct (String.eqb_spec t tag) as [->|Hne].
  - destruct (Map_get tag m); rewrite Map_get_set_same; reflexivity.
  - destruct (Map_get tag m); rewrite (Map_get_set_other _ _ Hne); reflexivity.
Qed.

Lemma group_of_append {V} (t k : string) (v : V) (m : list (string * list V)) :
  group_of t (Map_append k v m) =
  if String.eqb t k then group_of t m ++ [v] else group_of t m.
Proof.
  unfold group_of, Map_append.
  destruct (String.eqb_spec t k) as [->|Hne].
  - destruct (Map_get k m); rewrite Map_get_set_same; reflexivity.
  - destruct (Map_get k m); rewrite (Map_get_set_other _ _ Hne); reflexivity.
Qed.


Lemma no_empty_group_set {V} (k : string) (l : list V) (m : list (string * list V)) :
  l <> [] -> no_empty_group m -> no_empty_group (Map_set k l m).
Proof.
  intros Hl Hm k' l' H. destruct (String.eqb_spec k' k) as [->|Hne].
  - rewrite Map_get_set_same in H. inversion H; subst. exact Hl.
  - rewrite (Map_get_set_other _ _ Hne) in H. apply (Hm _ _ H).
Qed.

Lemma no_empty_group_push (tag : string) (s : Solve num) (m : list (string * list (Solve num))) :
  no_empty_group m -> no_empty_group (Map_push tag s m).
Proof.
  intros Hm. unfold Map_push.
  destruct (Map_get tag m); apply no_empty_group_set; try exact Hm;
    try (intros H; apply app_eq_nil in H; destruct H; discriminate); discriminate.
Qed.

Lemma no_empty_group_append {V} (k : string) (v : V) (m : list (string * list V)) :
  no_empty_group m -> no_empty_group (Map_append k v m).
Proof.
  intros Hm. unfold Map_append.
  destruct (Map_get k m); apply no_empty_group_set; try exact Hm;
    try (intros H; apply app_eq_nil in H; destruct H; discriminate); discriminate.
Qed.

Lemma no_empty_group_get {V} (k : string) (m : list (string * list V)) :
  no_empty_group m ->
  Map_get k m = match group_of k m with [] => None | l => Some l end.
Proof.
  intros Hm. unfold group_of. destruct (Map_get k m) as [l|] eqn:H; [|reflexivity].
  destruct l; [exfalso; apply (Hm _ _ H); reflexivity|reflexivity].
Qed.

(** ** groupSolvesByCategory *)

Lemma tags_loop (t : string) (s : Solve num) (tags : list string) :
  forall m : list (string * list (Solve num)),
    no_empty_group m ->
    let m' := fold_left
                (fun categoryMap tag =>
                   if String.eqb tag "Random" then categoryMap
                   else Map_push tag s categoryMap) tags m in
    no_empty_group m' /\
    group_of t m' =
    group_of t m ++ (if String.eqb t "Random" then [] else repeat s (count_occ string_dec tags t)).
Proof.
  induction tags as [|tag tags IH]; intros m Hm; cbn [fold_left count_occ repeat].
  - split; [exact Hm|]. destruct (String.eqb t "Random"); rewrite app_nil_r; reflexivity.
  - destruct (String.eqb_spec tag "Random") as [->|Hr].
    + destruct (IH m Hm) as [H1 H2]. split; [exact H1|]. cbn zeta in H2. rewrite H2.
      destruct (String.eqb_spec t "Random") as [->|Ht]; [reflexivity|].
      destruct (string_dec "Random" t) as [E|_]; [congruence|reflexivity].
    + destruct (IH (Map_push tag s m) (no_empty_group_push tag s Hm)) as [H1 H2].
      split; [exact H1|]. cbn zeta in H2. rewrite H2, group_of_push.
      destruct (string_dec tag t) as [->|Hne].
      * rewrite String.eqb_refl.
        destruct (String.eqb_spec t "Random") as [->|_]; [congruence|].
        rewrite <- app_assoc. reflexivity.
      * destruct (String.eqb_spec t tag) as [->|_]; [congruence|]. reflexivity.
Qed.

Lemma replayed_usable (problems : list (string * Problem num)) (s : Solve num) :
  replayed problems s =
  String.eqb (s_status s) "Accepted" &&
  match Map_get (s_slug s) problems with
  | Some problem => match usable_rating (Some problem) with Some _ => true | None => false end
  | None => false
  end.
Proof.
  unfold replayed. destruct (Map_get (s_slug s) problems); reflexivity.
Qed.

Lemma groups_loop (problems : list (string * Problem num)) (t : string)
      (solves : list (Solve num)) :
  forall m : list (string * list (Solve num)),
    no_empty_group m ->
    let m' :=
      fold_left
        (fun categoryMap solve =>
           if negb (String.eqb (s_status solve) "Accepted") then categoryMap
           else match Map_get (s_slug solve) problems with
                | None => categoryMap
                | Some problem =>
                    match usable_rating (Some problem) with
                    | None => categoryMap
                    | Some _ =>
                        fold_left
                          (fun categoryMap tag =>
                             if String.eqb tag "Random" then categoryMap
                             else Map_push tag solve categoryMap)
                          (p_tags problem) categoryMap
                    end
                end)
        solves m in
    no_empty_group m' /\
    group_of t m' =
    group_of t m ++ (if String.eqb t "Random" then [] else taggedSolves problems t solves).
Proof.
  induction solves as [|s ss IH]; intros m Hm; cbn [fold_left].
  - split; [exact Hm|]. unfold taggedSolves. cbn.
    destruct (String.eqb t "Random"); rewrite app_nil_r; reflexivity.
  - unfold taggedSolves. cbn [flat_map]. fold (taggedSolves problems t ss).
    rewrite replayed_usable.
    destruct (String.eqb (s_status s) "Accepted"); cbn [negb andb];
      [|exact (IH m Hm)].
    destruct (Map_get (s_slug s) problems) as [problem|]; [|exact (IH m Hm)].
    destruct (usable_rating (Some problem)); [|exact (IH m Hm)].
    destruct (tags_loop t s (p_tags problem) Hm) as [H1 H2]. cbn zeta in H1, H2.
    destruct (IH _ H1) as [H3 H4]. split; [exact H3|]. cbn zeta in H4.
    rewrite H4, H2. rewrite <- app_assoc.
    destruct (String.eqb t "Random"); reflexivity.
Qed.

Lemma groupSolvesByCategory_get (solves : list (Solve num))
      (problems : list (string * Problem num)) (tag : string) :
  no_empty_group (groupSolvesByCategory solves problems) /\
  group_of tag (groupSolvesByCategory solves problems) =
  if String.eqb tag "Random" then [] else taggedSolves problems tag solves.
Proof.
  unfold groupSolvesByCategory.
  destruct (@groups_loop problems tag solves []) as [H1 H2]; [intros k l H; discriminate|].
  split; [exact H1|exact H2].
Qed.

(** X6: [groupSolvesByCategory] files every replayed solve (accepted, of a
    problem with a positive rating) under every tag of its problem except
    "Random", in the order of the input, and nothing else: the group of a
    tag is exactly the list of those solves, a tag without such a solve has
    no entry, "Random" never has one, and no tag has two entries. *)
Theorem groupSolvesByCategory_groups :
  forall (solves : list (Solve num)) (problems : list (string * Problem num)),
    NoDup (map fst (groupSolvesByCategory solves problems)) /\
    forall tag,
      Map_get tag (groupSolvesByCategory solves problems) =
      match (if String.eqb tag "Random" then [] else taggedSolves problems tag solves) with
      | [] => None
      | group => Some group
      end.
Proof.
  intros solves problems. split; [apply groupSolvesByCategory_NoDup|].
  intros tag. destruct (groupSolvesByCategory_get solves problems tag) as [H1 H2].
  rewrite (no_empty_group_get tag H1), H2. reflexivity.
Qed.


(** ** The tie replay *)

Lemma filter_length_perm {A} (f : A -> bool) (l l' : list A) :
  Permutation l l' -> length (filter f l) = length (filter f l').
Proof.
  intros Hp. induction Hp; cbn.
  - reflexivity.
  - destruct (f x); cbn; congruence.
  - destruct (f x), (f y); reflexivity.
  - congruence.
Qed.

Lemma filter_length_all {A} (f : A -> bool) (l : list A) :
  Forall (fun x => f x = true) l -> length (filter f l) = length l.
Proof.
  induction 1 as [|x l Hx _ IH]; cbn; [reflexivity|]. rewrite Hx. cbn. congruence.
Qed.

Lemma replay_run (problems : list (string * Problem num)) (solves : list (Solve num)) :
  forall (r0 r : UserRating num) (w w' : World num),
    foldM
      (fun rating solve =>
         if negb (String.eqb (s_status solve) "Accepted") then ret rating
         else match usable_rating (Map_get (s_slug solve) problems) with
              | None => ret rating
              | Some x => updateRating rating x (lit (5 # 10))
              end)
      solves r0 w = Some (r, w') ->
    w' = Nat.iter (2 * length (filter (replayed problems) solves)) tick w /\
    (filter (replayed problems) solves = [] -> r = r0).
Proof.
  induction solves as [|s ss IH]; intros r0 r w w' H; cbn [foldM] in H.
  - apply ret_Some in H. destruct H as [-> ->]. split; reflexivity.
  - apply bind_Some in H. destruct H as (r1 & w1 & Hstep & H).
    apply IH in H. destruct H as [Hw Hr]. cbn [filter].
    destruct (replayed problems s) eqn:Hrep; unfold replayed in Hrep.
    + destruct (String.eqb (s_status s) "Accepted"); [|discriminate].
      destruct (usable_rating (Map_get (s_slug s) problems)); [|discriminate].
      cbn [negb] in Hstep.
      apply updateRating_inv in Hstep. destruct Hstep as (-> & _).
      split; [|intros Hx; discriminate Hx]. rewrite Hw. cbn [length].
      change (tick (tick w)) with (Nat.iter 2 tick w). rewrite iter_tick_add.
      f_equal. lia.
    + assert (Hs : r1 = r0 /\ w1 = w).
      { destruct (String.eqb (s_status s) "Accepted"); cbn [negb andb] in Hstep, Hrep.
        - destruct (usable_rating (Map_get (s_slug s) problems)); [discriminate|].
          apply ret_Some in Hstep. exact Hstep.
        - apply ret_Some in Hstep. exact Hstep. }
      destruct Hs as [-> ->]. split; assumption.
Qed.

Lemma store_free_processHistoricalSolves (initialRating : num) (solves : list (Solve num))
      (problems : list (string * Problem num)) :
  store_free (processHistoricalSolves initialRating solves problems).
Proof.
  unfold processHistoricalSolves.
  apply store_free_bind; [apply store_free_initializeRating|]. intros r0.
  apply store_free_foldM. intros r s.
  destruct (negb (String.eqb (s_status s) "Accepted")); [apply store_free_ret|].
  destruct (usable_rating (Map_get (s_slug s) problems));
    [apply store_free_updateRating|apply store_free_ret].
Qed.

Lemma processHistoricalSolves_inv :
  forall (initialRating : num) (solves : list (Solve num))
         (problems : list (string * Problem num)) (r : UserRating num) (w w' : World num),
    processHistoricalSolves initialRating solves problems w = Some (r, w') ->
    let n := length (filter (replayed problems) solves) in
    solveCount r = n /\
    ticks w' = (ticks w + 1 + 2 * n)%nat /\
    draws w' = draws w /\ db w' = db w /\ events w' = events w /\
    (n = 0%nat ->
     r = {| rating := initialRating; rd := DEFAULT_RD; volatility := DEFAULT_VOLATILITY;
            lastUpdated := Some (clock w (ticks w)); solveCount := 0 |}).
Proof.
  intros initialRating solves problems r w w' H n.
  pose proof (processHistoricalSolves_count _ _ _ _ H) as Hc.
  unfold processHistoricalSolves in H.
  apply bind_Some in H. destruct H as (r0 & w1 & Hinit & H).
  rewrite initializeRating_run in Hinit. inversion Hinit; subst r0 w1; clear Hinit.
  apply replay_run in H. destruct H as [Hw Hr].
  assert (Hn : length (filter (replayed problems)
                         (Array_sort (fun a b => s_timestamp a - s_timestamp b) solves)) = n)
    by (apply filter_length_perm, Array_sort_perm).
  rewrite Hn in Hw.
  change (tick w) with (Nat.iter 1 tick w) in Hw. rewrite iter_tick_add in Hw.
  destruct (iter_tick (1 + 2 * n) w) as (_ & _ & Ht & _ & Hd & Hdb & He).
  rewrite <- Hw in Ht, Hd, Hdb, He.
  split; [exact Hc|]. split; [rewrite Ht; lia|].
  repeat (split; [assumption|]).
  intros H0. apply Hr. apply length_zero_iff_nil. rewrite Hn. exact H0.
Qed.

(** X7: a run of [processHistoricalSolves] that returns has called
    [updateRating] once for every replayed solve (accepted, of a problem
    with a positive rating): the result counts them and the clock was read
    once and twice more for each of them; no random number was drawn and
    the store and the events are as before.  With nothing to replay the
    result is the initial rating with the default deviation and
    volatility. *)
Theorem processHistoricalSolves_effects :
  forall (initialRating : num) (solves : list (Solve num))
         (problems : list (string * Problem num)) (r : UserRating num) (w w' : World num),
    processHistoricalSolves initialRating solves problems w = Some (r, w') ->
    let n := length (filter (replayed problems) solves) in
    solveCount r = n /\
    ticks w' = (ticks w + 1 + 2 * n)%nat /\
    draws w' = draws w /\ db w' = db w /\ events w' = events w /\
    (n = 0%nat ->
     r = {| rating := initialRating; rd := DEFAULT_RD; volatility := DEFAULT_VOLATILITY;
            lastUpdated := Some (clock w (ticks w)); solveCount := 0 |}).
Proof. exact processHistoricalSolves_inv. Qed.


(** ** initializeRatingsFromHistory *)

Lemma store_free_categoryStep (initialEstimate : num) (problems : list (string * Problem num))
      (acc : list (string * UserRating num)) (entry : string * list (Solve num)) :
  store_free (categoryStep initialEstimate problems acc entry).
Proof.
  destruct entry as [category categorySolves]. unfold categoryStep.
  destruct (Nat.leb 3 _).
  - apply store_free_bind; [apply store_free_processHistoricalSolves|].
    intros r. apply store_free_ret.
  - destruct (Nat.ltb 0 _); [|apply store_free_ret].
    apply store_free_bind; [apply store_free_Math_random|]. intros u.
    apply store_free_bind; [apply store_free_processHistoricalSolves|].
    intros r. apply store_free_ret.
Qed.

Lemma Map_get_In {V} (k : string) (v : V) (m : list (string * V)) :
  NoDup (map fst m) -> In (k, v) m -> Map_get k m = Some v.
Proof.
  induction m as [|[k' v'] m IH]; intros Hnd Hin; [destruct Hin|].
  cbn in Hnd. inversion Hnd as [|? ? Hk Hm]; subst. cbn.
  destruct Hin as [Heq|Hin].
  - inversion Heq; subst. rewrite String.eqb_refl. reflexivity.
  - destruct (String.eqb_spec k k') as [->|_]; [|apply IH; assumption].
    exfalso. apply Hk. apply in_map_iff. exists (k', v). split; [reflexivity|exact Hin].
Qed.

(** Where the entries of the category ratings come from. *)
Lemma categories_origin (initialEstimate : num) (problems : list (string * Problem num))
      (groups : list (string * list (Solve num))) :
  forall (acc final : list (string * UserRating num)) (w w' : World num),
    foldM (categoryStep initialEstimate problems) groups acc w = Some (final, w') ->
    forall k r, Map_get k final = Some r ->
      Map_get k acc = Some r \/
      exists categorySolves init wa wb,
        In (k, categorySolves) groups /\
        processHistoricalSolves init categorySolves problems wa = Some (r, wb).
Proof.
  induction groups as [|[c cs] gs IH]; intros acc final w w' H k r Hk; cbn [foldM] in H.
  - apply ret_Some in H. destruct H as [-> _]. left. exact Hk.
  - apply bind_Some in H. destruct H as (mid & w1 & Hstep & H).
    destruct (IH _ _ _ _ H k r Hk) as [Hmid|(cs' & init & wa & wb & Hin & Hrun)].
    + unfold categoryStep in Hstep.
      assert (Hset : forall init wa wb r1,
                 processHistoricalSolves init cs problems wa = Some (r1, wb) ->
                 Map_get k (Map_set c r1 acc) = Some r ->
                 Map_get k acc = Some r \/
                 exists categorySolves init wa wb,
                   In (k, categorySolves) ((c, cs) :: gs) /\
                   processHistoricalSolves init categorySolves problems wa = Some (r, wb)).
      { intros init wa wb r1 Hrun Hget.
        destruct (String.eqb_spec k c) as [->|Hne].
        - rewrite Map_get_set_same in Hget. inversion Hget; subst.
          right. exists cs, init, wa, wb. split; [left; reflexivity|exact Hrun].
        - rewrite (Map_get_set_other _ _ Hne) in Hget. left. exact Hget. }
      destruct (Nat.leb 3 _).
      * apply bind_Some in Hstep. destruct Hstep as (r1 & w2 & Hrun & Hret).
        apply ret_Some in Hret. destruct Hret as [-> _]. eapply Hset; eassumption.
      * destruct (Nat.ltb 0 _).
        -- apply bind_Some in Hstep. destruct Hstep as (u & w2 & _ & Hstep).
           apply bind_Some in Hstep. destruct Hstep as (r1 & w3 & Hrun & Hret).
           apply ret_Some in Hret. destruct Hret as [-> _]. eapply Hset; eassumption.
        -- apply ret_Some in Hstep. destruct Hstep as [-> _]. left. exact Hmid.
    + right. exists cs', init, wa, wb. split; [right; exact Hin|exact Hrun].
Qed.

Lemma taggedSolves_replayed (problems : list (string * Problem num)) (tag : string)
      (solves : list (Solve num)) :
  Forall (fun s => replayed problems s = true) (taggedSolves problems tag solves).
Proof.
  unfold taggedSolves. apply Forall_forall. intros x Hx.
  apply in_flat_map in Hx. destruct Hx as (s & _ & Hx).
  destruct (replayed problems s) eqn:Hr; [|destruct Hx].
  destruct (Map_get (s_slug s) problems); [|destruct Hx].
  apply repeat_spec in Hx. subst. exact Hr.
Qed.

Lemma replayed_accepted (problems : list (string * Problem num)) (solves : list (Solve num)) :
  filter (replayed problems)
    (filter (fun s => String.eqb (s_status s) "Accepted") solves) =
  filter (replayed problems) solves.
Proof.
  induction solves as [|s ss IH]; [reflexivity|]. cbn [filter].
  destruct (String.eqb (s_status s) "Accepted") eqn:Ha.
  - cbn [filter]. rewrite IH. reflexivity.
  - rewrite IH. unfold replayed at 2. rewrite Ha. reflexivity.
Qed.

(** What a returning run of [initializeRatingsFromHistory] leaves. *)
Lemma initializeRatingsFromHistory_inv :
  forall (username : string) (solves : list (Solve num))
         (problems : list (string * Problem num)) (w w' : World num),
    initializeRatingsFromHistory username solves problems w = Some (tt, w') ->
    events w' = events w /\
    (forall other, other <> username ->
       Map_get (ratings_key other) (db w') = Map_get (ratings_key other) (db w)) /\
    exists ratings,
      Map_get (ratings_key username) (db w') = Some ratings /\
      solveCount (global ratings) = length (filter (replayed problems) solves) /\
      forall tag r, Map_get tag (categories ratings) = Some r ->
        tag <> "Random"%string /\
        solveCount r = length (taggedSolves problems tag solves) /\
        0 < solveCount r.
Proof.
  intros username solves problems w w' H.
  unfold initializeRatingsFromHistory in H.
  apply bind_Some in H. destruct H as (globalRating & w1 & Hglobal & H).
  apply bind_Some in H. destruct H as (cats & w2 & Hcats & H).
  unfold saveRatings in H. inversion H as [Hw']; clear H.
  destruct (@store_free_keeps _ _ _ _ _ _
              (store_free_processHistoricalSolves _ _ _) Hglobal) as [Hd1 He1].
  destruct (@store_free_keeps _ _ _ _ _ _
              (store_free_foldM _ _ _ (store_free_categoryStep _ _)) Hcats) as [Hd2 He2].
  cbn [events db with_db].
  split; [rewrite He2, He1; reflexivity|]. split.
  { intros other Hne. rewrite Map_get_set_other
      by (intros Hk; apply Hne; apply ratings_key_inj; exact Hk).
    rewrite Hd2, Hd1. reflexivity. }
  eexists. split; [apply Map_get_set_same|]. cbn [global categories]. split.
  { rewrite (processHistoricalSolves_count _ _ _ _ Hglobal). rewrite replayed_accepted.
    reflexivity. }
  intros tag r Hr.
  destruct (@categories_origin _ _ _ _ _ _ _ Hcats tag r Hr)
    as [Habs|(cs & init & wa & wb & Hin & Hrun)]; [discriminate|].
  apply (@Map_get_In _ _ _ _ (groupSolvesByCategory_NoDup solves problems)) in Hin.
  destruct (groupSolvesByCategory_get solves problems tag) as [Hne Hg].
  unfold group_of in Hg. rewrite Hin in Hg.
  assert (Hcs : cs <> []) by (apply (Hne _ _ Hin)).
  destruct (String.eqb_spec tag "Random") as [->|Htag]; [congruence|].
  split; [exact Htag|].
  rewrite (processHistoricalSolves_count _ _ _ _ Hrun).
  subst cs.
  rewrite (@filter_length_all _ _ _ (taggedSolves_replayed problems tag solves)).
  split; [reflexivity|].
  destruct (taggedSolves problems tag solves); [congruence|cbn; lia].
Qed.


(** X8: a run of [initializeRatingsFromHistory] that returns stores the
    user's ratings and changes nothing else: no event is dispatched and the
    ratings of other users stay.  The stored global rating counts the
    replayed solves (accepted, of a problem with a positive rating); every
    stored category is a tag other than "Random" of at least one replayed
    solve and counts the replayed solves that carry the tag. *)
Theorem initializeRatingsFromHistory_effects :
  forall (username : string) (solves : list (Solve num))
         (problems : list (string * Problem num)) (w w' : World num),
    initializeRatingsFromHistory username solves problems w = Some (tt, w') ->
    events w' = events w /\
    (forall other, other <> username ->
       Map_get (ratings_key other) (db w') = Map_get (ratings_key other) (db w)) /\
    exists ratings,
      Map_get (ratings_key username) (db w') = Some ratings /\
      solveCount (global ratings) = length (filter (replayed problems) solves) /\
      forall tag r, Map_get tag (categories ratings) = Some r ->
        tag <> "Random"%string /\
        solveCount r = length (taggedSolves problems tag solves) /\
        0 < solveCount r.
Proof. exact initializeRatingsFromHistory_inv. Qed.

(** ** The metadata of an estimate *)

Lemma In_Map_get {V} (k : string) (m : list (string * V)) :
  In k (map fst m) -> exists v, Map_get k m = Some v.
Proof.
  induction m as [|[k' v'] m IH]; intros H; [destruct H|]. cbn.
  destruct (String.eqb_spec k k') as [->|Hne]; [eexists; reflexivity|].
  destruct H as [H|H]; [cbn in H; congruence|]. apply IH. exact H.
Qed.

Lemma categories_NoDup (initialEstimate : num) (problems : list (string * Problem num))
      (groups : list (string * list (Solve num))) :
  forall (acc final : list (string * UserRating num)) (w w' : World num),
    foldM (categoryStep initialEstimate problems) groups acc w = Some (final, w') ->
    NoDup (map fst acc) -> NoDup (map fst final).
Proof.
  induction groups as [|[c cs] gs IH]; intros acc final w w' H Hnd; cbn [foldM] in H.
  - apply ret_Some in H. destruct H as [-> _]. exact Hnd.
  - apply bind_Some in H. destruct H as (mid & w1 & Hstep & H).
    apply (IH _ _ _ _ H). unfold categoryStep in Hstep.
    destruct (Nat.leb 3 _).
    + apply bind_Some in Hstep. destruct Hstep as (r1 & w2 & _ & Hret).
      apply ret_Some in Hret. destruct Hret as [-> _]. apply Map_set_NoDup. exact Hnd.
    + destruct (Nat.ltb 0 _).
      * apply bind_Some in Hstep. destruct Hstep as (u & w2 & _ & Hstep).
        apply bind_Some in Hstep. destruct Hstep as (r1 & w3 & _ & Hret).
        apply ret_Some in Hret. destruct Hret as [-> _]. apply Map_set_NoDup. exact Hnd.
      * apply ret_Some in Hstep. destruct Hstep as [-> _]. exact Hnd.
Qed.

Lemma filter_length_le {A} (f : A -> bool) (l : list A) : length (filter f l) <= length l.
Proof. induction l as [|x l IH]; cbn; [lia|]. destruct (f x); cbn; lia. Qed.

(** X10: for the ratings [initializeRatingsFromHistory] stores,
    [getEstimationMetadata] counts all accepted solves, rated or not, so
    its [totalSolves] is at least the solve count of the global rating; its
    [categoriesWithData] lists no category twice and never "Random"; the
    confidence is low below 10 accepted solves, moderate below 30 and high
    from 30 on. *)
Theorem getEstimationMetadata_of_history :
  forall (username : string) (solves : list (Solve num))
         (problems : list (string * Problem num)) (w w' : World num)
         (ratings : UserRatings num),
    initializeRatingsFromHistory username solves problems w = Some (tt, w') ->
    Map_get (ratings_key username) (db w') = Some ratings ->
    let metadata := getEstimationMetadata ratings solves in
    solveCount (global ratings) <= totalSolves metadata /\
    NoDup (categoriesWithData metadata) /\
    ~ In "Random"%string (categoriesWithData metadata) /\
    (totalSolves metadata < 10 -> confidence metadata = low) /\
    (10 <= totalSolves metadata < 30 -> confidence metadata = moderate) /\
    (30 <= totalSolves metadata -> confidence metadata = high).
Proof.
  intros username solves problems w w' ratings H Hget metadata.
  destruct (initializeRatingsFromHistory_inv _ _ _ _ H) as (_ & _ & ratings' & Hget' & Hc & Hcat).
  rewrite Hget in Hget'. inversion Hget'; subst ratings'; clear Hget'.
  subst metadata. unfold getEstimationMetadata. cbn [totalSolves categoriesWithData confidence].
  split; [|split; [|split]].
  - rewrite Hc, <- replayed_accepted. apply filter_length_le.
  - unfold initializeRatingsFromHistory in H.
    apply bind_Some in H. destruct H as (globalRating & w1 & _ & H).
    apply bind_Some in H. destruct H as (cats & w2 & Hcats & H).
    unfold saveRatings in H. inversion H as [Hw']; clear H.
    rewrite <- Hw' in Hget. cbn [db with_db] in Hget.
    rewrite Map_get_set_same in Hget. inversion Hget; subst ratings. cbn [categories].
    apply (@categories_NoDup _ _ _ _ _ _ _ Hcats). constructor.
  - intros Hin. apply In_Map_get in Hin. destruct Hin as [r Hr].
    apply Hcat in Hr. destruct Hr as [Hr _]. apply Hr. reflexivity.
  - repeat split.
    + intros Hn. apply Nat.ltb_lt in Hn. rewrite Hn. reflexivity.
    + intros [H1 H2]. apply Nat.ltb_lt in H2. apply Nat.ltb_ge in H1.
      rewrite H1, H2. reflexivity.
    + intros Hn. assert (H1 := Hn). apply Nat.ltb_ge in H1.
      assert (H2 : 30 <= length (filter (fun s => String.eqb (s_status s) "Accepted") solves)) by exact Hn.
      assert (H3 : 10 <= length (filter (fun s => String.eqb (s_status s) "Accepted") solves)) by lia.
      apply Nat.ltb_ge in H2, H3. rewrite H3, H2. reflexivity.
Qed.


(** ** The legacy estimate *)

Lemma estimateRatingFromRatings_run (ratings : list num) (count : nat) (w : World num) :
  exists r,
    estimateRatingFromRatings ratings count w = Some (r, tick w) /\
    volatility r = DEFAULT_VOLATILITY /\
    lastUpdated r = Some (clock w (ticks w)) /\
    match ratings with
    | [] => rating r = DEFAULT_RATING /\ rd r = DEFAULT_RD /\ solveCount r = 0
    | _ => rating r = Math_round (mean ratings - lit (5 # 10) * standardDeviation ratings) /\
           rd r = (if Nat.ltb count 10 then HIGH_ESTIMATED_RD else ESTIMATED_RD) /\
           solveCount r = count
    end.
Proof.
  destruct ratings as [|x xs]; eexists; (split; [reflexivity|]); cbn; repeat split.
Qed.

(** Every category rating of the legacy estimate is a placeholder. *)
Lemma legacy_loop (problems : list (string * Problem num)) (globalRating : UserRating num)
      (groups : list (string * list (Solve num))) :
  volatility globalRating = DEFAULT_VOLATILITY ->
  forall (acc : list (string * UserRating num)) (w : World num),
    exists final w',
      foldM (legacyCategoryStep problems globalRating) groups acc w = Some (final, w') /\
      fuel w' = fuel w /\ db w' = db w /\ events w' = events w /\
      forall k r, Map_get k final = Some r ->
        Map_get k acc = Some r \/
        (In k (map fst groups) /\
         volatility r = DEFAULT_VOLATILITY /\
         (rd r = HIGH_ESTIMATED_RD \/ rd r = ESTIMATED_RD) /\
         0 < solveCount r).
Proof.
  intros Hvol. induction groups as [|[c cs] gs IH]; intros acc w; cbn [foldM].
  - exists acc, w. split; [reflexivity|]. repeat split. intros k r H. left. exact H.
  - assert (Hstep : exists mid w1,
               legacyCategoryStep problems globalRating acc (c, cs) w = Some (mid, w1) /\
               fuel w1 = fuel w /\ db w1 = db w /\ events w1 = events w /\
               forall k r, Map_get k mid = Some r ->
                 Map_get k acc = Some r \/
                 (k = c /\ volatility r = DEFAULT_VOLATILITY /\
                  (rd r = HIGH_ESTIMATED_RD \/ rd r = ESTIMATED_RD) /\ 0 < solveCount r)).
    { unfold legacyCategoryStep.
      set (values := categoryRatingValues cs problems).
      destruct (Nat.leb_spec 3 (length values)) as [H3|H3].
      - destruct (estimateRatingFromRatings_run values (length values) w)
          as (r & Hrun & Hv & _ & Hr).
        unfold bind. rewrite Hrun. cbn [ret].
        eexists. eexists. split; [reflexivity|]. repeat split.
        intros k r' Hk. destruct (String.eqb_spec k c) as [->|Hne].
        + rewrite Map_get_set_same in Hk. inversion Hk; subst r'. right.
          destruct values as [|v vs]; [cbn in H3; lia|].
          destruct Hr as (_ & Hrd & Hcount). split; [reflexivity|]. split; [exact Hv|].
          split; [|rewrite Hcount; cbn; lia].
          rewrite Hrd. destruct (Nat.ltb _ 10); [left|right]; reflexivity.
        + rewrite (Map_get_set_other _ _ Hne) in Hk. left. exact Hk.
      - destruct (Nat.ltb_spec 0 (length values)) as [H0|H0].
        + unfold bind, Math_random. cbn [ret].
          eexists. eexists. split; [reflexivity|]. repeat split.
          intros k r' Hk. destruct (String.eqb_spec k c) as [->|Hne].
          * rewrite Map_get_set_same in Hk. inversion Hk; subst r'. right. cbn.
            split; [reflexivity|]. split; [exact Hvol|]. split; [left; reflexivity|exact H0].
          * rewrite (Map_get_set_other _ _ Hne) in Hk. left. exact Hk.
        + exists acc, w. split; [reflexivity|]. repeat split. intros k r H. left. exact H. }
    destruct Hstep as (mid & w1 & Hrun & Hf1 & Hd1 & He1 & Hmid).
    destruct (IH mid w1) as (final & w' & Hrest & Hf & Hd & He & Hfinal).
    exists final, w'. unfold bind. rewrite Hrun. split; [exact Hrest|].
    split; [congruence|]. split; [congruence|]. split; [congruence|].
    intros k r Hk. destruct (Hfinal k r Hk) as [Hm|(Hin & Hprops)].
    + destruct (Hmid k r Hm) as [Ha|(-> & Hprops)]; [left; exact Ha|].
      right. split; [left; reflexivity|exact Hprops].
    + right. split; [right; exact Hin|exact Hprops].
Qed.

(** X11: the deprecated [estimateRatingFromHistory] always returns, without
    running the rating update (it needs no loop iteration), and leaves the
    store and the events alone.  Its global rating counts the accepted
    solves of problems with a positive rating and is a placeholder: default
    volatility, and deviation 350 without such solves, 250 below ten of
    them, 200 from ten on.  Every category rating it returns belongs to a
    tag other than "Random", has the default volatility, a deviation of 250
    or 200 and a positive solve count. *)
Theorem estimateRatingFromHistory_placeholders :
  forall (solves : list (Solve num)) (problems : list (string * Problem num))
         (w : World num),
    exists ratings w',
      estimateRatingFromHistory solves problems w = Some (ratings, w') /\
      db w' = db w /\ events w' = events w /\
      let n := length (getAcceptedSolveRatings solves problems) in
      solveCount (global ratings) = n /\
      volatility (global ratings) = DEFAULT_VOLATILITY /\
      rd (global ratings) =
        (if Nat.eqb n 0 then DEFAULT_RD
         else if Nat.ltb n 10 then HIGH_ESTIMATED_RD else ESTIMATED_RD) /\
      forall tag r, Map_get tag (categories ratings) = Some r ->
        tag <> "Random"%string /\
        volatility r = DEFAULT_VOLATILITY /\
        (rd r = HIGH_ESTIMATED_RD \/ rd r = ESTIMATED_RD) /\
        0 < solveCount r.
Proof.
  intros solves problems w. unfold estimateRatingFromHistory.
  set (allRatings := getAcceptedSolveRatings solves problems).
  destruct (estimateRatingFromRatings_run allRatings (length allRatings) w)
    as (g0 & Hrun & Hv & _ & Hg).
  destruct (@legacy_loop problems g0 (groupSolvesByCategory solves problems) Hv [] (tick w))
    as (final & w' & Hloop & _ & Hd & He & Hfinal).
  exists {| global := g0; categories := final |}, w'.
  unfold bind. rewrite Hrun, Hloop. cbn [ret global categories].
  split; [reflexivity|]. split; [exact Hd|]. split; [exact He|].
  split; [|split; [exact Hv|split]].
  - destruct allRatings; [tauto|]. tauto.
  - destruct allRatings as [|x xs]; [tauto|]. cbn [length Nat.eqb]. tauto.
  - intros tag r Hr. destruct (Hfinal tag r Hr) as [Habs|(Hin & Hprops)]; [discriminate|].
    split; [|exact Hprops].
    intros ->. apply In_Map_get in Hin. destruct Hin as [group Hgroup].
    destruct (groupSolvesByCategory_get solves problems "Random") as [_ Hg0].
    destruct (groupSolvesByCategory_get solves problems "Random") as [Hne _].
    unfold group_of in Hg0. rewrite Hgroup in Hg0. cbn in Hg0.
    apply (Hne _ _ Hgroup). exact Hg0.
Qed.


Lemma taggedSolves_none (problems : list (string * Problem num)) (tag : string)
      (solves : list (Solve num)) :
  filter (replayed problems) solves = [] -> taggedSolves problems tag solves = [].
Proof.
  unfold taggedSolves. induction solves as [|s ss IH]; [reflexivity|]. cbn [filter flat_map].
  destruct (replayed problems s); [discriminate|]. exact IH.
Qed.

Lemma Map_get_all_None {V} (m : list (string * V)) :
  (forall k, Map_get k m = None) -> m = [].
Proof.
  destruct m as [|[k v] m]; [reflexivity|]. intros H. specialize (H k).
  cbn in H. rewrite String.eqb_refl in H. discriminate.
Qed.

End HistoryFacts.

(* ================================================================== *)
(** * The category replays of initializeRatingsFromHistory *)
(* ================================================================== *)

Section ReplayFacts.
Context {num : Type} {N : Number num}.
Local Open Scope num_scope.

Lemma iter_tick_drawn (t : nat) (w : World num) :
  Nat.iter t tick (drawn w) = drawn (Nat.iter t tick w).
Proof.
  induction t as [|t IH]; [reflexivity|]. rewrite !Nat.iter_succ, IH. reflexivity.
Qed.

Lemma iter_add {A} (f : A -> A) (j k : nat) (x : A) :
  Nat.iter k f (Nat.iter j f x) = Nat.iter (j + k) f x.
Proof.
  induction k as [|k IH].
  - rewrite Nat.add_0_r. reflexivity.
  - rewrite Nat.add_succ_r, !Nat.iter_succ, IH. reflexivity.
Qed.

Lemma iter_tick_iter_drawn (t d : nat) (w : World num) :
  Nat.iter t tick (Nat.iter d drawn w) = Nat.iter d drawn (Nat.iter t tick w).
Proof.
  induction d as [|d IH]; [reflexivity|].
  rewrite !Nat.iter_succ, iter_tick_drawn, IH. reflexivity.
Qed.

Lemma later_later (t1 d1 t2 d2 : nat) (w : World num) :
  later t2 d2 (later t1 d1 w) = later (t1 + t2) (d1 + d2) w.
Proof.
  unfold later. rewrite iter_tick_iter_drawn, !iter_add. reflexivity.
Qed.

Lemma later_fields (t d : nat) (w : World num) :
  fuel (later t d w) = fuel w /\ clock (later t d w) = clock w /\
  ticks (later t d w) = (ticks w + t)%nat /\
  random (later t d w) = random w /\ draws (later t d w) = (draws w + d)%nat /\
  db (later t d w) = db w /\ events (later t d w) = events w.
Proof.
  unfold later. induction d as [|d IH].
  - destruct (iter_tick t w) as (H1 & H2 & H3 & H4 & H5 & H6 & H7).
    change (Nat.iter 0 drawn (Nat.iter t tick w)) with (Nat.iter t tick w).
    rewrite H1, H2, H3, H4, H5, H6, H7, Nat.add_0_r. repeat split; reflexivity.
  - destruct IH as (H1 & H2 & H3 & H4 & H5 & H6 & H7). rewrite Nat.iter_succ.
    unfold drawn at 1 3 5 7 9 11 13. cbn [fuel clock ticks random draws db events].
    rewrite H1, H2, H3, H4, H5, H6, H7, Nat.add_succ_r. repeat split; reflexivity.
Qed.

(** A run of [processHistoricalSolves] that returns leaves the world its
    clock readings later. *)
Lemma processHistoricalSolves_world (initialRating : num) (solves : list (Solve num))
      (problems : list (string * Problem num)) (r : UserRating num) (w w' : World num) :
  processHistoricalSolves initialRating solves problems w = Some (r, w') ->
  w' = later (replayReadings problems solves) 0 w.
Proof.
  intros H. unfold processHistoricalSolves in H.
  apply bind_Some in H. destruct H as (r0 & w1 & Hinit & H).
  rewrite initializeRating_run in Hinit. inversion Hinit; subst r0 w1; clear Hinit.
  apply replay_run in H. destruct H as [Hw _].
  rewrite (@filter_length_perm _ (replayed problems) _ solves
             (Array_sort_perm _ solves)) in Hw.
  rewrite Hw. unfold later, replayReadings.
  change (Nat.iter 0 drawn ?x) with x.
  change (tick w) with (Nat.iter 1 tick w). rewrite iter_add. reflexivity.
Qed.

Lemma categoryStep_world (initialEstimate : num) (problems : list (string * Problem num))
      (acc acc' : list (string * UserRating num)) (entry : string * list (Solve num))
      (w w' : World num) :
  categoryStep initialEstimate problems acc entry w = Some (acc', w') ->
  w' = later (groupReadings problems [entry]) (groupDraws problems [entry]) w.
Proof.
  destruct entry as [category categorySolves].
  unfold categoryStep, groupReadings, groupDraws. cbn [fold_right snd].
  rewrite !Nat.add_0_r.
  destruct (Nat.leb_spec 3 (length (categoryRatingValues categorySolves problems))) as [H3|H3].
  - intros H. apply bind_Some in H. destruct H as (r & w1 & Hrun & H).
    apply ret_Some in H. destruct H as [_ ->].
    apply processHistoricalSolves_world in Hrun.
    destruct (Nat.ltb_spec 0 (length (categoryRatingValues categorySolves problems)));
      [exact Hrun|lia].
  - destruct (Nat.ltb_spec 0 (length (categoryRatingValues categorySolves problems))) as [H0|H0].
    + intros H. apply bind_Some in H. destruct H as (u & w1 & Hu & H).
      unfold Math_random in Hu. inversion Hu; subst u w1; clear Hu.
      apply bind_Some in H. destruct H as (r & w2 & Hrun & H).
      apply ret_Some in H. destruct H as [_ ->].
      apply processHistoricalSolves_world in Hrun. rewrite Hrun.
      change (drawn w) with (later 0 1 w). rewrite later_later. reflexivity.
    + intros H. apply ret_Some in H. destruct H as [_ ->]. reflexivity.
Qed.

Lemma groupReadings_app (problems : list (string * Problem num))
      (a b : list (string * list (Solve num))) :
  groupReadings problems (a ++ b) = (groupReadings problems a + groupReadings problems b)%nat.
Proof.
  unfold groupReadings. induction a as [|x a IH]; [reflexivity|].
  cbn [app fold_right]. rewrite IH. lia.
Qed.

Lemma groupDraws_app (problems : list (string * Problem num))
      (a b : list (string * list (Solve num))) :
  groupDraws problems (a ++ b) = (groupDraws problems a + groupDraws problems b)%nat.
Proof.
  unfold groupDraws. induction a as [|x a IH]; [reflexivity|].
  cbn [app fold_right]. rewrite IH. lia.
Qed.

Lemma categories_world (initialEstimate : num) (problems : list (string * Problem num))
      (groups : list (string * list (Solve num))) :
  forall (acc final : list (string * UserRating num)) (w w' : World num),
    foldM (categoryStep initialEstimate problems) groups acc w = Some (final, w') ->
    w' = later (groupReadings problems groups) (groupDraws problems groups) w.
Proof.
  induction groups as [|x gs IH]; intros acc final w w' H; cbn [foldM] in H.
  - apply ret_Some in H. destruct H as [_ ->]. reflexivity.
  - apply bind_Some in H. destruct H as (mid & w1 & Hstep & H).
    apply IH in H. apply categoryStep_world in Hstep. subst w1. rewrite H.
    rewrite later_later.
    change (x :: gs) with ([x] ++ gs). rewrite groupReadings_app, groupDraws_app.
    reflexivity.
Qed.

Lemma foldM_app {A B} (f : A -> B -> @M num A) (pre post : list B) :
  forall (a final : A) (w w' : World num),
    foldM f (pre ++ post) a w = Some (final, w') ->
    exists mid w1, foldM f pre a w = Some (mid, w1) /\ foldM f post mid w1 = Some (final, w').
Proof.
  induction pre as [|x pre IH]; intros a final w w' H.
  - exists a, w. split; [reflexivity|exact H].
  - cbn [app foldM] in H. apply bind_Some in H. destruct H as (a1 & w1 & Hstep & H).
    destruct (IH _ _ _ _ H) as (mid & w2 & Hpre & Hpost).
    exists mid, w2. split; [|exact Hpost].
    cbn [foldM]. unfold bind. rewrite Hstep. exact Hpre.
Qed.

End ReplayFacts.

(** C3, as the code has it: for a category with one or two positive
    ratings a tie replay is performed.  The stored rating of the category
    is what [processHistoricalSolves] returns for the category's solves,
    started from [initialEstimate] (the mean of the accepted ratings less
    half their deviation, or 1500: the estimate made before any replay)
    offset by the jitter [(u - 0.5) * 100] and clamped to [800, 3000], where
    [u] is the next number of the random source: one number is drawn for
    each such category, in the order of the categories, and none
    otherwise.  The replay runs at the clock readings that follow those of
    the global replay and of the categories before; its result counts the
    solves replayed.  The run leaves the store with the user's ratings and
    the clock and the random source advanced by exactly these readings and
    draws. *)
Theorem initializeRatingsFromHistory_sparse :
  forall (num : Type) (N : Number num) (username : string)
         (solves : list (Solve num)) (problems : list (string * Problem num))
         (w w' : World num),
    initializeRatingsFromHistory username solves problems w = Some (tt, w') ->
    let allRatings := getAcceptedSolveRatings solves problems in
    let initialEstimate :=
      match allRatings with
      | [] => lit 1500
      | _ => (mean allRatings - lit (5 # 10) * standardDeviation allRatings)%num
      end in
    let acceptedSolves := filter (fun s => String.eqb (s_status s) "Accepted") solves in
    let groups := groupSolvesByCategory solves problems in
    let t0 := replayReadings problems acceptedSolves in
    exists ratings,
      w' = with_db (Map_set (ratings_key username) ratings (db w))
             (later (t0 + groupReadings problems groups) (groupDraws problems groups) w) /\
      processHistoricalSolves initialEstimate acceptedSolves problems w =
      Some (global ratings, later t0 0 w) /\
      forall (pre : list (string * list (Solve num))) (category : string)
             (categorySolves : list (Solve num)) (post : list (string * list (Solve num))),
        groups = pre ++ (category, categorySolves) :: post ->
        1 <= length (categoryRatingValues categorySolves problems) <= 2 ->
        let t := t0 + groupReadings problems pre in
        let d := groupDraws problems pre in
        let jitter := ((random w (draws w + d) - lit (5 # 10)) * lit 100)%num in
        let categoryInitialEstimate :=
          Math_max (lit 800) (Math_min (lit 3000) (initialEstimate + jitter)%num) in
        exists r,
          processHistoricalSolves categoryInitialEstimate categorySolves problems
            (later t (S d) w) =
          Some (r, later (t + replayReadings problems categorySolves) (S d) w) /\
          Map_get category (categories ratings) = Some r /\
          solveCount r = length (filter (replayed problems) categorySolves).
Proof.
  intros num N username solves problems w w' H allRatings initialEstimate acceptedSolves
         groups t0.
  unfold initializeRatingsFromHistory in H.
  change (initialEstimateOf solves problems) with initialEstimate in H.
  apply bind_Some in H. destruct H as (globalRating & w1 & Hglobal & H).
  apply bind_Some in H. destruct H as (cats & w2 & Hcats & H).
  unfold saveRatings in H. inversion H as [Hw']; clear H.
  fold acceptedSolves in Hglobal. fold groups in Hcats.
  pose proof (processHistoricalSolves_world _ _ _ _ Hglobal) as Hw1.
  fold t0 in Hw1.
  pose proof (@categories_world _ _ _ _ _ _ _ _ _ Hcats) as Hw2.
  rewrite Hw1, later_later in Hw2. cbn [Nat.add] in Hw2.
  exists {| global := globalRating; categories := cats |}.
  split; [|split].
  - rewrite Hw2. destruct (later_fields (t0 + groupReadings problems groups)
                             (groupDraws problems groups) w) as (_ & _ & _ & _ & _ & -> & _).
    reflexivity.
  - cbn [global]. rewrite Hglobal, Hw1. reflexivity.
  - intros pre category categorySolves post Hg Hn t d jitter categoryInitialEstimate.
    pose proof (groupSolvesByCategory_NoDup solves problems) as Hnd.
    fold groups in Hnd. rewrite Hg in Hcats, Hnd.
    destruct (foldM_app _ _ _ _ _ Hcats) as (mid & wa & Hpre & Hpost).
    cbn [foldM] in Hpost. apply bind_Some in Hpost.
    destruct Hpost as (acc2 & wb & Hstep & Hpost).
    pose proof (@categories_world _ _ _ _ _ _ _ _ _ Hpre) as Hwa.
    rewrite Hw1, later_later in Hwa. cbn [Nat.add] in Hwa. fold t d in Hwa.
    apply categoryStep_inv in Hstep. destruct Hstep as [_ Hrun].
    destruct (Hrun Hn) as (r & Hr & Hget). clear Hrun.
    destruct (later_fields t d w) as (_ & _ & _ & Hrand & Hdraws & _).
    rewrite Hwa, Hrand, Hdraws in Hr.
    change (drawn (later t d w)) with (later t (S d) w) in Hr.
    fold jitter in Hr. fold categoryInitialEstimate in Hr.
    pose proof (processHistoricalSolves_world _ _ _ _ Hr) as Hwb.
    rewrite later_later, Nat.add_0_r in Hwb.
    exists r. cbn [categories]. split; [rewrite Hr, Hwb; reflexivity|]. split.
    + rewrite (@categories_keep _ _ _ _ _ _ _ _ _ Hpost category); [exact Hget|].
      rewrite map_app in Hnd. cbn [map fst] in Hnd.
      apply NoDup_remove_2 in Hnd. intros Hin. apply Hnd. apply in_or_app. right. exact Hin.
    + apply (processHistoricalSolves_count _ _ _ _ Hr).
Qed.

(** One accepted solve of "two-sum" (rated 1500, tagged Array). *)
Lemma initializeRatingsFromHistory_sparse_witness :
  exists ratings r,
    initializeRatingsFromHistory "u" [Run.solved_two_sum]
      [("two-sum"%string, Run.two_sum)] (Run.world 100) =
    Some (tt, with_db [(ratings_key "u", ratings)] (later 6 1 (Run.world 100))) /\
    processHistoricalSolves (F64.max 800 (F64.min 3000 (1500 + (0.5 - 0.5) * 100)))%float
      [Run.solved_two_sum] [("two-sum"%string, Run.two_sum)] (later 3 1 (Run.world 100)) =
    Some (r, later 6 1 (Run.world 100)) /\
    Map_get "Array" (categories ratings) = Some r /\
    solveCount r = 1.
Proof.
  destruct (initializeRatingsFromHistory "u" [Run.solved_two_sum]
              [("two-sum"%string, Run.two_sum)] (Run.world 100))
    as [[[] w']|] eqn:Hrun; [|vm_compute in Hrun; discriminate].
  destruct (@initializeRatingsFromHistory_sparse _ _ _ _ _ _ _ Hrun)
    as (ratings & Hw & _ & Hcat).
  destruct (Hcat [] "Array"%string [Run.solved_two_sum] [])
    as (r & Hr & Hget & Hc).
  - vm_compute. reflexivity.
  - vm_compute. lia.
  - exists ratings, r. split; [rewrite Hw; reflexivity|].
    split; [exact Hr|]. split; [exact Hget|exact Hc].
Defined.

(** C3, as stated, fails: after one accepted solve of a problem rated 1500
    and tagged Array, the global rating is (1500, rd 248, one solve); the
    stored Array rating is the replay result (1500, rd 248, one solve), not
    the global rating with deviation max(200, 248 + 50) = 298. *)
Lemma initializeRatingsFromHistory_replays :
  exists ratings r,
    stored "u" (initializeRatingsFromHistory "u" [Run.solved_two_sum]
                  [("two-sum"%string, Run.two_sum)] (Run.world 100)) = Some ratings /\
    Map_get "Array" (categories ratings) = Some r /\
    length (categoryRatingValues [Run.solved_two_sum] [("two-sum"%string, Run.two_sum)]) = 1 /\
    rd (global ratings) = 248%float /\
    F64.max 200 (rd (global ratings) + 50) = 298%float /\
    rd r = 248%float /\
    solveCount r = 1.
Proof.
  eexists. eexists. split; [vm_compute; reflexivity|].
  split; [vm_compute; reflexivity|].
  repeat split; vm_compute; reflexivity.
Qed.

(* ================================================================== *)
(** * Further properties of the calibration and of the stores *)
(* ================================================================== *)

Section CalibrationFacts.
Context {num : Type} {N : Number num}.
Local Open Scope num_scope.

(** ** selectCalibrationProblems: the fill phase *)

Lemma fill_full (count : nat) (remaining selected : list (Problem num)) :
  count <= length selected -> fold_left (fillStep count) remaining selected = selected.
Proof.
  intros Hc. induction remaining as [|p ps IH]; cbn [fold_left]; [reflexivity|].
  unfold fillStep at 2. destruct (Nat.leb_spec count (length selected)); [exact IH|lia].
Qed.

Lemma fill_all (count : nat) (remaining : list (Problem num)) :
  forall selected : list (Problem num),
    length selected <= count ->
    length (fold_left (fillStep count) remaining selected) = count \/
    fold_left (fillStep count) remaining selected = selected ++ remaining.
Proof.
  induction remaining as [|p ps IH]; intros selected Hlen.
  - right. rewrite app_nil_r. reflexivity.
  - destruct (Nat.leb_spec count (length selected)) as [Hfull|Hroom].
    + left. rewrite (fill_full _ _ Hfull). lia.
    + cbn [fold_left]. unfold fillStep at 2 4.
      destruct (Nat.leb_spec count (length selected)) as [Hfull|_]; [lia|].
      destruct (IH (selected ++ [p])) as [H|H].
      * rewrite length_app. cbn. lia.
      * left. exact H.
      * right. rewrite H, <- app_assoc. reflexivity.
Qed.

(** X12: [selectCalibrationProblems] returns [count] problems unless the
    candidates run out: when it returns fewer, the slug of every candidate
    (unsolved, not paid, rated within 1100..2300) is among the slugs of the
    returned problems. *)
Theorem selectCalibrationProblems_fills :
  forall (allProblems : list (Problem num)) (count : nat) (solvedSlugs : list string)
         (w : World num),
  exists result w',
    selectCalibrationProblems allProblems count solvedSlugs w = Some (result, w') /\
    (length result = count \/
     forall p, In p allProblems -> is_candidate solvedSlugs p = true ->
               In (p_slug p) (map p_slug result)).
Proof.
  intros allProblems count solvedSlugs w. unfold selectCalibrationProblems.
  set (candidates := filter (is_candidate solvedSlugs) allProblems).
  assert (Hcand : forall p, In p allProblems -> is_candidate solvedSlugs p = true ->
                            In p candidates).
  { intros p Hp Hc. apply filter_In. split; assumption. }
  destruct candidates as [|c0 cs] eqn:Hc.
  { exists [], w. split; [reflexivity|]. right. intros p Hp Hcp.
    destruct (Hcand p Hp Hcp). }
  rewrite <- Hc in *. clear Hc c0 cs.
  destruct (@targets_inv _ _ candidates count CALIBRATION_TARGET_RATINGS ([], []))
    as [_ Hlen]; [intros x []|cbn; lia|].
  destruct (fold_left (targetStep candidates count) CALIBRATION_TARGET_RATINGS ([], []))
    as [selected used]. cbn [fst] in Hlen.
  set (final := if Nat.ltb (length selected) count then _ else selected).
  assert (Hfinal : length final = count \/
                   forall p, In p candidates -> In (p_slug p) (map p_slug final)).
  { subst final. destruct (Nat.ltb_spec (length selected) count) as [Hlt|Hge]; [|left; lia].
    destruct (@fill_all count
                (Array_sort byPopularity
                   (filter (fun p => negb (Set_has (map p_slug selected) (p_slug p)))
                      candidates)) selected Hlen) as [H|H]; [left; exact H|].
    right. rewrite H. intros p Hp. rewrite map_app. apply in_or_app.
    destruct (Set_has (map p_slug selected) (p_slug p)) eqn:Hs.
    - left. apply existsb_eqb_In. exact Hs.
    - right. apply in_map.
      apply (Permutation_in _ (Permutation_sym (Array_sort_perm byPopularity _))).
      apply filter_In. split; [exact Hp|]. rewrite Hs. reflexivity. }
  unfold shuffleArray.
  destruct (@shuffle_loop_perm _ _ _ (length final - 1) final w) as (result & w' & Hrun & Hperm).
  exists result, w'. split; [exact Hrun|].
  destruct Hfinal as [Hl|Hall].
  - left. rewrite (Permutation_length Hperm). exact Hl.
  - right. intros p Hp Hcp.
    apply (Permutation_in _ (Permutation_sym (Permutation_map p_slug Hperm))).
    apply Hall. apply Hcand; assumption.
Qed.


(** ** shuffleArray *)

Lemma shuffle_loop_run {A} (i : nat) :
  forall (l : list A) (w : World num),
    exists l',
      shuffle_loop i l w = Some (l', Nat.iter i drawn w) /\ Permutation l' l.
Proof.
  induction i as [|i IH]; intros l w.
  - exists l. split; reflexivity.
  - cbn [shuffle_loop]. unfold bind, Math_random.
    match goal with
    | |- context [shuffle_loop i ?l1 ?w1] => destruct (IH l1 w1) as (l' & Hrun & Hperm)
    end.
    exists l'. split.
    + rewrite Hrun. rewrite Nat.iter_succ_r. reflexivity.
    + rewrite Hperm. apply Array_swap_perm.
Qed.

Lemma iter_drawn (k : nat) (w : World num) :
  fuel (Nat.iter k drawn w) = fuel w /\ ticks (Nat.iter k drawn w) = ticks w /\
  draws (Nat.iter k drawn w) = (draws w + k)%nat /\
  db (Nat.iter k drawn w) = db w /\ events (Nat.iter k drawn w) = events w.
Proof.
  induction k as [|k IH].
  - cbn. repeat split; lia.
  - destruct IH as (H1 & H2 & H3 & H4 & H5).
    rewrite Nat.iter_succ.
    unfold drawn at 1 3 5 7 9. cbn [fuel ticks draws db events].
    repeat split; try assumption. rewrite H3. lia.
Qed.

(** X14: [shuffleArray] returns a permutation of its argument: no element
    is lost or repeated, whatever numbers [Math.random] yields.  It draws
    one random number for each element but the first and changes nothing
    else in the world. *)
Theorem shuffleArray_permutation :
  forall (A : Type) (array : list A) (w : World num),
  exists shuffled w',
    shuffleArray array w = Some (shuffled, w') /\
    Permutation shuffled array /\
    draws w' = (draws w + (length array - 1))%nat /\
    ticks w' = ticks w /\ db w' = db w /\ events w' = events w.
Proof.
  intros A array w. unfold shuffleArray.
  destruct (shuffle_loop_run (length array - 1) array w) as (l' & Hrun & Hperm).
  destruct (iter_drawn (length array - 1) w) as (_ & Ht & Hd & Hdb & He).
  exists l', (Nat.iter (length array - 1) drawn w). repeat split; assumption.
Qed.

(** ** The calibration session *)

Lemma attempts_loop (attempts : list (TimedSolveAttempt num)) :
  forall (state final : CalibrationState num) (w w' : World num),
    foldM processCalibrationAttempt attempts state w = Some (final, w') ->
    c_username final = c_username state /\
    c_startedAt final = c_startedAt state /\
    c_isComplete final = c_isComplete state /\
    c_attempts final = c_attempts state ++ attempts /\
    solveCount (c_currentRating final) =
      (solveCount (c_currentRating state) + length attempts)%nat /\
    w' = Nat.iter (2 * length attempts) tick w.
Proof.
  induction attempts as [|a attempts IH]; intros state final w w' H; cbn [foldM] in H.
  - apply ret_Some in H. destruct H as [-> ->]. rewrite app_nil_r. cbn.
    repeat split. lia.
  - apply bind_Some in H. destruct H as (mid & w1 & Hstep & H).
    apply IH in H. destruct H as (H1 & H2 & H3 & H4 & H5 & H6).
    unfold processCalibrationAttempt in Hstep.
    apply bind_Some in Hstep. destruct Hstep as (r' & w2 & Hup & Hret).
    apply ret_Some in Hret. destruct Hret as [-> ->].
    apply updateRating_inv in Hup. destruct Hup as (-> & Hc & _).
    cbn in H1, H2, H3, H4, H5.
    rewrite H1, H2, H3, H4, H5, H6, Hc, <- app_assoc. cbn [length app].
    repeat split; try lia.
    change (tick (tick w)) with (Nat.iter 2 tick w). rewrite iter_tick_add.
    f_equal. lia.
Qed.

(** X15: a calibration session started by [initializeCalibration] and fed
    its attempts through [processCalibrationAttempt] records the attempts
    in order, counts one solve for each in the current rating, keeps the
    user name and the start time (the first clock reading), and is never
    marked complete by these functions; the clock is read twice at the start
    and twice for every attempt. *)
Theorem calibration_session :
  forall (username : string) (attempts : list (TimedSolveAttempt num))
         (state : CalibrationState num) (w w' : World num),
    bind (initializeCalibration username)
      (fun state0 => foldM processCalibrationAttempt attempts state0) w
    = Some (state, w') ->
    c_username state = username /\
    c_startedAt state = clock w (ticks w) /\
    c_attempts state = attempts /\
    c_isComplete state = false /\
    solveCount (c_currentRating state) = length attempts /\
    ticks w' = (ticks w + 2 + 2 * length attempts)%nat /\
    draws w' = draws w /\ db w' = db w /\ events w' = events w.
Proof.
  intros username attempts state w w' H.
  apply bind_Some in H. destruct H as (state0 & w0 & Hinit & H).
  unfold initializeCalibration, bind, Date_now in Hinit.
  rewrite initializeRating_run in Hinit. cbn [ret] in Hinit.
  inversion Hinit; subst state0 w0; clear Hinit.
  apply attempts_loop in H. destruct H as (H1 & H2 & H3 & H4 & H5 & H6).
  cbn [c_username c_startedAt c_isComplete c_attempts c_currentRating solveCount app Nat.add]
    in H1, H2, H3, H4, H5.
  change (tick (tick w)) with (Nat.iter 2 tick w) in H6. rewrite iter_tick_add in H6.
  destruct (iter_tick (2 + 2 * length attempts) w) as (_ & _ & Ht & _ & Hd & Hdb & He).
  rewrite <- H6 in Ht, Hd, Hdb, He.
  repeat split; try assumption. rewrite Ht. lia.
Qed.


(** ** finalizeCalibration *)

Lemma Map_append_NoDup {V} (k : string) (v : V) (m : list (string * list V)) :
  NoDup (map fst m) -> NoDup (map fst (Map_append k v m)).
Proof. intros H. unfold Map_append. destruct (Map_get k m); apply Map_set_NoDup; exact H. Qed.

Lemma attempts_groups (t : string) (attempts : list (TimedSolveAttempt num)) :
  forall m : list (string * list (TimedSolveAttempt num)),
    no_empty_group m -> NoDup (map fst m) ->
    let m' := fold_left
                (fun categoryAttempts attempt =>
                   let category := a_category attempt in
                   if String.eqb category "Random" then categoryAttempts
                   else Map_append category attempt categoryAttempts)
                attempts m in
    no_empty_group m' /\ NoDup (map fst m') /\
    group_of t m' =
    group_of t m ++
    (if String.eqb t "Random" then []
     else filter (fun a => String.eqb (a_category a) t) attempts).
Proof.
  induction attempts as [|a attempts IH]; intros m Hm Hnd; cbn [fold_left filter].
  - split; [exact Hm|]. split; [exact Hnd|].
    destruct (String.eqb t "Random"); rewrite app_nil_r; reflexivity.
  - cbn zeta. destruct (String.eqb_spec (a_category a) "Random") as [Hr|Hr].
    + destruct (IH m Hm Hnd) as (H1 & H2 & H3). split; [exact H1|]. split; [exact H2|].
      cbn zeta in H3. rewrite H3.
      destruct (String.eqb_spec t "Random") as [->|Ht]; [reflexivity|].
      destruct (String.eqb_spec (a_category a) t); [congruence|reflexivity].
    + destruct (IH (Map_append (a_category a) a m)
                  (no_empty_group_append _ a Hm) (Map_append_NoDup _ a m Hnd))
        as (H1 & H2 & H3).
      split; [exact H1|]. split; [exact H2|]. cbn zeta in H3.
      rewrite H3, group_of_append.
      destruct (String.eqb_spec (a_category a) t) as [<-|Hne].
      * rewrite String.eqb_refl.
        destruct (String.eqb_spec (a_category a) "Random"); [congruence|].
        rewrite <- app_assoc. reflexivity.
      * destruct (String.eqb_spec t (a_category a)); [congruence|reflexivity].
Qed.

Lemma groupAttempts_get (attempts : list (TimedSolveAttempt num)) (tag : string) :
  no_empty_group (groupAttempts attempts) /\
  NoDup (map fst (groupAttempts attempts)) /\
  group_of tag (groupAttempts attempts) =
  if String.eqb tag "Random" then []
  else filter (fun a => String.eqb (a_category a) tag) attempts.
Proof.
  unfold groupAttempts.
  destruct (@attempts_groups tag attempts []) as (H1 & H2 & H3);
    [intros k l H; discriminate|constructor|].
  repeat split; assumption.
Qed.

Lemma attempts_count (attempts : list (TimedSolveAttempt num)) :
  forall (r0 r : UserRating num) (w w' : World num),
    foldM (fun categoryRating attempt =>
             updateRating categoryRating (a_problemRating attempt) (attemptScore attempt))
          attempts r0 w = Some (r, w') ->
    solveCount r = (solveCount r0 + length attempts)%nat.
Proof.
  induction attempts as [|a attempts IH]; intros r0 r w w' H; cbn [foldM] in H.
  - apply ret_Some in H. destruct H as [-> _]. cbn. lia.
  - apply bind_Some in H. destruct H as (r1 & w1 & Hup & H).
    apply IH in H. apply updateRating_inv in Hup. destruct Hup as (_ & Hc & _).
    rewrite H, Hc. cbn. lia.
Qed.

Lemma calibrationCategoryStep_inv (globalRating : UserRating num)
      (acc acc' : list (string * UserRating num)) (k : string)
      (attempts : list (TimedSolveAttempt num)) (w w' : World num) :
  calibrationCategoryStep globalRating acc (k, attempts) w = Some (acc', w') ->
  attempts <> [] ->
  exists r,
    acc' = Map_set k r acc /\
    solveCount r = length attempts /\
    (length attempts = 1 ->
     r = {| rating := Math_round
                        (Math_max (lit 800)
                           (Math_min (lit 3000)
                              (rating globalRating +
                               (random w (draws w) - lit (5 # 10)) * lit 100)));
            rd := Math_max (lit 200) (rd globalRating + lit 50);
            volatility := volatility globalRating;
            lastUpdated := lastUpdated globalRating;
            solveCount := 1 |}).
Proof.
  unfold calibrationCategoryStep, MIN_CATEGORY_ATTEMPTS. intros H Hne.
  destruct (Nat.leb_spec 2 (length attempts)) as [H2|H2].
  - apply bind_Some in H. destruct H as (r0 & w0 & Hinit & H).
    apply bind_Some in H. destruct H as (r1 & w1 & Hloop & H).
    apply ret_Some in H. destruct H as [-> _].
    eexists. split; [reflexivity|]. split; [reflexivity|lia].
  - destruct (Nat.ltb_spec 0 (length attempts)) as [H0|H0].
    + apply bind_Some in H. destruct H as (u & w0 & Hu & H).
      unfold Math_random in Hu. inversion Hu; subst u w0; clear Hu.
      apply ret_Some in H. destruct H as [-> _].
      eexists. split; [reflexivity|]. split; [reflexivity|].
      intros H1. rewrite H1. reflexivity.
    + destruct attempts; [congruence|cbn in H0; lia].
Qed.

Lemma calibration_loop (globalRating : UserRating num)
      (groups : list (string * list (TimedSolveAttempt num))) :
  forall (acc final : list (string * UserRating num)) (w w' : World num),
    foldM (calibrationCategoryStep globalRating) groups acc w = Some (final, w') ->
    NoDup (map fst groups) ->
    (forall k l, In (k, l) groups -> l <> []) ->
    (forall k, ~ In k (map fst groups) -> Map_get k final = Map_get k acc) /\
    (forall k attempts, In (k, attempts) groups ->
       exists r wa,
         Map_get k final = Some r /\
         solveCount r = length attempts /\
         (length attempts = 1 ->
          r = {| rating := Math_round
                             (Math_max (lit 800)
                                (Math_min (lit 3000)
                                   (rating globalRating +
                                    (random wa (draws wa) - lit (5 # 10)) * lit 100)));
                 rd := Math_max (lit 200) (rd globalRating + lit 50);
                 volatility := volatility globalRating;
                 lastUpdated := lastUpdated globalRating;
                 solveCount := 1 |})).
Proof.
  induction groups as [|[c cs] gs IH]; intros acc final w w' H Hnd Hne; cbn [foldM] in H.
  - apply ret_Some in H. destruct H as [-> _]. split; [reflexivity|]. intros k a [].
  - apply bind_Some in H. destruct H as (mid & w1 & Hstep & H).
    cbn in Hnd. inversion Hnd as [|? ? Hc Hgs]; subst.
    destruct (IH _ _ _ _ H Hgs) as [Hkeep Hset].
    { intros k l Hin. apply (Hne k l). right. exact Hin. }
    apply calibrationCategoryStep_inv in Hstep; [|apply (Hne c cs); left; reflexivity].
    destruct Hstep as (r & -> & Hcount & Hsparse).
    split.
    + intros k Hk. rewrite Hkeep by (intros Hx; apply Hk; right; exact Hx).
      apply Map_get_set_other. intros ->. apply Hk. left. reflexivity.
    + intros k attempts [Heq|Hin].
      * inversion Heq; subst c cs. exists r, w.
        rewrite (Hkeep k Hc), Map_get_set_same. repeat split; assumption.
      * apply (Hset k attempts Hin).
Qed.

Lemma finalizeCalibration_inv :
  forall (state : CalibrationState num) (ratings : UserRatings num) (w w' : World num),
    finalizeCalibration state w = Some (ratings, w') ->
    (c_attempts state = [] ->
     ratings = {| global := {| rating := DEFAULT_RATING; rd := DEFAULT_RD;
                               volatility := DEFAULT_VOLATILITY;
                               lastUpdated := Some (clock w (ticks w));
                               solveCount := 0 |};
                  categories := [] |}) /\
    (c_attempts state <> [] ->
     let g := c_currentRating state in
     global ratings = set_solveCount g (length (c_attempts state)) /\
     forall tag,
       let n := length (filter (fun a => String.eqb (a_category a) tag) (c_attempts state)) in
       match Map_get tag (categories ratings) with
       | None => tag = "Random"%string \/ n = 0
       | Some r =>
           tag <> "Random"%string /\ 0 < n /\ solveCount r = n /\
           (n = 1 ->
            exists wa,
              r = {| rating := Math_round
                                 (Math_max (lit 800)
                                    (Math_min (lit 3000)
                                       (rating g +
                                        (random wa (draws wa) - lit (5 # 10)) * lit 100)));
                     rd := Math_max (lit 200) (rd g + lit 50);
                     volatility := volatility g;
                     lastUpdated := lastUpdated g;
                     solveCount := 1 |})
       end).
Proof.
  intros state ratings w w' H. unfold finalizeCalibration in H. split.
  - intros He. rewrite He in H.
    unfold bind in H. rewrite initializeRating_run in H. cbn [ret] in H.
    inversion H. reflexivity.
  - intros Hne. destruct (c_attempts state) as [|a0 as0] eqn:Ha; [congruence|].
    rewrite <- Ha in *. clear Hne.
    apply bind_Some in H. destruct H as (cats & w1 & Hloop & H).
    apply ret_Some in H. destruct H as [-> _]. cbn [global categories].
    split; [reflexivity|]. intros tag.
    set (n := length (filter (fun a => String.eqb (a_category a) tag) (c_attempts state))).
    destruct (groupAttempts_get (c_attempts state) tag) as (Hnon & Hnd & Hg).
    destruct (@calibration_loop _ _ _ _ _ _ Hloop Hnd) as [Hkeep Hset].
    { intros k l Hin. apply (Hnon k l). apply Map_get_In; assumption. }
    fold n in Hg. unfold group_of in Hg.
    destruct (Map_get tag (groupAttempts (c_attempts state))) as [grp|] eqn:Hgrp.
    + assert (Hin : In (tag, grp) (groupAttempts (c_attempts state))).
      { clear - Hgrp. induction (groupAttempts (c_attempts state)) as [|[k v] m IH];
          [discriminate|]. cbn in Hgrp.
        destruct (String.eqb_spec tag k) as [->|_].
        - inversion Hgrp. left. reflexivity.
        - right. apply IH. exact Hgrp. }
      destruct (Hset tag grp Hin) as (r & wa & Hr & Hc & Hs). rewrite Hr.
      assert (Hgne : grp <> []) by apply (Hnon _ _ Hgrp).
      destruct (String.eqb_spec tag "Random") as [->|Ht]; [congruence|].
      assert (Hn : length grp = n) by (subst n; rewrite Hg; reflexivity).
      split; [exact Ht|]. split; [|split].
      * rewrite <- Hn. destruct grp; [congruence|cbn; lia].
      * rewrite Hc. exact Hn.
      * intros H1. exists wa. apply Hs. lia.
    + rewrite Hkeep; [cbn|].
      * destruct (String.eqb_spec tag "Random") as [->|Ht]; [left; reflexivity|].
        right. subst n. rewrite <- Hg. reflexivity.
      * intros Hin. apply In_Map_get in Hin. destruct Hin as [v Hv]. congruence.
Qed.



(** ** The stores *)

Lemma Map_get_delete_same {V} (k : string) (m : list (string * V)) :
  NoDup (map fst m) -> Map_get k (Map_delete k m) = None.
Proof.
  induction m as [|[k' v] m IH]; intros Hnd; [reflexivity|].
  cbn in Hnd. inversion Hnd as [|? ? Hk Hm]; subst. cbn.
  destruct (String.eqb_spec k k') as [->|Hne].
  - destruct (Map_get k' m) as [v'|] eqn:Hg; [|reflexivity].
    exfalso. apply Hk. clear - Hg. induction m as [|[k0 v0] m IH]; [discriminate|].
    cbn in Hg. destruct (String.eqb_spec k' k0) as [->|_]; [left; reflexivity|].
    right. apply IH. exact Hg.
  - cbn. destruct (String.eqb_spec k k'); [contradiction|]. apply IH. exact Hm.
Qed.

Lemma Map_get_delete_other {V} (k k' : string) (m : list (string * V)) :
  k <> k' -> Map_get k (Map_delete k' m) = Map_get k m.
Proof.
  intros Hne. induction m as [|[k0 v] m IH]; [reflexivity|]. cbn.
  destruct (String.eqb_spec k' k0) as [->|Hn0].
  - destruct (String.eqb_spec k k0); [contradiction|reflexivity].
  - cbn. destruct (String.eqb_spec k k0); [reflexivity|exact IH].
Qed.

(** X18: the ratings store gives back what was saved: after
    [saveRatings(u, r)], [getRatings(u)] is [r] and [hasRatings(u)] is true,
    and the ratings of every other user are as before; for a user without
    an entry [getRatings] is null and [hasRatings] false, and
    [initializeRatings] stores and returns the default rating (1500, 350,
    0.06, stamped with the clock, no solves) without categories. *)
Theorem ratings_store_round_trip :
  forall (username : string) (w : World num),
    (forall ratings : UserRatings num,
        exists w',
          saveRatings username ratings w = Some (tt, w') /\
          getRatings username w' = Some (Some ratings, w') /\
          hasRatings username w' = Some (true, w') /\
          forall other, other <> username ->
            value (getRatings other w') = value (getRatings other w)) /\
    (Map_get (ratings_key username) (db w) = None ->
     getRatings username w = Some (None, w) /\
     hasRatings username w = Some (false, w) /\
     exists w',
       initializeRatings username w =
       Some ({| global := {| rating := DEFAULT_RATING; rd := DEFAULT_RD;
                             volatility := DEFAULT_VOLATILITY;
                             lastUpdated := Some (clock w (ticks w));
                             solveCount := 0 |};
                categories := [] |}, w') /\
       hasRatings username w' = Some (true, w')).
Proof.
  intros username w. split.
  - intros ratings. eexists. split; [reflexivity|].
    unfold hasRatings, bind, getRatings. cbn [db with_db].
    rewrite Map_get_set_same. split; [reflexivity|]. split; [reflexivity|].
    intros other Hne. cbn. f_equal. apply Map_get_set_other.
    intros Hk. apply Hne. apply ratings_key_inj. exact Hk.
  - intros Hnone. unfold hasRatings, bind, getRatings. rewrite Hnone.
    split; [reflexivity|]. split; [reflexivity|].
    unfold initializeRatings, bind, saveRatings. rewrite initializeRating_run. cbn [ret].
    eexists. split; [reflexivity|]. cbn [db with_db].
    rewrite Map_get_set_same. reflexivity.
Qed.

Lemma calibration_key_inj (u u' : string) : calibration_key u = calibration_key u' -> u = u'.
Proof. apply append_inj_l. Qed.

Lemma session_key_inj (u u' : string) : session_key u = session_key u' -> u = u'.
Proof. apply append_inj_l. Qed.

(** X19: the calibration-state store: a saved state is the one read back,
    clearing removes it (in a store with one entry per key), and neither
    saving nor clearing the state of one user changes what is read for
    another. *)
Theorem calibration_state_round_trip :
  forall (username : string) (state : CalibrationState num)
         (store : list (string * CalibrationState num)),
    NoDup (map fst store) ->
    getCalibrationState username (saveCalibrationState username state store) = Some state /\
    getCalibrationState username
      (clearCalibrationState username (saveCalibrationState username state store)) = None /\
    getCalibrationState username (clearCalibrationState username store) = None /\
    forall other, other <> username ->
      getCalibrationState other (saveCalibrationState username state store) =
      getCalibrationState other store /\
      getCalibrationState other (clearCalibrationState username store) =
      getCalibrationState other store.
Proof.
  intros username state store Hnd.
  unfold getCalibrationState, saveCalibrationState, clearCalibrationState.
  split; [apply Map_get_set_same|].
  split; [apply Map_get_delete_same; apply Map_set_NoDup; exact Hnd|].
  split; [apply Map_get_delete_same; exact Hnd|].
  intros other Hne.
  assert (Hk : calibration_key other <> calibration_key username)
    by (intros Hk; apply Hne; apply calibration_key_inj; exact Hk).
  split; [apply Map_get_set_other; exact Hk|apply Map_get_delete_other; exact Hk].
Qed.

(** X20: the life of a solve session: [startSolveSession] always returns an
    active session with the time limit of 20 minutes whatever the problem
    is, stamped with the clock, and stores it, so that
    [hasActiveSolveSession] is true; after [markSessionInactive] the session
    is still stored but [hasActiveSolveSession] is false; after
    [endSolveSession] there is no session; the sessions of other users are
    not touched. *)
Theorem solve_session_lifecycle :
  forall (username : string) (problem : Problem num)
         (store : list (string * SolveSession num)) (w : World num),
    NoDup (map fst store) ->
    exists session store',
      startSolveSession username problem store w = Some ((session, store'), tick w) /\
      ss_isActive session = true /\
      ss_timeLimit session = BASE_TIME_MINUTES * lit 60 /\
      ss_startedAt session = clock w (ticks w) /\
      getActiveSolveSession username store' = Some session /\
      hasActiveSolveSession username store' = true /\
      hasActiveSolveSession username (markSessionInactive username store') = false /\
      (exists stopped,
          getActiveSolveSession username (markSessionInactive username store') = Some stopped /\
          ss_isActive stopped = false /\ ss_startedAt stopped = ss_startedAt session) /\
      getActiveSolveSession username (endSolveSession username store') = None /\
      hasActiveSolveSession username (endSolveSession username store') = false /\
      forall other, other <> username ->
        getActiveSolveSession other store' = getActiveSolveSession other store /\
        getActiveSolveSession other (markSessionInactive username store') =
        getActiveSolveSession other store /\
        getActiveSolveSession other (endSolveSession username store') =
        getActiveSolveSession other store.
Proof.
  intros username problem store w Hnd.
  unfold startSolveSession, bind, Date_now, ret.
  eexists. eexists. split; [reflexivity|].
  unfold hasActiveSolveSession, markSessionInactive, endSolveSession, getActiveSolveSession.
  rewrite ?Map_get_set_same. cbn [ss_isActive ss_timeLimit ss_startedAt].
  rewrite ?Map_get_set_same. cbn [ss_isActive ss_timeLimit ss_startedAt].
  rewrite Map_get_delete_same by (apply Map_set_NoDup; exact Hnd).
  repeat (split; [reflexivity|]).
  split; [eexists; repeat split|].
  split; [reflexivity|]. split; [reflexivity|].
  intros other Hne.
  assert (Hk : session_key other <> session_key username)
    by (intros Hk; apply Hne; apply session_key_inj; exact Hk).
  rewrite Map_get_delete_other by exact Hk.
  rewrite !Map_get_set_other by exact Hk. repeat split.
Qed.

End CalibrationFacts.

Section TargetFacts.
Context {num : Type} {N : Number num}.
Local Open Scope num_scope.

(** ** selectCalibrationProblems: the targets *)

Lemma targetStep_grows (candidates : list (Problem num)) (count : nat)
      (st : list (Problem num) * list string) (t : num) :
  exists extra,
    fst (targetStep candidates count st t) = fst st ++ extra /\ length extra <= 1.
Proof.
  destruct st as [selected used]. unfold targetStep. cbn [fst].
  assert (Hsame : exists extra, selected = selected ++ extra /\ length extra <= 1).
  { exists []. rewrite app_nil_r. split; [reflexivity|cbn; lia]. }
  destruct (Nat.leb count (length selected)); [exact Hsame|].
  destruct (filter (is_nearby t) candidates) as [|n ns]; [exact Hsame|].
  destruct (Array_sort byPopularity _) as [|chosen rest]; [exact Hsame|].
  cbn [fst]. exists [chosen]. split; [reflexivity|cbn; lia].
Qed.

Lemma targetStep_picks (candidates : list (Problem num)) (count : nat)
      (selected : list (Problem num)) (used : list string) (t : num) :
  length selected < count ->
  filter (is_nearby t) candidates <> [] ->
  exists chosen,
    fst (targetStep candidates count (selected, used) t) = selected ++ [chosen] /\
    is_nearby t chosen = true.
Proof.
  intros Hlen Hnear. unfold targetStep.
  destruct (Nat.leb_spec count (length selected)); [lia|].
  destruct (filter (is_nearby t) candidates) as [|n ns] eqn:Hf; [congruence|].
  set (pool := match filter (is_preferred used) (n :: ns) with
               | [] => n :: ns
               | _ :: _ => filter (is_preferred used) (n :: ns)
               end).
  assert (Hpool : pool <> [] /\ forall x, In x pool -> is_nearby t x = true).
  { assert (Hn : forall x, In x (n :: ns) -> is_nearby t x = true).
    { intros x Hx. rewrite <- Hf in Hx. apply filter_In in Hx. tauto. }
    subst pool. destruct (filter (is_preferred used) (n :: ns)) as [|q qs] eqn:Hp.
    - split; [discriminate|exact Hn].
    - split; [discriminate|]. intros x Hx. apply Hn. rewrite <- Hp in Hx.
      apply filter_In in Hx. tauto. }
  destruct Hpool as [Hne Hall].
  pose proof (Array_sort_perm byPopularity pool) as Hperm.
  destruct (Array_sort byPopularity pool) as [|chosen rest].
  - apply Permutation_nil in Hperm. congruence.
  - cbn [fst]. exists chosen. split; [reflexivity|]. apply Hall.
    apply (Permutation_in _ Hperm). left. reflexivity.
Qed.

Lemma targets_cover (candidates : list (Problem num)) (count : nat) (targets : list num) :
  forall st : list (Problem num) * list string,
    length (fst st) + length targets <= count ->
    incl (fst st) (fst (fold_left (targetStep candidates count) targets st)) /\
    forall t, In t targets -> filter (is_nearby t) candidates <> [] ->
      exists p, In p (fst (fold_left (targetStep candidates count) targets st)) /\
                is_nearby t p = true.
Proof.
  induction targets as [|t0 ts IH]; intros st Hlen; cbn [fold_left].
  - split; [apply incl_refl|]. intros t [].
  - cbn [length] in Hlen.
    destruct (targetStep_grows candidates count st t0) as (extra & Hgrow & Hextra).
    destruct (IH (targetStep candidates count st t0)) as [Hincl Hcov].
    { rewrite Hgrow, length_app. lia. }
    split.
    + intros x Hx. apply Hincl. rewrite Hgrow. apply in_or_app. left. exact Hx.
    + intros t [<-|Hin] Hnear.
      * destruct st as [selected used].
        destruct (@targetStep_picks candidates count selected used t0) as (chosen & Hsel & Hc);
          [cbn [fst] in Hlen; lia|exact Hnear|].
        exists chosen. split; [|exact Hc]. apply Hincl. rewrite Hsel.
        apply in_or_app. right. left. reflexivity.
      * apply (Hcov t Hin Hnear).
Qed.

Lemma fill_keeps (count : nat) (remaining : list (Problem num)) :
  forall selected : list (Problem num),
    incl selected (fold_left (fillStep count) remaining selected).
Proof.
  induction remaining as [|p ps IH]; intros selected; cbn [fold_left]; [apply incl_refl|].
  intros x Hx. apply IH. unfold fillStep.
  destruct (Nat.leb count (length selected)); [exact Hx|].
  apply in_or_app. left. exact Hx.
Qed.

(** X13: when at least six problems are asked for, the result of
    [selectCalibrationProblems] covers the difficulty range: for each of the
    target ratings 1200, 1400, ..., 2200 that has a candidate within 100
    points, the result holds a problem within 100 points of that target. *)
Theorem selectCalibrationProblems_covers_targets :
  forall (allProblems : list (Problem num)) (count : nat) (solvedSlugs : list string)
         (w : World num),
    6 <= count ->
    exists result w',
      selectCalibrationProblems allProblems count solvedSlugs w = Some (result, w') /\
      forall targetRating, In targetRating CALIBRATION_TARGET_RATINGS ->
        (exists c, In c allProblems /\ is_candidate solvedSlugs c = true /\
                   is_nearby targetRating c = true) ->
        exists p, In p result /\ is_nearby targetRating p = true.
Proof.
  intros allProblems count solvedSlugs w Hcount. unfold selectCalibrationProblems.
  set (candidates := filter (is_candidate solvedSlugs) allProblems).
  assert (Hnear : forall t, (exists c, In c allProblems /\ is_candidate solvedSlugs c = true /\
                                       is_nearby t c = true) ->
                            filter (is_nearby t) candidates <> []).
  { intros t (c & Hc & Hcand & Hn) He.
    assert (Hin : In c (filter (is_nearby t) candidates)).
    { apply filter_In. split; [|exact Hn]. apply filter_In. split; assumption. }
    rewrite He in Hin. destruct Hin. }
  destruct candidates as [|c0 cs] eqn:Hc.
  { exists [], w. split; [reflexivity|]. intros t _ Hex.
    exfalso. apply (Hnear t Hex). reflexivity. }
  rewrite <- Hc in *. clear Hc c0 cs.
  destruct (@targets_cover candidates count CALIBRATION_TARGET_RATINGS ([], []))
    as [_ Hcov]; [cbn; lia|].
  destruct (fold_left (targetStep candidates count) CALIBRATION_TARGET_RATINGS ([], []))
    as [selected used]. cbn [fst] in Hcov.
  set (final := if Nat.ltb (length selected) count then _ else selected).
  assert (Hfinal : incl selected final).
  { subst final. destruct (Nat.ltb (length selected) count); [|apply incl_refl].
    apply fill_keeps. }
  unfold shuffleArray.
  destruct (@shuffle_loop_perm _ _ _ (length final - 1) final w) as (result & w' & Hrun & Hperm).
  exists result, w'. split; [exact Hrun|].
  intros t Ht Hex. destruct (Hcov t Ht (Hnear t Hex)) as (p & Hp & Hn).
  exists p. split; [|exact Hn].
  apply (Permutation_in _ (Permutation_sym Hperm)). apply Hfinal. exact Hp.
Qed.

End TargetFacts.

Section CategoryFacts.
Context {num : Type} {N : Number num}.
Local Open Scope num_scope.

(** Entries of the category ratings are never removed. *)
Lemma categories_grow (initialEstimate : num) (problems : list (string * Problem num))
      (groups : list (string * list (Solve num))) :
  forall (acc final : list (string * UserRating num)) (w w' : World num),
    foldM (categoryStep initialEstimate problems) groups acc w = Some (final, w') ->
    (forall k, Map_get k acc <> None -> Map_get k final <> None) /\
    (forall k categorySolves, In (k, categorySolves) groups ->
       0 < length (categoryRatingValues categorySolves problems) ->
       Map_get k final <> None).
Proof.
  induction groups as [|[c cs] gs IH]; intros acc final w w' H; cbn [foldM] in H.
  - apply ret_Some in H. destruct H as [-> _]. split; [tauto|]. intros k l [].
  - apply bind_Some in H. destruct H as (mid & w1 & Hstep & H).
    destruct (IH _ _ _ _ H) as [Hgrow Hnew].
    assert (Hmid : (forall k, Map_get k acc <> None -> Map_get k mid <> None) /\
                   (0 < length (categoryRatingValues cs problems) -> Map_get c mid <> None)).
    { assert (Hset : forall r, (forall k, Map_get k acc <> None ->
                                          Map_get k (Map_set c r acc) <> None) /\
                               Map_get c (Map_set c r acc) <> None).
      { intros r. split.
        - intros k Hk. destruct (String.eqb_spec k c) as [->|Hne].
          + rewrite Map_get_set_same. discriminate.
          + rewrite (Map_get_set_other _ _ Hne). exact Hk.
        - rewrite Map_get_set_same. discriminate. }
      unfold categoryStep in Hstep.
      destruct (Nat.leb_spec 3 (length (categoryRatingValues cs problems))).
      - apply bind_Some in Hstep. destruct Hstep as (r1 & w2 & _ & Hret).
        apply ret_Some in Hret. destruct Hret as [-> _].
        destruct (Hset r1). split; [assumption|intros _; assumption].
      - destruct (Nat.ltb_spec 0 (length (categoryRatingValues cs problems))).
        + apply bind_Some in Hstep. destruct Hstep as (u & w2 & _ & Hstep).
          apply bind_Some in Hstep. destruct Hstep as (r1 & w3 & _ & Hret).
          apply ret_Some in Hret. destruct Hret as [-> _].
          destruct (Hset r1). split; [assumption|intros _; assumption].
        + apply ret_Some in Hstep. destruct Hstep as [-> _]. split; [tauto|lia]. }
    destruct Hmid as [Hm1 Hm2]. split.
    + intros k Hk. apply Hgrow. apply Hm1. exact Hk.
    + intros k l [Heq|Hin] Hpos.
      * inversion Heq; subst. apply Hgrow. apply Hm2. exact Hpos.
      * apply (Hnew k l Hin Hpos).
Qed.

End CategoryFacts.

(** ** Binary64: ratings that count *)

Module F64History.
Open Scope float_scope.

Lemma rated_usable (problem : option (Problem float)) :
  rated problem = usable_rating problem.
Proof.
  unfold rated, usable_rating. destruct problem as [p|]; [|reflexivity].
  destruct (p_rating p) as [r|]; [|reflexivity].
  change (@truthy float _ r) with (F64.truthy r).
  change (@ltb float _ (lit 0) r) with (0 <? r).
  change (@leb float _ r (lit 0)) with (r <=? 0).
  destruct (0 <? r) eqn:Hp.
  - rewrite (@F64Facts.positive_truthy _ Hp), (@F64Facts.positive_not_le _ Hp). reflexivity.
  - rewrite andb_false_r. rewrite (@F64Facts.not_positive_falsy_or_le _ Hp). reflexivity.
Qed.

Lemma usable_positive (problem : option (Problem float)) (r : float) :
  usable_rating problem = Some r ->
  exists p, problem = Some p /\ p_rating p = Some r /\ (0 <? r) = true.
Proof.
  rewrite <- rated_usable. unfold rated. destruct problem as [p|]; [|discriminate].
  destruct (p_rating p) as [x|] eqn:Hx; [|discriminate].
  change (@ltb float _ (lit 0) x) with (0 <? x).
  destruct (0 <? x) eqn:Hp; [|rewrite andb_false_r; discriminate].
  destruct (truthy x); [|discriminate]. intros H. inversion H; subst.
  exists p. repeat split; assumption.
Qed.

Lemma getAcceptedSolveRatings_length (solves : list (Solve float))
      (problems : list (string * Problem float)) :
  length (getAcceptedSolveRatings solves problems) =
  length (filter (replayed problems) solves).
Proof.
  unfold getAcceptedSolveRatings.
  induction solves as [|s ss IH]; [reflexivity|]. cbn [flat_map filter].
  rewrite length_app, IH. unfold replayed at 2. rewrite rated_usable.
  destruct (String.eqb (s_status s) "Accepted"); cbn [negb andb]; [|reflexivity].
  destruct (usable_rating (Map_get (s_slug s) problems)); reflexivity.
Qed.

Lemma categoryRatingValues_length (problems : list (string * Problem float))
      (categorySolves : list (Solve float)) :
  Forall (fun s => replayed problems s = true) categorySolves ->
  length (categoryRatingValues categorySolves problems) = length categorySolves.
Proof.
  unfold categoryRatingValues. induction 1 as [|s ss Hs _ IH]; [reflexivity|].
  cbn [map filter]. unfold replayed in Hs. apply andb_prop in Hs. destruct Hs as [_ Hs].
  destruct (usable_rating (Map_get (s_slug s) problems)) as [r|] eqn:Hu; [|discriminate].
  apply usable_positive in Hu. destruct Hu as (p & Hp & Hr & Hpos).
  rewrite Hp, Hr. change (@ltb float _ (lit 0) r) with (0 <? r). rewrite Hpos.
  cbn [length]. rewrite IH. reflexivity.
Qed.


(** X9: in binary64 arithmetic, the ratings a returning run of
    [initializeRatingsFromHistory] stores have a global solve count equal to
    the number of ratings the initial estimate was averaged from
    ([allRatings.length]), and a category rating for exactly the tags that
    [groupSolvesByCategory] has a group for.  Without any accepted solve of
    a problem with a positive rating, the stored ratings are the default
    rating (1500, 350, 0.06, no solves) stamped with the first clock
    reading, and no category. *)
Theorem initializeRatingsFromHistory_stored :
  forall (username : string) (solves : list (Solve float))
         (problems : list (string * Problem float)) (w w' : World float),
    initializeRatingsFromHistory username solves problems w = Some (tt, w') ->
    exists ratings,
      Map_get (ratings_key username) (db w') = Some ratings /\
      solveCount (global ratings) = length (getAcceptedSolveRatings solves problems) /\
      (forall tag,
          Map_get tag (categories ratings) = None <->
          Map_get tag (groupSolvesByCategory solves problems) = None) /\
      (getAcceptedSolveRatings solves problems = [] ->
       ratings = {| global := {| rating := DEFAULT_RATING; rd := DEFAULT_RD;
                                 volatility := DEFAULT_VOLATILITY;
                                 lastUpdated := Some (clock w (ticks w));
                                 solveCount := 0 |};
                    categories := [] |}).
Proof.
  intros username solves problems w w' H.
  unfold initializeRatingsFromHistory in H.
  apply bind_Some in H. destruct H as (globalRating & w1 & Hglobal & H).
  apply bind_Some in H. destruct H as (cats & w2 & Hcats & H).
  unfold saveRatings in H. inversion H as [Hw']; clear H.
  eexists. cbn [db with_db]. split; [apply Map_get_set_same|].
  cbn [global categories]. split; [|split].
  - rewrite (processHistoricalSolves_count _ _ _ _ Hglobal), replayed_accepted.
    symmetry. apply getAcceptedSolveRatings_length.
  - intros tag. split.
    + intros Hnone.
      destruct (Map_get tag (groupSolvesByCategory solves problems)) as [cs|] eqn:Hg;
        [exfalso|reflexivity].
      destruct (@categories_grow _ _ _ _ _ _ _ _ _ Hcats) as [_ Hnew].
      apply (Hnew tag cs); [| |exact Hnone].
      * clear - Hg. induction (groupSolvesByCategory solves problems) as [|[k v] m IH];
          [discriminate|]. cbn in Hg.
        destruct (String.eqb_spec tag k) as [->|_].
        -- inversion Hg. left. reflexivity.
        -- right. apply IH. exact Hg.
      * destruct (groupSolvesByCategory_get solves problems tag) as [Hne Hgrp].
        unfold group_of in Hgrp. rewrite Hg in Hgrp.
        assert (Hcs : cs <> []) by apply (Hne _ _ Hg).
        rewrite categoryRatingValues_length.
        -- destruct cs; [congruence|cbn; lia].
        -- destruct (String.eqb tag "Random"); [congruence|].
           rewrite Hgrp. apply taggedSolves_replayed.
    + intros Hg. rewrite (@categories_keep _ _ _ _ _ _ _ _ _ Hcats tag); [reflexivity|].
      intros Hin. apply In_Map_get in Hin. destruct Hin as [v Hv]. congruence.
  - intros Hnil.
    assert (Hn : filter (replayed problems) solves = []).
    { apply length_zero_iff_nil. rewrite <- getAcceptedSolveRatings_length, Hnil.
      reflexivity. }
    assert (Hgroups : groupSolvesByCategory solves problems = []).
    { apply Map_get_all_None. intros tag.
      destruct (groupSolvesByCategory_get solves problems tag) as [Hne Hgrp].
      rewrite (no_empty_group_get tag Hne), Hgrp, (taggedSolves_none _ tag _ Hn).
      destruct (String.eqb tag "Random"); reflexivity. }
    rewrite Hgroups in Hcats. cbn [foldM] in Hcats. apply ret_Some in Hcats.
    destruct Hcats as [-> _].
    destruct (@processHistoricalSolves_inv _ _ _ _ _ _ _ _ Hglobal) as (_ & _ & _ & _ & _ & Hdef).
    rewrite replayed_accepted, Hn in Hdef. rewrite (Hdef eq_refl).
    unfold initialEstimateOf. rewrite Hnil. reflexivity.
Qed.

End F64History.

(* ================================================================== *)
(** * Further properties in binary64 arithmetic *)
(* ================================================================== *)


Module F64More.
Open Scope float_scope.

Lemma max_ge (lo y : float) :
  is_nan lo = false ->
  is_nan (F64.max lo y) = true \/ (lo <=? F64.max lo y) = true.
Proof.
  intros Hl. destruct (is_nan y) eqn:Hy.
  - left. unfold F64.max. rewrite Hy, orb_true_r. reflexivity.
  - right. unfold F64.max. rewrite Hl, Hy. cbn [orb].
    destruct (@F64Range.cmp_cases lo y Hl Hy) as [H|[H|H]];
      destruct H as (Hlt & Heq & Hle & Hge); rewrite Heq, ?Hlt.
    + exact Hle.
    + destruct (get_sign lo); [exact Hle|apply F64Range.leb_refl; exact Hl].
    + apply F64Range.leb_refl. exact Hl.
Qed.

Lemma nan_or_le_not_lt (lo x : float) :
  is_nan x = true \/ (lo <=? x) = true -> (x <? lo) = false.
Proof.
  intros [Hn|Hle].
  - destruct (x <? lo) eqn:Hlt; [|reflexivity].
    unfold is_nan in Hn. rewrite FloatAxioms.eqb_spec in Hn.
    rewrite FloatAxioms.ltb_spec in Hlt. unfold SFltb in Hlt. unfold SFeqb in Hn.
    destruct (Prim2SF x) as [s|s| |s m e]; cbn in Hn, Hlt; try discriminate.
    + destruct s; discriminate.
    + rewrite Z.compare_refl in Hn.
      change PosDef.Pos.compare_cont with Pos.compare_cont in Hn.
      rewrite Pos.compare_cont_refl in Hn. destruct s; discriminate.
  - destruct (x <? lo) eqn:Hlt; [|reflexivity].
    apply F64Facts.ltb_leb_false in Hlt. congruence.
Qed.

(** X24: in binary64 arithmetic [getLowerBoundRating] is never negative:
    it is at least 0 unless it is NaN, whatever the rating and the
    deviation are. *)
Theorem getLowerBoundRating_floor :
  forall rating rd : float,
    (is_nan (getLowerBoundRating rating rd) = true \/
     (0 <=? getLowerBoundRating rating rd) = true) /\
    (getLowerBoundRating rating rd <? 0) = false.
Proof.
  intros rating rd.
  assert (H : is_nan (getLowerBoundRating rating rd) = true \/
              (0 <=? getLowerBoundRating rating rd) = true).
  { apply (@max_ge 0 (F64.round (rating - 2 * rd)) eq_refl). }
  split; [exact H|]. apply nan_or_le_not_lt. exact H.
Qed.


Lemma of_Z_3000_range (z : Z) :
  (800 <= z <= 3000)%Z -> (800 <=? F64.of_Z z) = true /\ (F64.of_Z z <=? 3000) = true.
Proof.
  intros Hz.
  assert (H : forallb (fun z => (800 <=? F64.of_Z z) && (F64.of_Z z <=? 3000))
                (map Z.of_nat (seq (Z.to_nat 800) (Z.to_nat (3000 - 800 + 1)))) = true)
    by (vm_compute; reflexivity).
  rewrite forallb_forall in H. apply andb_prop. apply H.
  apply F64Range.in_range_list; lia.
Qed.

(** The clamp of an inherited rating: a number that is not NaN ends in
    [800, 3000]. *)
Lemma clamp_3000 (x : float) :
  is_nan x = false ->
  (800 <=? F64.round (F64.max 800 (F64.min 3000 x))) = true /\
  (F64.round (F64.max 800 (F64.min 3000 x)) <=? 3000) = true.
Proof.
  intros Hx.
  destruct (@F64Range.min_below 3000 x eq_refl Hx) as [Hn Hle].
  destruct (@F64Range.max_between 800 3000 (F64.min 3000 x) eq_refl Hn eq_refl Hle) as [H1 H2].
  apply (@F64Range.round_in_range 800 3000 _ 800 3000
           7036874417766400 6597069766656000 (-43) (-41));
    try reflexivity; try lia; try assumption.
  apply of_Z_3000_range.
Qed.

(** X17: in binary64 arithmetic, the rating [finalizeCalibration] gives a
    category with a single attempt is within [800, 3000] unless it is NaN,
    and its deviation is at least 200 unless it is NaN; no upper bound is
    applied to that deviation. *)
Theorem finalizeCalibration_single_attempt :
  forall (state : CalibrationState float) (ratings : UserRatings float)
         (w w' : World float) (tag : string) (r : UserRating float),
    finalizeCalibration state w = Some (ratings, w') ->
    length (filter (fun a => String.eqb (a_category a) tag) (c_attempts state)) = 1%nat ->
    Map_get tag (categories ratings) = Some r ->
    (is_nan (rating r) = true \/
     ((800 <=? rating r) = true /\ (rating r <=? 3000) = true)) /\
    (is_nan (rd r) = true \/ (200 <=? rd r) = true) /\
    rd r = F64.max 200 (rd (c_currentRating state) + 50) /\
    solveCount r = 1%nat.
Proof.
  intros state ratings w w' tag r H H1 Hr.
  destruct (@finalizeCalibration_inv _ _ _ _ _ _ H) as [_ Hfin].
  assert (Hne : c_attempts state <> []).
  { intros He. rewrite He in H1. discriminate. }
  destruct (Hfin Hne) as [_ Hcat]. specialize (Hcat tag). cbn zeta in Hcat.
  rewrite Hr, H1 in Hcat. destruct Hcat as (_ & _ & Hc & Hs).
  destruct (Hs eq_refl) as [wa ->]. cbn [rating rd solveCount].
  split; [|split; [|split; reflexivity]].
  - match goal with
    | |- context [Math_min (lit 3000) ?X] => set (x := X)
    end.
    change (is_nan (F64.round (F64.max 800 (F64.min 3000 x))) = true \/
            (800 <=? F64.round (F64.max 800 (F64.min 3000 x))) = true /\
            (F64.round (F64.max 800 (F64.min 3000 x)) <=? 3000) = true).
    destruct (is_nan x) eqn:Hn.
    + left. apply F64Range.clamp_nan. exact Hn.
    + right. apply clamp_3000. exact Hn.
  - apply (@max_ge 200 _ eq_refl).
Qed.

End F64More.


(* ================================================================== *)
(** * The further properties at work *)
(* ================================================================== *)

(** The first win of a new user against an equal problem counts one
    solve. *)
Lemma updateRating_effects_witness :
  exists r',
    value (updateRating (Run.fresh 1500 350 0.06) 1500%float 1%float (Run.world 100))
    = Some r' /\
    solveCount r' = 1.
Proof.
  destruct (updateRating (Run.fresh 1500 350 0.06) 1500%float 1%float (Run.world 100))
    as [[r' w']|] eqn:Hrun; [|vm_compute in Hrun; discriminate].
  exists r'. split; [reflexivity|].
  destruct (@updateRating_effects _ _ _ _ _ _ _ _ Hrun) as (Hc & _). exact Hc.
Defined.

(** The first rated solve of a user dispatches one event. *)
Lemma updateRatingsFromSolve_effects_witness :
  exists w',
    updateRatingsFromSolve "u" Run.solved_two_sum (Run.world 100) = Some (tt, w') /\
    events w' = ["ratings-updated"%string].
Proof.
  destruct (updateRatingsFromSolve "u" Run.solved_two_sum (Run.world 100))
    as [[[] w']|] eqn:Hrun; [|vm_compute in Hrun; discriminate].
  exists w'. split; [reflexivity|].
  assert (Hl : lacks_rating Run.solved_two_sum = false) by (vm_compute; reflexivity).
  destruct (@updateRatingsFromSolve_effects _ _ "u"%string Run.solved_two_sum
              (Run.world 100) w' Hl Hrun) as (He & _).
  exact He.
Defined.

(** A batch of one rated solve and the single call. *)
Lemma updateRatingsFromSolves_as_single_calls_witness :
  silent (updateRatingsFromSolves "u" [Run.solved_two_sum] (Run.world 100)) =
  silent (eachSolve "u" [Run.solved_two_sum] (Run.world 100)).
Proof.
  assert (Hex : existsb (fun s => negb (lacks_rating s)) [Run.solved_two_sum] = true)
    by (vm_compute; reflexivity).
  destruct (@updateRatingsFromSolves_as_single_calls _ _ "u"%string [Run.solved_two_sum]
              (Run.world 100) Hex) as (H & _).
  exact H.
Defined.

(** A batch of one solve without a rating, for a user without ratings. *)
Lemma updateRatingsFromSolves_unrated_witness :
  eachSolve "u" [Run.unrated] (Run.world 0) = Some (tt, Run.world 0) /\
  exists w',
    updateRatingsFromSolves "u" [Run.unrated] (Run.world 0) = Some (tt, w') /\
    events w' = [] /\ ticks w' = 1.
Proof.
  assert (Hall : forallb lacks_rating [Run.unrated] = true) by (vm_compute; reflexivity).
  destruct (@updateRatingsFromSolves_unrated _ _ "u"%string [Run.unrated] (Run.world 0) Hall)
    as (H1 & _ & H3).
  split; [exact H1|].
  destruct H3 as (w' & Hrun & He & Ht & _); [discriminate|reflexivity|].
  exists w'. repeat split; assumption.
Defined.

(** One accepted solve of "two-sum" is replayed once. *)
Lemma processHistoricalSolves_effects_witness :
  exists r w',
    processHistoricalSolves 1500%float [Run.solved_two_sum]
      [("two-sum"%string, Run.two_sum)] (Run.world 100) = Some (r, w') /\
    solveCount r = 1 /\ ticks w' = 3.
Proof.
  destruct (processHistoricalSolves 1500%float [Run.solved_two_sum]
              [("two-sum"%string, Run.two_sum)] (Run.world 100))
    as [[r w']|] eqn:Hrun; [|vm_compute in Hrun; discriminate].
  exists r, w'. split; [reflexivity|].
  destruct (@processHistoricalSolves_effects _ _ _ _ _ _ _ _ Hrun) as (Hc & Ht & _).
  split; [exact Hc|exact Ht].
Defined.

(** The history of one accepted solve of "two-sum", tagged Array. *)
Lemma initializeRatingsFromHistory_effects_witness :
  exists w' ratings,
    initializeRatingsFromHistory "u" [Run.solved_two_sum]
      [("two-sum"%string, Run.two_sum)] (Run.world 100) = Some (tt, w') /\
    events w' = [] /\
    Map_get (ratings_key "u") (db w') = Some ratings /\
    solveCount (global ratings) = 1.
Proof.
  destruct (initializeRatingsFromHistory "u" [Run.solved_two_sum]
              [("two-sum"%string, Run.two_sum)] (Run.world 100))
    as [[[] w']|] eqn:Hrun; [|vm_compute in Hrun; discriminate].
  destruct (@initializeRatingsFromHistory_effects _ _ _ _ _ _ _ Hrun)
    as (He & _ & ratings & Hget & Hc & _).
  exists w', ratings. split; [reflexivity|]. repeat split; assumption.
Defined.

(** The same history in binary64: one rating was averaged, one solve is
    counted. *)
Lemma initializeRatingsFromHistory_stored_witness :
  exists ratings,
    stored "u" (initializeRatingsFromHistory "u" [Run.solved_two_sum]
                  [("two-sum"%string, Run.two_sum)] (Run.world 100)) = Some ratings /\
    solveCount (global ratings) = 1.
Proof.
  destruct (initializeRatingsFromHistory "u" [Run.solved_two_sum]
              [("two-sum"%string, Run.two_sum)] (Run.world 100))
    as [[[] w']|] eqn:Hrun; [|vm_compute in Hrun; discriminate].
  destruct (@F64History.initializeRatingsFromHistory_stored _ _ _ _ _ Hrun)
    as (ratings & Hget & Hc & _).
  exists ratings. split; [exact Hget|exact Hc].
Defined.

(** The metadata of that history: one accepted solve, low confidence. *)
Lemma getEstimationMetadata_of_history_witness :
  exists ratings,
    stored "u" (initializeRatingsFromHistory "u" [Run.solved_two_sum]
                  [("two-sum"%string, Run.two_sum)] (Run.world 100)) = Some ratings /\
    solveCount (global ratings) <=
    totalSolves (getEstimationMetadata ratings [Run.solved_two_sum]).
Proof.
  destruct (initializeRatingsFromHistory "u" [Run.solved_two_sum]
              [("two-sum"%string, Run.two_sum)] (Run.world 100))
    as [[[] w']|] eqn:Hrun; [|vm_compute in Hrun; discriminate].
  destruct (Map_get (ratings_key "u") (db w')) as [ratings|] eqn:Hget.
  - exists ratings. split; [exact Hget|].
    destruct (@getEstimationMetadata_of_history _ _ _ _ _ _ _ ratings Hrun Hget) as (H & _).
    exact H.
  - exfalso. vm_compute in Hrun. inversion Hrun as [Hw]. rewrite <- Hw in Hget.
    vm_compute in Hget. discriminate.
Defined.

(** A session of one attempt. *)
Lemma calibration_session_witness :
  exists state w',
    bind (initializeCalibration "u")
      (fun state0 => foldM processCalibrationAttempt [Run.attempt] state0) (Run.world 100)
    = Some (state, w') /\
    c_attempts state = [Run.attempt] /\
    solveCount (c_currentRating state) = 1 /\
    c_isComplete state = false.
Proof.
  destruct (bind (initializeCalibration "u")
              (fun state0 => foldM processCalibrationAttempt [Run.attempt] state0)
              (Run.world 100))
    as [[state w']|] eqn:Hrun; [|vm_compute in Hrun; discriminate].
  exists state, w'. split; [reflexivity|].
  destruct (@calibration_session _ _ "u"%string [Run.attempt] state (Run.world 100) w' Hrun)
    as (_ & _ & Ha & Hc & Hn & _).
  repeat split; assumption.
Defined.


(** The Array rating of that session: one attempt, so the global rating
    with jitter, deviation max(200, 248 + 50) = 298. *)
Lemma finalizeCalibration_single_attempt_witness :
  exists ratings r,
    value (finalizeCalibration Run.calibrating (Run.world 100)) = Some ratings /\
    Map_get "Array" (categories ratings) = Some r /\
    rd r = 298%float /\ solveCount r = 1.
Proof.
  destruct (finalizeCalibration Run.calibrating (Run.world 100))
    as [[ratings w']|] eqn:Hrun; [|vm_compute in Hrun; discriminate].
  destruct (Map_get "Array" (categories ratings)) as [r|] eqn:Hr.
  - exists ratings, r. split; [reflexivity|]. split; [exact Hr|].
    assert (H1 : length (filter (fun a => String.eqb (a_category a) "Array")
                           (c_attempts Run.calibrating)) = 1) by reflexivity.
    destruct (@F64More.finalizeCalibration_single_attempt _ _ _ _ "Array"%string r Hrun H1 Hr)
      as (_ & _ & Hrd & Hc).
    split; [rewrite Hrd; vm_compute; reflexivity|exact Hc].
  - exfalso. vm_compute in Hrun. inversion Hrun as [[Hw Hw']]. rewrite <- Hw in Hr.
    vm_compute in Hr. discriminate.
Defined.

(** Saving the session in an empty store and reading it back. *)
Lemma calibration_state_round_trip_witness :
  getCalibrationState "u" (saveCalibrationState "u" Run.calibrating []) = Some Run.calibrating /\
  getCalibrationState "u"
    (clearCalibrationState "u" (saveCalibrationState "u" Run.calibrating [])) = None.
Proof.
  destruct (@calibration_state_round_trip _ "u"%string Run.calibrating [] (NoDup_nil _))
    as (H1 & H2 & _).
  split; [exact H1|exact H2].
Defined.

(** Starting a session on "two-sum" with no session stored. *)
Lemma solve_session_lifecycle_witness :
  exists session store',
    startSolveSession "u" Run.two_sum [] (Run.world 0) = Some ((session, store'), tick (Run.world 0)) /\
    ss_timeLimit session = 1200%float /\
    hasActiveSolveSession "u" store' = true /\
    hasActiveSolveSession "u" (markSessionInactive "u" store') = false /\
    getActiveSolveSession "u" (endSolveSession "u" store') = None.
Proof.
  destruct (@solve_session_lifecycle _ _ "u"%string Run.two_sum [] (Run.world 0) (NoDup_nil _))
    as (session & store' & Hrun & _ & Ht & _ & _ & Ha & Hi & _ & He & _).
  exists session, store'. split; [exact Hrun|]. split; [rewrite Ht; reflexivity|].
  repeat split; assumption.
Defined.

(** Eight problems asked for, one candidate near the target 1200. *)
Lemma selectCalibrationProblems_covers_targets_witness :
  exists result w',
    selectCalibrationProblems [Run.only_1300] 8 [] (Run.world 0) = Some (result, w') /\
    forall targetRating, In targetRating (CALIBRATION_TARGET_RATINGS : list float) ->
      (exists c, In c [Run.only_1300] /\ is_candidate [] c = true /\
                 is_nearby targetRating c = true) ->
      exists p, In p result /\ is_nearby targetRating p = true.
Proof.
  apply (@selectCalibrationProblems_covers_targets _ _ [Run.only_1300] 8 [] (Run.world 0)).
  lia.
Defined.
